(** * Secure transport of the document management system

    A shallow embedding of the home-grown secure transport:
    - [server/app/rsa_block.py]: number theory, key generation and the
      four-mode RSA block codec;
    - [client/app/secure_protocol.py]: the header+payload binary packet;
    - [client/app/socket_client.py], [server/app/main.py]: the multi-file
      packet and the per-connection handshake of the two listeners.

    Python integers are [Z]; [bytes] are lists of [Byte.byte]; exceptions
    are an explicit outcome; the process's random source ([secrets]) is a
    tape of raw draws that is threaded through the randomized functions. *)

From Stdlib Require Import ZArith List Lia Bool String Ascii.
From Stdlib Require Import Strings.Byte.
From Stdlib Require Import Znumtheory Zdivisibility Zcong.
From Stdlib Require Import Zmod.ZmodInv.
From Stdlib Require Import DecimalString.
Import ListNotations.

#[local] Set Warnings "-register-all".

#[local] Open Scope Z_scope.

(** ** Outcomes: Python exceptions and loop bounds *)

Inductive exn : Type :=
| ValueError (msg : string)
| ZeroDivisionError
| OverflowError
| StructError
| AttributeError
| KeyError (key : string)
| ConnectionError
| RecursionError
| ExternalError (msg : string)
| SystemExit
| KeyboardInterrupt.

(** [isinstance(e, Exception)]: what an [except Exception] clause catches.
    [SystemExit] and [KeyboardInterrupt] derive from [BaseException]
    alone. *)
Definition is_Exception (e : exn) : bool :=
  match e with
  | SystemExit | KeyboardInterrupt => false
  | _ => true
  end.

(** [OutOfFuel] is not a Python behaviour: it marks a [while] loop of the
    model that was cut after the number of iterations it was given. *)
Inductive outcome (A : Type) : Type :=
| Ret (a : A)
| Raise (e : exn)
| OutOfFuel.

Arguments Ret {A} a.
Arguments Raise {A} e.
Arguments OutOfFuel {A}.

Definition bind {A B} (m : outcome A) (f : A -> outcome B) : outcome B :=
  match m with
  | Ret a => f a
  | Raise e => Raise e
  | OutOfFuel => OutOfFuel
  end.

Declare Scope py_scope.
Delimit Scope py_scope with py.
Notation "x <- m ;; k" := (bind m (fun x => k))
  (at level 61, m at next level, right associativity) : py_scope.
Notation "' pat <- m ;; k" := (bind m (fun x => match x with pat => k end))
  (at level 61, pat pattern, m at next level, right associativity) : py_scope.
#[local] Open Scope py_scope.

Definition is_error {A} (o : outcome A) : Prop := exists e, o = Raise e.

(** ** The random source

    [secrets.randbelow] and [secrets.randbits] draw from the operating
    system.  The model reads raw draws from a tape and reduces each into the
    range the call asks for, so every value the real source can return is
    the image of some tape. *)

Definition rng : Type := nat -> Z.

Definition Rand (A : Type) : Type := rng -> outcome (A * rng).

Definition rret {A} (a : A) : Rand A := fun g => Ret (a, g).

Definition rraise {A} (e : exn) : Rand A := fun _ => Raise e.

Definition rbind {A B} (m : Rand A) (f : A -> Rand B) : Rand B :=
  fun g => match m g with
           | Ret (a, g') => f a g'
           | Raise e => Raise e
           | OutOfFuel => OutOfFuel
           end.

Definition lift {A} (o : outcome A) : Rand A :=
  fun g => match o with
           | Ret a => Ret (a, g)
           | Raise e => Raise e
           | OutOfFuel => OutOfFuel
           end.

Declare Scope rand_scope.
Delimit Scope rand_scope with rand.
Notation "x <~ m ;; k" := (rbind m (fun x => k))
  (at level 61, m at next level, right associativity) : rand_scope.
#[local] Open Scope rand_scope.

Definition draw : Rand Z := fun g => Ret (g 0%nat, fun i => g (S i)).

Definition tape_of (l : list Z) : rng := fun i => nth i l 0.

(** ** Python primitives used by the transport *)

Module Py.

Definition bytes : Type := list byte.

Definition len {A} (l : list A) : Z := Z.of_nat (List.length l).

(** [data[lo:hi]] for the non-negative indices this program computes. *)
Definition slice {A} (l : list A) (lo hi : Z) : list A :=
  firstn (Z.to_nat (hi - lo)) (skipn (Z.to_nat lo) l).

Definition Z_of_byte (b : byte) : Z := Z.of_N (Byte.to_N b).

Definition byte_of_Z (z : Z) : byte :=
  match Byte.of_N (Z.to_N z) with
  | Some b => b
  | None => x00
  end.

(** [bytes([r])] *)
Definition bytes_of_int (r : Z) : outcome bytes :=
  if (0 <=? r) && (r <? 256) then Ret [byte_of_Z r]
  else Raise (ValueError "bytes must be in range(0, 256)").

(** [int.from_bytes(bs, "big")] *)
Definition int_from_bytes (bs : bytes) : Z :=
  fold_left (fun acc b => acc * 256 + Z_of_byte b) bs 0.

Fixpoint be_digits (count : nat) (m : Z) : bytes :=
  match count with
  | O => []
  | S c => be_digits c (m / 256) ++ [byte_of_Z (m mod 256)]
  end.

(** [m.to_bytes(length, "big")] *)
Definition int_to_bytes (m size : Z) : outcome bytes :=
  if size <? 0 then Raise (ValueError "length argument must be non-negative")
  else if m <? 0 then Raise OverflowError
  else if 256 ^ size <=? m then Raise OverflowError
  else Ret (be_digits (Z.to_nat size) m).

(** [n.bit_length()] *)
Definition bit_length (n : Z) : Z :=
  if n =? 0 then 0 else Z.log2 (Z.abs n) + 1.

Fixpoint powmod_pos (b : Z) (e : positive) (m : Z) : Z :=
  match e with
  | xH => b mod m
  | xO e' => let h := powmod_pos b e' m in (h * h) mod m
  | xI e' => let h := powmod_pos b e' m in ((h * h) mod m * b) mod m
  end.

Definition powmod (b e m : Z) : Z :=
  match e with
  | Zpos p => powmod_pos b p m
  | _ => 1 mod m
  end.

(** The built-in [pow(b, e, m)]: a zero modulus is refused, a negative
    exponent goes through the inverse of the base. *)
Definition pow3 (b e m : Z) : outcome Z :=
  if m =? 0 then Raise (ValueError "pow() 3rd argument cannot be 0")
  else if e <? 0 then
    if Z.gcd b m =? 1 then Ret (powmod (Z.invmod b (Z.abs m)) (- e) m)
    else Raise (ValueError "base is not invertible for the given modulus")
  else Ret (powmod b e m).

(** [a % b] and [a // b] with their zero check. *)
Definition pymod (a b : Z) : outcome Z :=
  if b =? 0 then Raise ZeroDivisionError else Ret (a mod b).

(** [secrets.randbelow(n)] *)
Definition randbelow (n : Z) : Rand Z :=
  if n <=? 0 then rraise (ValueError "Upper bound must be positive.")
  else r <~ draw ;; rret (r mod n).

(** [secrets.randbits(k)] *)
Definition randbits (k : Z) : Rand Z :=
  if k <? 0 then rraise (ValueError "number of bits must be non-negative")
  else r <~ draw ;; rret (r mod 2 ^ k).

(** [struct.pack(">I", v)] *)
Definition struct_pack_I (v : Z) : outcome bytes :=
  if (0 <=? v) && (v <? 2 ^ 32) then Ret (be_digits 4 v)
  else Raise StructError.

(** [struct.unpack(">I", bs)] *)
Definition struct_unpack_I (bs : bytes) : outcome Z :=
  if len bs =? 4 then Ret (int_from_bytes bs) else Raise StructError.

(** [for _ in range(count)] as a number of iterations. *)
Definition range_count (count : Z) : nat := Z.to_nat count.

(** [range(start, stop, step)] for a positive [step]. *)
Definition range_step (start stop step : Z) : list Z :=
  map (fun j => start + Z.of_nat j * step)
      (seq 0 (Z.to_nat ((stop - start + step - 1) / step))).

End Py.

(** ** [rsa_block.py] *)

Module RsaBlock.
Import Py.

(** *** Math utils *)

(** [egcd] is recursive.  [stack] is the number of nested calls the
    interpreter's recursion limit still allows when [egcd] is entered; a
    call that finds none left raises [RecursionError]. *)
Fixpoint egcd (stack : nat) (a b : Z) : outcome (Z * Z * Z) :=
  match stack with
  | O => Raise RecursionError
  | S s =>
      if b =? 0 then Ret (a, 1, 0)
      else
        '(g, x, y) <- egcd s b (a mod b) ;;
        Ret (g, y, x - (a / b) * y)
  end.

(** On a divisor [b >= 0] the recursion of [egcd] is at most
    [2 * bit_length b] calls below the first one (lemma
    [egcd_deep_enough]). *)
Definition egcd_depth (b : Z) : nat := Z.to_nat (2 * bit_length b).

Definition modinv (stack : nat) (a m : Z) : outcome Z :=
  '(g, x, _) <- egcd stack a m ;;
  if negb (g =? 1) then Raise (ValueError "No modular inverse")
  else pymod x m.

Definition small_primes : list Z := [2; 3; 5; 7; 11; 13; 17; 19; 23; 29; 31; 37].

(** The loop over [small_primes]: [Some b] when its body returns [b]. *)
Fixpoint small_primes_loop (n : Z) (ps : list Z) : option bool :=
  match ps with
  | [] => None
  | p :: ps' =>
      if n =? p then Some true
      else if n mod p =? 0 then Some false
      else small_primes_loop n ps'
  end.

(** [while d % 2 == 0: d //= 2; s += 1]; [bit_length n] iterations are
    enough for [d = n - 1] (lemma [split_twos_returns]). *)
Fixpoint split_twos (fuel : nat) (d s : Z) : outcome (Z * Z) :=
  if d mod 2 =? 0 then
    match fuel with
    | O => OutOfFuel
    | S f => split_twos f (d / 2) (s + 1)
    end
  else Ret (d, s).

(** The [for _ in range(s - 1)] loop of the inner [check]. *)
Fixpoint check_loop (iters : nat) (x n : Z) : bool :=
  match iters with
  | O => false
  | S i =>
      let x := (x * x) mod n in
      if x =? n - 1 then true else check_loop i x n
  end.

Definition check (n d s a : Z) : outcome bool :=
  x <- pow3 a d n ;;
  if (x =? 1) || (x =? n - 1) then Ret true
  else Ret (check_loop (range_count (s - 1)) x n).

(** The [for _ in range(k)] loop over random bases. *)
Fixpoint rounds_loop (iters : nat) (n d s : Z) : Rand bool :=
  match iters with
  | O => rret true
  | S i =>
      r <~ randbelow (n - 3) ;;
      let a := r + 2 in
      ok <~ lift (check n d s a) ;;
      if negb ok then rret false else rounds_loop i n d s
  end.

Definition is_probable_prime (n k : Z) : Rand bool :=
  if n <? 2 then rret false
  else match small_primes_loop n small_primes with
       | Some b => rret b
       | None =>
           ds <~ lift (split_twos (Z.to_nat (bit_length n)) (n - 1) 0) ;;
           let '(d, s) := ds in
           rounds_loop (range_count k) n d s
       end.

(** [gen_prime]; [fuel] bounds the iterations of its [while True]. *)
Fixpoint gen_prime_loop (fuel : nat) (bits : Z) : Rand Z :=
  match fuel with
  | O => fun _ => OutOfFuel
  | S f =>
      r <~ randbits bits ;;
      let x := Z.lor (Z.lor r (Z.shiftl 1 (bits - 1))) 1 in
      ok <~ is_probable_prime x 20 ;;
      if ok then rret x else gen_prime_loop f bits
  end.

Definition gen_prime (fuel : nat) (bits : Z) : Rand Z :=
  if bits <? 16 then rraise (ValueError "bits too small")
  else gen_prime_loop fuel bits.

(** *** RSA keys *)

Record PublicKey : Type := mkPublicKey { pub_n : Z; pub_e : Z }.

Record PrivateKey : Type := mkPrivateKey { priv_n : Z; priv_d : Z }.

(** [generate_keypair]; [fuel] bounds the iterations of its [while True]
    and of the two [gen_prime] calls of each iteration, and [stack] is what
    the recursion limit leaves to [egcd]. *)
Fixpoint generate_keypair_loop (fuel pfuel stack : nat) (bits half e : Z)
  : Rand (PublicKey * PrivateKey) :=
  match fuel with
  | O => fun _ => OutOfFuel
  | S f =>
      p <~ gen_prime pfuel half ;;
      q <~ gen_prime pfuel (bits - half) ;;
      if p =? q then generate_keypair_loop f pfuel stack bits half e
      else
        let n := p * q in
        let phi := (p - 1) * (q - 1) in
        r <~ lift (pymod phi e) ;;
        if r =? 0 then generate_keypair_loop f pfuel stack bits half e
        else
          d <~ lift (modinv stack e phi) ;;
          rret (mkPublicKey n e, mkPrivateKey n d)
  end.

Definition generate_keypair (fuel stack : nat) (bits e : Z)
  : Rand (PublicKey * PrivateKey) :=
  let half := bits / 2 in
  generate_keypair_loop fuel fuel stack bits half e.

Definition rsa_encrypt_int (m : Z) (pub : PublicKey) : outcome Z :=
  if (m <? 0) || (pub_n pub <=? m) then Raise (ValueError "m out of range")
  else pow3 m (pub_e pub) (pub_n pub).

Definition rsa_decrypt_int (c : Z) (priv : PrivateKey) : outcome Z :=
  if (c <? 0) || (priv_n priv <=? c) then Raise (ValueError "c out of range")
  else pow3 c (priv_d priv) (priv_n priv).

(** *** Block modes *)

Definition _mod_bytes (n : Z) : Z := (bit_length n + 7) / 8.

Definition is_raw (mode : string) : bool :=
  ((mode =? "raw_fixed") || (mode =? "raw_len"))%string.

Definition is_rand (mode : string) : bool :=
  ((mode =? "rand_fixed") || (mode =? "rand_len"))%string.

Definition is_fixed (mode : string) : bool :=
  ((mode =? "raw_fixed") || (mode =? "rand_fixed"))%string.

Definition is_len (mode : string) : bool :=
  ((mode =? "raw_len") || (mode =? "rand_len"))%string.

(** The plaintext block of one chunk, before padding. *)
Definition chunk_block (rand : bool) (chunk : bytes) : Rand bytes :=
  let L := len chunk in
  if rand then
    r0 <~ randbelow 255 ;;
    let r := r0 + 1 in
    lb <~ lift (int_to_bytes L 2) ;;
    rb <~ lift (bytes_of_int r) ;;
    rret (lb ++ rb ++ chunk)
  else
    lb <~ lift (int_to_bytes L 2) ;;
    rret (lb ++ chunk).

(** [block += b"\x00" * (plain_block - len(block))] when it is short. *)
Definition pad_block (block : bytes) (plain_block : Z) : bytes :=
  if len block <? plain_block
  then block ++ repeat x00 (Z.to_nat (plain_block - len block))
  else block.

(** The body of the loop of [encrypt_bytes] once [chunk] is cut: the bytes
    it appends to [out]. *)
Definition encrypt_chunk (chunk : bytes) (pub : PublicKey) (mode : string)
    (k plain_block payload_cap : Z) (rand : bool) : Rand bytes :=
  let L := len chunk in
  if L >? payload_cap then rraise (ValueError "internal chunk overflow")
  else
    block <~ chunk_block rand chunk ;;
    let block := pad_block block plain_block in
    let m := int_from_bytes block in
    c <~ lift (rsa_encrypt_int m pub) ;;
    cbytes <~ lift (int_to_bytes c k) ;;
    if is_fixed mode then rret cbytes
    else
      pre <~ lift (int_to_bytes (len cbytes) 2) ;;
      rret (pre ++ cbytes).

(** The [while i < len(data)] loop of [encrypt_bytes]; every iteration
    consumes at least one byte, so [len(data)] iterations are enough
    (lemma [encrypt_bytes_total]). *)
Fixpoint encrypt_loop (fuel : nat) (data : bytes) (pub : PublicKey)
    (mode : string) (k plain_block payload_cap : Z) (rand : bool)
    (i : Z) (out : bytes) : Rand bytes :=
  if i <? len data then
    match fuel with
    | O => fun _ => OutOfFuel
    | S f =>
        let chunk := slice data i (i + payload_cap) in
        let i := i + len chunk in
        piece <~ encrypt_chunk chunk pub mode k plain_block payload_cap rand ;;
        encrypt_loop f data pub mode k plain_block payload_cap rand i
          (out ++ piece)
    end
  else rret out.

Definition encrypt_bytes (data : bytes) (pub : PublicKey) (mode : string)
  : Rand bytes :=
  let k := _mod_bytes (pub_n pub) in
  let plain_block := k - 1 in
  if plain_block <? 8 then rraise (ValueError "RSA modulus too small")
  else if is_raw mode then
    encrypt_loop (List.length data) data pub mode k plain_block
      (plain_block - 2) false 0 []
  else if is_rand mode then
    encrypt_loop (List.length data) data pub mode k plain_block
      (plain_block - 3) true 0 []
  else rraise (ValueError "bad mode").

(** [[data[i:i + k] for i in range(0, len(data), k)]] *)
Definition fixed_blocks (data : bytes) (k : Z) : list bytes :=
  map (fun i => slice data i (i + k)) (range_step 0 (len data) k).

(** The [while pos < len(data)] loop of the length-prefixed modes; every
    iteration advances [pos], so [len(data)] iterations are enough (lemma
    [decrypt_bytes_total]). *)
Fixpoint len_blocks_loop (fuel : nat) (data : bytes) (pos : Z)
    (blocks : list bytes) : outcome (list bytes) :=
  if pos <? len data then
    match fuel with
    | O => OutOfFuel
    | S f =>
        if pos + 2 >? len data then Raise (ValueError "bad cipher format")
        else
          let blen := int_from_bytes (slice data pos (pos + 2)) in
          let pos := pos + 2 in
          if pos + blen >? len data then Raise (ValueError "bad cipher format")
          else
            len_blocks_loop f data (pos + blen)
              (blocks ++ [slice data pos (pos + blen)])
    end
  else Ret blocks.

(** The framing half of [decrypt_bytes]: the list [blocks]. *)
Definition cipher_blocks (data : bytes) (k : Z) (mode : string)
  : outcome (list bytes) :=
  if is_fixed mode then
    r <- pymod (len data) k ;;
    if negb (r =? 0) then Raise (ValueError "cipher length not aligned")
    else Ret (fixed_blocks data k)
  else if is_len mode then len_blocks_loop (List.length data) data 0 []
  else Raise (ValueError "bad mode").

(** Where the payload starts in a plaintext block, and its capacity. *)
Definition start_cap (mode : string) (plain_block : Z) : Z * Z :=
  if is_rand mode then (3, plain_block - 3) else (2, plain_block - 2).

(** One cipher block back to its fixed-length plaintext block [p]. *)
Definition plain_of_block (b : bytes) (priv : PrivateKey) (plain_block : Z)
  : outcome bytes :=
  let c := int_from_bytes b in
  m <- rsa_decrypt_int c priv ;;
  int_to_bytes m plain_block.

(** The [for b in blocks] loop of [decrypt_bytes]. *)
Fixpoint decrypt_loop (blocks : list bytes) (priv : PrivateKey)
    (mode : string) (plain_block : Z) (out : bytes) : outcome bytes :=
  match blocks with
  | [] => Ret out
  | b :: rest =>
      p <- plain_of_block b priv plain_block ;;
      let L := int_from_bytes (slice p 0 2) in
      let '(start, cap) := start_cap mode plain_block in
      if (L <? 0) || (L >? cap) then Raise (ValueError "bad plaintext length")
      else decrypt_loop rest priv mode plain_block
             (out ++ slice p start (start + L))
  end.

Definition decrypt_bytes (data : bytes) (priv : PrivateKey) (mode : string)
  : outcome bytes :=
  let k := _mod_bytes (priv_n priv) in
  let plain_block := k - 1 in
  blocks <- cipher_blocks data k mode ;;
  decrypt_loop blocks priv mode plain_block [].

End RsaBlock.

(** ** Wire messages

    The structured values that travel in frames: JSON documents of the
    handshake and the pickled requests, responses and headers. *)

Inductive wire : Type :=
| WNone
| WBool (b : bool)
| WInt (z : Z)
| WStr (s : string)
| WBytes (bs : list byte)
| WList (items : list wire)
| WDict (fields : list (string * wire)).

Fixpoint dict_lookup (fields : list (string * wire)) (key : string)
  : option wire :=
  match fields with
  | [] => None
  | (k, v) :: rest => if String.eqb k key then Some v else dict_lookup rest key
  end.

(** [d.get(key)]: only a dict has the method. *)
Definition py_get (d : wire) (key : string) : outcome (option wire) :=
  match d with
  | WDict fields => Ret (dict_lookup fields key)
  | _ => Raise AttributeError
  end.

(** [d[key]] on a dict. *)
Definition py_item (d : wire) (key : string) : outcome wire :=
  match d with
  | WDict fields =>
      match dict_lookup fields key with
      | Some v => Ret v
      | None => Raise (KeyError key)
      end
  | _ => Raise (ExternalError "TypeError")
  end.

(** [v != "hello"] *)
Definition is_str (v : option wire) (s : string) : bool :=
  match v with
  | Some (WStr s') => String.eqb s' s
  | _ => false
  end.

(** An external call that returns or raises. *)
Definition of_sum {A} (r : A + exn) : outcome A :=
  match r with
  | inl a => Ret a
  | inr e => Raise e
  end.

(** A fragment of the pickle virtual machine, enough to read the streams
    used as concrete headers below: PROTO (up to [HIGHEST_PROTOCOL = 5]),
    EMPTY_DICT, EMPTY_LIST, NONE, NEWTRUE, NEWFALSE, BININT1, MEMOIZE and
    STOP.  On streams of these opcodes it returns what [pickle.loads]
    returns; any other opcode is outside the fragment and reported as an
    error. *)
Fixpoint pickle_run (bs : list byte) (stack : list wire) : wire + exn :=
  match bs with
  | [] => inr (ExternalError "EOFError")
  | op :: rest =>
      match op with
      | x80 => match rest with
               | proto :: rest' =>
                   if Z.of_N (Byte.to_N proto) <=? 5
                   then pickle_run rest' stack
                   else inr (ValueError
                              ("unsupported pickle protocol: "
                               ++ NilZero.string_of_uint
                                    (N.to_uint (Byte.to_N proto))))
               | [] => inr (ExternalError "EOFError")
               end
      | x7d => pickle_run rest (WDict [] :: stack)
      | x5d => pickle_run rest (WList [] :: stack)
      | x4e => pickle_run rest (WNone :: stack)
      | x88 => pickle_run rest (WBool true :: stack)
      | x89 => pickle_run rest (WBool false :: stack)
      | x4b => match rest with
               | b :: rest' =>
                   pickle_run rest' (WInt (Z.of_N (Byte.to_N b)) :: stack)
               | [] => inr (ExternalError "EOFError")
               end
      | x94 => pickle_run rest stack
      | x2e => match stack with
               | v :: _ => inl v
               | [] => inr (ExternalError "UnpicklingError")
               end
      | _ => inr (ExternalError "UnpicklingError")
      end
  end.

Definition pickle_loads_fragment (bs : list byte) : wire + exn :=
  pickle_run bs [].

(** ** [secure_protocol.py]: the binary packet *)

Module SecureProtocol.
Import Py.

Section Pickle.

(** [pickle.dumps(obj, protocol=pickle.HIGHEST_PROTOCOL)] and
    [pickle.loads]: the standard library's serializer, kept abstract. *)
Variable pickle_dumps : wire -> bytes + exn.
Variable pickle_loads : bytes -> wire + exn.

Definition pack_pickle_bin (header_obj : wire) (bin_data : bytes)
  : outcome bytes :=
  h <- of_sum (pickle_dumps header_obj) ;;
  hl <- struct_pack_I (len h) ;;
  bl <- struct_pack_I (len bin_data) ;;
  Ret (hl ++ h ++ bl ++ bin_data).

Definition unpack_pickle_bin (packet : bytes) : outcome (wire * bytes) :=
  let off := 0 in
  hlen <- struct_unpack_I (slice packet off (off + 4)) ;;
  let off := off + 4 in
  header <- of_sum (pickle_loads (slice packet off (off + hlen))) ;;
  let off := off + hlen in
  blen <- struct_unpack_I (slice packet off (off + 4)) ;;
  let off := off + 4 in
  let b := slice packet off (off + blen) in
  Ret (header, b).

End Pickle.

(** A packet whose header is the pickle of [{}] and whose payload length
    field declares 10 bytes where 2 remain; and a packet whose header length
    field declares 9 bytes where 5 remain. *)
Definition short_payload_packet : bytes :=
  [x00; x00; x00; x05] ++ [x80; x05; x7d; x94; x2e]
  ++ [x00; x00; x00; x0a] ++ [x41; x42].

Definition short_header_packet : bytes :=
  [x00; x00; x00; x09] ++ [x80; x05; x7d; x94; x2e].

(** The length a packet declares for its header. *)
Definition declared_hlen (packet : bytes) : Z :=
  int_from_bytes (slice packet 0 4).

(** The length a packet declares for its payload. *)
Definition declared_blen (packet : bytes) : Z :=
  int_from_bytes (slice packet (4 + declared_hlen packet)
                    (4 + declared_hlen packet + 4)).

End SecureProtocol.

(** ** The multi-file packet

    [_pack_multi_files] of [client/app/socket_client.py] and
    [_unpack_multi_files] of [server/app/main.py]. *)

Module MultiFiles.
Import Py.

(** The [for b in blobs] loop of the packer. *)
Fixpoint pack_loop (blobs : list bytes) (out : bytes) : outcome bytes :=
  match blobs with
  | [] => Ret out
  | b :: rest =>
      l <- struct_pack_I (len b) ;;
      pack_loop rest (out ++ l ++ b)
  end.

Definition _pack_multi_files (blobs : list bytes) : outcome bytes :=
  c <- struct_pack_I (len blobs) ;;
  pack_loop blobs ([] ++ c).

(** The [for _ in range(count)] loop of the unpacker. *)
Fixpoint unpack_loop (count : nat) (blob : bytes) (off : Z)
    (out : list bytes) : outcome (list bytes) :=
  match count with
  | O => Ret out
  | S c =>
      if off + 4 >? len blob then Raise (ValueError "bad files blob")
      else
        n <- struct_unpack_I (slice blob off (off + 4)) ;;
        let off := off + 4 in
        if off + n >? len blob then Raise (ValueError "bad files blob")
        else unpack_loop c blob (off + n) (out ++ [slice blob off (off + n)])
  end.

Definition _unpack_multi_files (blob : bytes) : outcome (list bytes) :=
  let off := 0 in
  if len blob <? 4 then Raise (ValueError "bad files blob")
  else
    count <- struct_unpack_I (slice blob off (off + 4)) ;;
    let off := off + 4 in
    unpack_loop (range_count count) blob off [].

(** Unpacking what packing produced. *)
Definition multi_roundtrip (blobs : list bytes) : outcome (list bytes) :=
  packet <- _pack_multi_files blobs ;;
  _unpack_multi_files packet.

(** A buffer whose length fits the 4-byte field. *)
Definition small (b : bytes) : Prop := len b < 2 ^ 32.

(** A buffer of 4 GiB. *)
Definition huge_blob : bytes := repeat x00 (Z.to_nat 4294967296).

(** The entries of a packet, after its count. *)
Definition entries (blobs : list bytes) : bytes :=
  List.concat (map (fun b => be_digits 4 (len b) ++ b) blobs).

End MultiFiles.

(** ** [server/app/main.py]: one accepted connection

    The body of the accept loop of [serve] and of [serve_upload], for one
    connection.  The socket is a record of what it will deliver and of which
    writes will fail; the trace lists what the handler did on it. *)

Module Server.
Import Py RsaBlock SecureProtocol.

Inductive event : Type :=
| SentPlain (obj : wire)
| SentEncrypted (enc : bytes)
| Decrypted (enc : bytes).

Record conn : Type := mkConn {
  first_frame : outcome wire;
  enc_frame : outcome bytes;
  send_fault : nat -> option exn;
  sends : nat;
  tape : rng;
  client_pub : option PublicKey;
  trace : list event
}.

Definition Conn (A : Type) : Type := conn -> outcome A * conn.

Definition cret {A} (a : A) : Conn A := fun s => (Ret a, s).

Definition cbind {A B} (m : Conn A) (f : A -> Conn B) : Conn B :=
  fun s => match m s with
           | (Ret a, s') => f a s'
           | (Raise e, s') => (Raise e, s')
           | (OutOfFuel, s') => (OutOfFuel, s')
           end.

Definition clift {A} (o : outcome A) : Conn A := fun s => (o, s).

(** [try: body except Exception as e: handler(e)]: an exception that is
    not an [Exception] passes through. *)
Definition try_except {A} (body : Conn A) (handler : exn -> Conn A) : Conn A :=
  fun s => match body s with
           | (Raise e, s') =>
               if is_Exception e then handler e s' else (Raise e, s')
           | r => r
           end.

Declare Scope conn_scope.
Delimit Scope conn_scope with conn.
Notation "x <-- m ;; k" := (cbind m (fun x => k))
  (at level 61, m at next level, right associativity) : conn_scope.
Notation "m ;;; k" := (cbind m (fun _ => k))
  (at level 61, right associativity) : conn_scope.
#[local] Open Scope conn_scope.

Definition set_client_pub (v : option PublicKey) : Conn unit :=
  fun s => (Ret tt,
            mkConn (first_frame s) (enc_frame s) (send_fault s) (sends s)
              (tape s) v (trace s)).

Definition get_client_pub : Conn (option PublicKey) :=
  fun s => (Ret (client_pub s), s).

(** [conn.sendall(...)]: the write is attempted, and may fail. *)
Definition sendall (ev : event) : Conn unit :=
  fun s =>
    let s' := mkConn (first_frame s) (enc_frame s) (send_fault s)
                (S (sends s)) (tape s) (client_pub s) (trace s ++ [ev]) in
    match send_fault s (sends s) with
    | Some e => (Raise e, s')
    | None => (Ret tt, s')
    end.

(** An entry of the trace that is not a write. *)
Definition log (ev : event) : Conn unit :=
  fun s => (Ret tt,
            mkConn (first_frame s) (enc_frame s) (send_fault s) (sends s)
              (tape s) (client_pub s) (trace s ++ [ev])).

(** A randomized computation run on the connection's tape. *)
Definition with_tape {A} (m : Rand A) : Conn A :=
  fun s => match m (tape s) with
           | Ret (a, g) =>
               (Ret a,
                mkConn (first_frame s) (enc_frame s) (send_fault s) (sends s)
                  g (client_pub s) (trace s))
           | Raise e => (Raise e, s)
           | OutOfFuel => (OutOfFuel, s)
           end.

(** [protocol.py]: a plaintext frame carries a JSON document; its
    serialization is not modelled. *)
Definition send_msg (obj : wire) : Conn unit := sendall (SentPlain obj).

Definition recv_msg : Conn wire := fun s => (first_frame s, s).

(** [str(e)]: the message of a [ValueError] is the one the code gave it,
    that of a [KeyError] is the quoted key; the texts of the other built-in
    exceptions are indicative. *)
Definition exn_str (e : exn) : string :=
  match e with
  | ValueError msg => msg
  | ZeroDivisionError => "integer modulo by zero"
  | OverflowError => "int too big to convert"
  | StructError => "unpack requires a buffer of 4 bytes"
  | AttributeError => "object has no attribute 'get'"
  | KeyError key => "'" ++ key ++ "'"
  | ConnectionError => "socket closed"
  | RecursionError => "maximum recursion depth exceeded"
  | ExternalError msg => msg
  | SystemExit => ""
  | KeyboardInterrupt => ""
  end.

Definition truthy (v : option wire) : bool :=
  match v with
  | None | Some WNone => false
  | Some (WBool b) => b
  | Some (WInt z) => negb (z =? 0)
  | Some (WStr s) => negb (String.eqb s "")
  | Some (WBytes bs) => negb (len bs =? 0)
  | Some (WList l) => negb (len l =? 0)
  | Some (WDict d) => negb (len d =? 0)
  end.

Definition expected_hello : wire :=
  WDict [("ok", WBool false); ("error", WStr "expected hello")]%string.

Definition error_reply (e : exn) : wire :=
  WDict [("ok", WBool false); ("error", WStr (exn_str e))]%string.

Section Process.

(** The process-wide [CRYPTO] context. *)
Variables (crypto_pub : PublicKey) (crypto_priv : PrivateKey)
          (crypto_mode : string).

(** External to this layer: the pickle serializer, [int(...)] on a JSON
    string, the request dispatcher [handle] and the part of [serve_upload]
    that follows the reception of the upload. *)
Variable pickle_dumps : wire -> bytes + exn.
Variable pickle_loads : bytes -> wire + exn.
Variable int_of_str : string -> Z + exn.
Variable handle : wire -> outcome wire.
Variable upload_body : wire -> bytes -> PublicKey -> Conn unit.

(** [crypto_ctx.py] *)
Definition pub_to_json (pub : PublicKey) : wire :=
  WDict [("n", WStr (NilZero.string_of_int (Z.to_int (pub_n pub))));
         ("e", WInt (pub_e pub))]%string.

Definition py_int (v : wire) : outcome Z :=
  match v with
  | WInt z => Ret z
  | WBool b => Ret (if b then 1 else 0)
  | WStr s => of_sum (int_of_str s)
  | _ => Raise (ExternalError "TypeError")
  end.

Definition pub_from_json (d : wire) : outcome PublicKey :=
  vn <- py_item d "n" ;;
  n <- py_int vn ;;
  ve <- py_item d "e" ;;
  e <- py_int ve ;;
  Ret (mkPublicKey n e).

Definition hello_ack : wire :=
  WDict [("ok", WBool true); ("type", WStr "hello_ack");
         ("pub", pub_to_json crypto_pub)]%string.

(** [secure_protocol.py] on the connection. *)
Definition send_frame (plain : bytes) (peer_pub : PublicKey) : Conn unit :=
  enc <-- with_tape (encrypt_bytes plain peer_pub crypto_mode) ;;
  _ <-- clift (struct_pack_I (len enc)) ;;
  sendall (SentEncrypted enc).

Definition send_encrypted (obj : wire) (peer_pub : PublicKey) : Conn unit :=
  plain <-- clift (of_sum (pickle_dumps obj)) ;;
  send_frame plain peer_pub.

Definition send_encrypted_bin (header_obj : wire) (bin_data : wire)
    (peer_pub : PublicKey) : Conn unit :=
  match bin_data with
  | WBytes data =>
      packet <-- clift (pack_pickle_bin pickle_dumps header_obj data) ;;
      send_frame packet peer_pub
  | _ => clift (Raise (ExternalError "TypeError"))
  end.

(** The received frame is handed to [decrypt_bytes]. *)
Definition recv_frame : Conn bytes :=
  enc <-- (fun s => (enc_frame s, s)) ;;
  log (Decrypted enc) ;;;
  clift (decrypt_bytes enc crypto_priv crypto_mode).

Definition recv_encrypted : Conn wire :=
  plain <-- recv_frame ;;
  clift (of_sum (pickle_loads plain)).

Definition recv_encrypted_bin : Conn (wire * bytes) :=
  packet <-- recv_frame ;;
  clift (unpack_pickle_bin pickle_loads packet).

(** The [except Exception as e] clause shared by the two listeners. *)
Definition report_error (e : exn) : Conn unit :=
  let err := error_reply e in
  try_except
    (cp <-- get_client_pub ;;
     match cp with
     | Some peer => send_encrypted err peer
     | None => send_msg err
     end)
    (fun _ => cret tt).

(** The handshake both listeners start with; [after] is what follows the
    acknowledgement. *)
Definition handshake (after : PublicKey -> Conn unit) : Conn unit :=
  hello <-- recv_msg ;;
  t <-- clift (py_get hello "type") ;;
  if negb (is_str t "hello") then send_msg expected_hello
  else
    pk <-- clift (py_item hello "pub") ;;
    peer <-- clift (pub_from_json pk) ;;
    set_client_pub (Some peer) ;;;
    send_msg hello_ack ;;;
    after peer.

(** One connection of [serve]. *)
Definition serve_conn : Conn unit :=
  set_client_pub None ;;;
  try_except
    (handshake (fun peer =>
       req <-- recv_encrypted ;;
       resp <-- clift (handle req) ;;
       match resp with
       | WDict fields =>
           if truthy (dict_lookup fields "__bin__") then
             h <-- clift (py_item resp "header") ;;
             b <-- clift (py_item resp "bin") ;;
             send_encrypted_bin h b peer
           else send_encrypted resp peer
       | _ => send_encrypted resp peer
       end))
    report_error.

(** One connection of [serve_upload]. *)
Definition serve_upload_conn : Conn unit :=
  set_client_pub None ;;;
  try_except
    (handshake (fun peer =>
       hd <-- recv_encrypted_bin ;;
       upload_body (fst hd) (snd hd) peer))
    report_error.

End Process.

(** A connection whose first frame is [{"type": "ping"}], on a socket whose
    writes succeed. *)
Definition ping_conn : conn :=
  mkConn (Ret (WDict [("type", WStr "ping")]%string))
    (Raise ConnectionError) (fun _ => None) 0 (tape_of []) None [].

(** Stand-ins for the external parts, for concrete runs. *)
Definition no_pickle : wire -> bytes + exn :=
  fun _ => inr (ExternalError "PicklingError").
Definition no_int : string -> Z + exn :=
  fun _ => inr (ValueError "invalid literal for int()").
Definition pong_handle : wire -> outcome wire :=
  fun _ => Ret (WDict [("ok", WBool true); ("type", WStr "pong")]%string).
Definition no_upload : wire -> bytes -> PublicKey -> Conn unit :=
  fun _ _ _ => cret tt.

(** No event of a trace is a decryption. *)
Definition no_decrypt (evs : list event) : Prop :=
  Forall (fun ev => match ev with Decrypted _ => False | _ => True end) evs.

End Server.

(** ** Auxiliary definitions for the statements below *)

Module RsaAux.
Import Py RsaBlock.

(** A primality test by trial division, to exhibit concrete keys. *)
Fixpoint no_divisor_upto (n : Z) (c : nat) (d : Z) : bool :=
  match c with
  | O => true
  | S c' => negb (n mod d =? 0) && no_divisor_upto n c' (d + 1)
  end.

Definition trial_prime (n : Z) : bool :=
  (1 <? n) && no_divisor_upto n (Z.to_nat (Z.sqrt n - 1)) 2.

(** The four modes of the codec. *)
Definition modes : list string :=
  ["raw_fixed"; "raw_len"; "rand_fixed"; "rand_len"]%string.

(** Payload capacity of a plaintext block. *)
Definition payload_cap (mode : string) (plain_block : Z) : Z :=
  if is_raw mode then plain_block - 2 else plain_block - 3.

(** The nonce byte a chunk receives from the tape, and the tape after it. *)
Definition nonce (rand : bool) (g : rng) : bytes :=
  if rand then [byte_of_Z (g 0%nat mod 255 + 1)] else [].

Definition after_nonce (rand : bool) (g : rng) : rng :=
  if rand then (fun i => g (S i)) else g.

(** The padded plaintext block of a chunk. *)
Definition plain_of_chunk (rand : bool) (g : rng) (chunk : bytes)
    (plain_block : Z) : bytes :=
  pad_block (be_digits 2 (len chunk) ++ nonce rand g ++ chunk) plain_block.

(** The cipher block of a plaintext block. *)
Definition cipher_of_plain (blk : bytes) (pub : PublicKey) (k : Z) : bytes :=
  be_digits (Z.to_nat k) (int_from_bytes blk ^ pub_e pub mod pub_n pub).

(** A cipher block as the mode lays it on the wire. *)
Definition frame (mode : string) (k : Z) (cb : bytes) : bytes :=
  if is_fixed mode then cb else be_digits 2 k ++ cb.

(** A key pair over two distinct primes with matching exponents. *)
Definition rsa_pair (p q : Z) (pub : PublicKey) (priv : PrivateKey) : Prop :=
  Z.prime p /\ Z.prime q /\ p <> q /\
  pub_n pub = p * q /\ priv_n priv = p * q /\
  0 < pub_e pub /\ 0 <= priv_d priv /\
  (pub_e pub * priv_d priv) mod ((p - 1) * (q - 1)) = 1.

(** A randomized computation that neither reads nor advances the tape. *)
Definition tape_free {A} (m : Rand A) : Prop :=
  forall g1 g2,
    match m g1, m g2 with
    | Ret (a1, h1), Ret (a2, h2) => a1 = a2 /\ h1 = g1 /\ h2 = g2
    | Raise e1, Raise e2 => e1 = e2
    | OutOfFuel, OutOfFuel => True
    | _, _ => False
    end.

(** A randomized computation that is never cut for lack of fuel. *)
Definition terminates {A} (m : Rand A) : Prop :=
  forall g, m g <> OutOfFuel.

(** The result of a randomized computation without the tape it leaves. *)
Definition result {A} (o : outcome (A * rng)) : outcome A :=
  match o with
  | Ret (a, _) => Ret a
  | Raise e => Raise e
  | OutOfFuel => OutOfFuel
  end.

(** Concrete keys: a 67-bit pair, and the pair [generate_keypair] builds
    for [bits = 32] from the tape [tape32]. *)
Definition demo_p : Z := 8589934609.
Definition demo_q : Z := 8589934621.
Definition demo_pub : PublicKey := mkPublicKey (demo_p * demo_q) 65537.
Definition demo_priv : PrivateKey :=
  mkPrivateKey (demo_p * demo_q) 31837711923849219713.
Definition demo_data : bytes := [x68; x65; x6c; x6c; x6f; x00; xff; x00; x00; x21; x0a].

Definition tape32 : rng := tape_of (32771 :: repeat 0 20 ++ [32779]).
Definition pub32 : PublicKey := mkPublicKey 1074200609 65537.
Definition priv32 : PrivateKey := mkPrivateKey 1074200609 489955193.

(** A cipher block under [pub32] whose plaintext [00 02 00] declares 2
    payload bytes, one more than the raw modes allow under a 4-byte
    modulus. *)
Definition oversize_cipher32 : bytes :=
  be_digits 4
    (powmod (int_from_bytes [x00; x02; x00]) (pub_e pub32) (pub_n pub32)).

(** A tape that offers 32771 for both primes, twice over, before 32771 and
    32779. *)
Definition tape_twice : rng :=
  tape_of (32771 :: repeat 0 20 ++ 32771 :: repeat 0 20
           ++ 32771 :: repeat 0 20 ++ [32779]).

(** One round of the loop of [generate_keypair] that ends in [continue]:
    the two numbers [gen_prime] draws from [g] are equal, or
    [(p-1)*(q-1)] is divisible by [e]; [g'] is the tape the round
    leaves. *)
Definition rejected (pfuel : nat) (bits half e : Z) (g g' : rng) : Prop :=
  exists p q g1,
    gen_prime pfuel half g = Ret (p, g1) /\
    gen_prime pfuel (bits - half) g1 = Ret (q, g') /\
    (p = q \/ (e <> 0 /\ ((p - 1) * (q - 1)) mod e = 0)).

(** [g'] is the tape [g] after some rounds, every one of them rejected. *)
Inductive redrawn (pfuel : nat) (bits half e : Z) : rng -> rng -> Prop :=
| redrawn_none (g : rng) : redrawn pfuel bits half e g g
| redrawn_more (g g1 g' : rng) :
    rejected pfuel bits half e g g1 ->
    redrawn pfuel bits half e g1 g' ->
    redrawn pfuel bits half e g g'.

(** A modulus of 65539 bytes. *)
Definition wide_pub : PublicKey := mkPublicKey (2 ^ 524304) 65537.

(** [decrypt_bytes(encrypt_bytes(data, pub, mode), priv, mode)] *)
Definition roundtrip (data : bytes) (pub : PublicKey) (priv : PrivateKey)
    (mode : string) (g : rng) : outcome bytes :=
  match encrypt_bytes data pub mode g with
  | Ret (c, _) => decrypt_bytes c priv mode
  | Raise e => Raise e
  | OutOfFuel => OutOfFuel
  end.

End RsaAux.

(** ** Further concrete data for the statements below *)

Module MoreAux.
Import Py RsaBlock.

(** The pair [generate_keypair] builds for [bits = 66] from [tape66]. *)
Definition tape66 : rng :=
  tape_of (4294967311 :: repeat 0 20 ++ [4294967357]).
Definition pub66 : PublicKey := mkPublicKey 18446744400127067027 65537.
Definition priv66 : PrivateKey :=
  mkPrivateKey 18446744400127067027 161282703455311913.

(** Fibonacci numbers, the slowest inputs of Euclid's algorithm. *)
Fixpoint fib_pair (n : nat) : Z * Z :=
  match n with
  | O => (0, 1)
  | S k => let '(a, b) := fib_pair k in (b, a + b)
  end.

Definition fib (n : nat) : Z := fst (fib_pair n).

(** Cipher blocks of any widths as the length-prefixed modes lay them on
    the wire. *)
Definition len_frames (blocks : list bytes) : bytes :=
  List.concat (map (fun b => be_digits 2 (len b) ++ b) blocks).

(** The number of chunks of [cap] bytes that [size] bytes are cut into. *)
Definition chunk_count (size cap : Z) : Z := (size + cap - 1) / cap.

(** The bytes one cipher block takes on the wire. *)
Definition frame_len (mode : string) (k : Z) : Z :=
  if is_fixed mode then k else k + 2.

End MoreAux.

(** ** The transport over a byte stream

    [protocol.py] and [secure_protocol.py] over a socket seen as the bytes
    still to arrive and the bytes written so far.  The listeners of module
    [Server] take whole frames from their connection; here the frames are
    cut out of the stream as [recv_exact] does it. *)

Module Wire.
Import Py RsaBlock SecureProtocol.

(** A connected socket: [incoming] is what the peer has written and is
    still unread (the peer closes after it), [cuts] gives the size the
    [i]-th [recv] finds ready, [outgoing] is what has been written, and
    [entropy] is the tape the random draws come from.  Writes succeed. *)
Record sock : Type := mkSock {
  incoming : bytes;
  cuts : nat -> Z;
  reads : nat;
  outgoing : bytes;
  entropy : rng
}.

Definition Sock (A : Type) : Type := sock -> outcome A * sock.

Definition sret {A} (a : A) : Sock A := fun s => (Ret a, s).

Definition sbind {A B} (m : Sock A) (f : A -> Sock B) : Sock B :=
  fun s => match m s with
           | (Ret a, s') => f a s'
           | (Raise e, s') => (Raise e, s')
           | (OutOfFuel, s') => (OutOfFuel, s')
           end.

Definition slift {A} (o : outcome A) : Sock A := fun s => (o, s).

Declare Scope sock_scope.
Delimit Scope sock_scope with sock.
Notation "x <-- m ;; k" := (sbind m (fun x => k))
  (at level 61, m at next level, right associativity) : sock_scope.
#[local] Open Scope sock_scope.

(** [conn.recv(bufsize)] with [bufsize > 0]: between one and [bufsize] of
    the bytes to arrive, or [b""] once the peer has closed. *)
Definition recv (bufsize : Z) : Sock bytes :=
  fun s =>
    let m := Z.min bufsize (Z.max 1 (cuts s (reads s))) in
    (Ret (slice (incoming s) 0 m),
     mkSock (skipn (Z.to_nat m) (incoming s)) (cuts s) (S (reads s))
       (outgoing s) (entropy s)).

(** [conn.sendall(data)] *)
Definition sendall (data : bytes) : Sock unit :=
  fun s =>
    (Ret tt,
     mkSock (incoming s) (cuts s) (reads s) (outgoing s ++ data) (entropy s)).

(** A randomized computation run on the socket owner's tape. *)
Definition with_entropy {A} (m : Rand A) : Sock A :=
  fun s => match m (entropy s) with
           | Ret (a, g) =>
               (Ret a,
                mkSock (incoming s) (cuts s) (reads s) (outgoing s) g)
           | Raise e => (Raise e, s)
           | OutOfFuel => (OutOfFuel, s)
           end.

(** The [while len(data) < n] loop of [recv_exact]; every iteration that
    does not raise adds at least one byte, so [n] iterations are enough. *)
Fixpoint recv_exact_loop (fuel : nat) (n : Z) (data : bytes) : Sock bytes :=
  if len data <? n then
    match fuel with
    | O => slift OutOfFuel
    | S f =>
        chunk <-- recv (n - len data) ;;
        if len chunk =? 0 then slift (Raise ConnectionError)
        else recv_exact_loop f n (data ++ chunk)
    end
  else sret data.

Definition recv_exact (n : Z) : Sock bytes :=
  recv_exact_loop (Z.to_nat n) n [].

Section Codecs.

(** [orjson.dumps], [orjson.loads], [pickle.dumps] and [pickle.loads]:
    library serializers, kept abstract. *)
Variable json_dumps : wire -> bytes + exn.
Variable json_loads : bytes -> wire + exn.
Variable pickle_dumps : wire -> bytes + exn.
Variable pickle_loads : bytes -> wire + exn.

(** [protocol.py] *)
Definition send_msg (obj : wire) : Sock unit :=
  payload <-- slift (of_sum (json_dumps obj)) ;;
  header <-- slift (struct_pack_I (len payload)) ;;
  sendall (header ++ payload).

Definition recv_msg : Sock wire :=
  header <-- recv_exact 4 ;;
  length <-- slift (struct_unpack_I header) ;;
  payload <-- recv_exact length ;;
  slift (of_sum (json_loads payload)).

(** [secure_protocol.py] *)
Definition send_encrypted (obj : wire) (peer_pub : PublicKey)
    (mode : string) : Sock unit :=
  plain <-- slift (of_sum (pickle_dumps obj)) ;;
  enc <-- with_entropy (encrypt_bytes plain peer_pub mode) ;;
  header <-- slift (struct_pack_I (len enc)) ;;
  sendall (header ++ enc).

Definition recv_encrypted (my_priv : PrivateKey) (mode : string)
  : Sock wire :=
  header <-- recv_exact 4 ;;
  length <-- slift (struct_unpack_I header) ;;
  enc <-- recv_exact length ;;
  plain <-- slift (decrypt_bytes enc my_priv mode) ;;
  slift (of_sum (pickle_loads plain)).

Definition send_encrypted_bin (header_obj : wire) (bin_data : bytes)
    (peer_pub : PublicKey) (mode : string) : Sock unit :=
  packet <-- slift (pack_pickle_bin pickle_dumps header_obj bin_data) ;;
  enc <-- with_entropy (encrypt_bytes packet peer_pub mode) ;;
  header <-- slift (struct_pack_I (len enc)) ;;
  sendall (header ++ enc).

Definition recv_encrypted_bin (my_priv : PrivateKey) (mode : string)
  : Sock (wire * bytes) :=
  header <-- recv_exact 4 ;;
  length <-- slift (struct_unpack_I header) ;;
  enc <-- recv_exact length ;;
  packet <-- slift (decrypt_bytes enc my_priv mode) ;;
  slift (unpack_pickle_bin pickle_loads packet).

End Codecs.

(** The socket [s'] is [s] after [taken] bytes were read off its stream. *)
Definition delivered (s s' : sock) (taken : Z) : Prop :=
  incoming s' = skipn (Z.to_nat taken) (incoming s) /\
  outgoing s' = outgoing s /\ entropy s' = entropy s.

(** What was written to the socket between [s] and [s']. *)
Definition written (s s' : sock) : bytes :=
  skipn (List.length (outgoing s)) (outgoing s').

(** Stand-ins for the serializers, for concrete runs: byte strings stand
    for themselves. *)
Definition bytes_dumps : wire -> bytes + exn :=
  fun w => match w with
           | WBytes b => inl b
           | _ => inr (ExternalError "TypeError")
           end.
Definition bytes_loads : bytes -> wire + exn := fun b => inl (WBytes b).

(** A socket with [data] to arrive, handed over [step] bytes at a time. *)
Definition sock_of (data : bytes) (step : Z) (g : rng) : sock :=
  mkSock data (fun _ => step) 0 [] g.

End Wire.

(** ** What a connection handler leaves on the wire *)

Module Session.
Import Py RsaBlock Server RsaAux.

(** An event is plaintext, or it involves the cipher. *)
Definition is_plain (ev : event) : Prop :=
  match ev with SentPlain _ => True | _ => False end.

Definition is_secret (ev : event) : Prop :=
  match ev with SentPlain _ => False | _ => True end.

(** A step of a handler that leaves the known peer key alone and adds to
    the trace only events that satisfy [P]. *)
Definition effect {A} (P : event -> Prop) (m : Conn A) : Prop :=
  forall s,
    client_pub (snd (m s)) = client_pub s /\
    exists evs, trace (snd (m s)) = trace s ++ evs /\ Forall P evs.


(** A client that says hello with [demo_pub] and then sends an encrypted
    request. *)
Definition demo_hello : wire :=
  WDict [("type", WStr "hello");
         ("pub", WDict [("n", WInt (pub_n demo_pub));
                        ("e", WInt (pub_e demo_pub))])]%string.

Definition demo_request : bytes :=
  match encrypt_bytes demo_data demo_pub "raw_fixed" (tape_of []) with
  | Ret (c, _) => c
  | _ => []
  end.

Definition demo_conn : conn :=
  mkConn (Ret demo_hello) (Ret demo_request) (fun _ => None) 0 (tape_of [])
    None [].

(** [int] on a decimal string. *)
Definition dec_int : string -> Z + exn :=
  fun s => match NilZero.int_of_string s with
           | Some d => inl (Z.of_int d)
           | None => inr (ValueError "invalid literal for int()")
           end.

(** A serializer whose every output is the bytes [pong]. *)
Definition pong_dumps : wire -> bytes + exn :=
  fun _ => inl [x70; x6f; x6e; x67].

End Session.

(** * Facts about the Python primitives *)

Module PyFacts.
Import Py.

Lemma len_nonneg {A} (l : list A) : 0 <= len l.
Proof. unfold len. lia. Qed.

Lemma len_app {A} (a b : list A) : len (a ++ b) = len a + len b.
Proof. unfold len. rewrite length_app. lia. Qed.

Lemma len_repeat {A} (x : A) (c : nat) : len (repeat x c) = Z.of_nat c.
Proof. unfold len. now rewrite repeat_length. Qed.

Lemma Z_of_byte_range (b : byte) : 0 <= Z_of_byte b < 256.
Proof.
  unfold Z_of_byte. pose proof (Byte.to_N_bounded b) as H. lia.
Qed.

Lemma byte_of_Z_of_byte (b : byte) : byte_of_Z (Z_of_byte b) = b.
Proof.
  unfold byte_of_Z, Z_of_byte. rewrite N2Z.id, Byte.of_to_N. reflexivity.
Qed.

Lemma Z_of_byte_of_Z (z : Z) : 0 <= z < 256 -> Z_of_byte (byte_of_Z z) = z.
Proof.
  intros Hz. unfold byte_of_Z, Z_of_byte.
  destruct (Byte.of_N (Z.to_N z)) as [b|] eqn:E.
  - apply Byte.to_of_N in E. rewrite E. lia.
  - apply Byte.of_N_None_iff in E. lia.
Qed.

(** *** Big-endian integers *)

Lemma len_cons {A} (x : A) (l : list A) : len (x :: l) = Z.succ (len l).
Proof. unfold len. cbn [List.length]. lia. Qed.

Lemma fold_be_acc (bs : bytes) (acc : Z) :
  fold_left (fun a b => a * 256 + Z_of_byte b) bs acc
  = acc * 256 ^ len bs + int_from_bytes bs.
Proof.
  unfold int_from_bytes. revert acc.
  induction bs as [|b bs IH]; intros acc; cbn [fold_left].
  - change (len (@nil byte)) with 0. rewrite Z.pow_0_r. lia.
  - rewrite IH. rewrite (IH (0 * 256 + Z_of_byte b)).
    rewrite len_cons, Z.pow_succ_r by apply len_nonneg. ring.
Qed.

Lemma int_from_bytes_app (a b : bytes) :
  int_from_bytes (a ++ b) = int_from_bytes a * 256 ^ len b + int_from_bytes b.
Proof.
  unfold int_from_bytes at 1. rewrite fold_left_app.
  fold (int_from_bytes a). apply fold_be_acc.
Qed.

Lemma int_from_bytes_single (b : byte) : int_from_bytes [b] = Z_of_byte b.
Proof. unfold int_from_bytes. simpl. lia. Qed.

Lemma int_from_bytes_range (bs : bytes) :
  0 <= int_from_bytes bs < 256 ^ len bs.
Proof.
  induction bs as [|b bs IH] using rev_ind.
  - unfold int_from_bytes, len. simpl. lia.
  - rewrite int_from_bytes_app, int_from_bytes_single, len_app.
    change (len [b]) with 1. rewrite Z.pow_1_r.
    rewrite Z.pow_add_r by (try apply len_nonneg; lia). rewrite Z.pow_1_r.
    pose proof (Z_of_byte_range b). nia.
Qed.

Lemma int_from_bytes_zeros (c : nat) : int_from_bytes (repeat x00 c) = 0.
Proof.
  induction c as [|c IH].
  - reflexivity.
  - change (repeat x00 (S c)) with ([x00] ++ repeat x00 c).
    rewrite int_from_bytes_app, IH. reflexivity.
Qed.

Lemma be_digits_length (c : nat) (m : Z) : List.length (be_digits c m) = c.
Proof.
  revert m. induction c as [|c IH]; intros m; simpl.
  - reflexivity.
  - rewrite length_app, IH. simpl. lia.
Qed.

Lemma len_be_digits (c : nat) (m : Z) : len (be_digits c m) = Z.of_nat c.
Proof. unfold len. now rewrite be_digits_length. Qed.

Lemma int_from_bytes_be_digits (c : nat) (m : Z) :
  0 <= m < 256 ^ Z.of_nat c -> int_from_bytes (be_digits c m) = m.
Proof.
  revert m. induction c as [|c IH]; intros m Hm.
  - simpl in *. unfold int_from_bytes. simpl. lia.
  - simpl be_digits. rewrite int_from_bytes_app, int_from_bytes_single.
    change (len [byte_of_Z (m mod 256)]) with 1. rewrite Z.pow_1_r.
    rewrite Nat2Z.inj_succ, Z.pow_succ_r in Hm by lia.
    rewrite IH.
    + rewrite Z_of_byte_of_Z by (apply Z.mod_pos_bound; lia).
      pose proof (Z.div_mod m 256). lia.
    + split.
      * apply Z.div_pos; lia.
      * apply Z.div_lt_upper_bound; lia.
Qed.

Lemma be_digits_int_from_bytes (bs : bytes) :
  be_digits (List.length bs) (int_from_bytes bs) = bs.
Proof.
  induction bs as [|b bs IH] using rev_ind.
  - reflexivity.
  - rewrite length_app. simpl List.length.
    replace (List.length bs + 1)%nat with (S (List.length bs)) by lia.
    simpl be_digits.
    rewrite int_from_bytes_app, int_from_bytes_single.
    change (len [b]) with 1. rewrite Z.pow_1_r.
    pose proof (Z_of_byte_range b) as Hb.
    rewrite Z.div_add_l by lia. rewrite Z.div_small by lia.
    rewrite Z.add_0_r, IH.
    rewrite Z.add_comm, Z.mod_add by lia.
    rewrite Z.mod_small by lia.
    now rewrite byte_of_Z_of_byte.
Qed.

(** *** Slices *)

Lemma slice_app_mid {A} (pre x post : list A) :
  slice (pre ++ x ++ post) (len pre) (len pre + len x) = x.
Proof.
  unfold slice, len. rewrite Nat2Z.id.
  rewrite skipn_app, skipn_all, Nat.sub_diag. simpl.
  replace (Z.to_nat _) with (List.length x) by lia.
  rewrite firstn_app, firstn_all, Nat.sub_diag. simpl. apply app_nil_r.
Qed.

Lemma slice_prefix {A} (x post : list A) : slice (x ++ post) 0 (len x) = x.
Proof. apply (slice_app_mid [] x post). Qed.

(** *** Modular exponentiation *)

Lemma powmod_pos_spec (b : Z) (e : positive) (m : Z) :
  powmod_pos b e m = b ^ Z.pos e mod m.
Proof.
  induction e as [e IH|e IH|]; simpl powmod_pos.
  - rewrite IH, Pos2Z.inj_xI.
    rewrite Z.pow_add_r, Z.pow_1_r by lia.
    replace (2 * Z.pos e) with (Z.pos e + Z.pos e) by lia.
    rewrite Z.pow_add_r by lia.
    rewrite <- Zmult_mod. rewrite Zmult_mod_idemp_l. reflexivity.
  - rewrite IH, Pos2Z.inj_xO.
    replace (2 * Z.pos e) with (Z.pos e + Z.pos e) by lia.
    rewrite Z.pow_add_r by lia. now rewrite <- Zmult_mod.
  - now rewrite Z.pow_1_r.
Qed.

Lemma powmod_spec (b e m : Z) : 0 <= e -> powmod b e m = b ^ e mod m.
Proof.
  intros He. destruct e as [|e|e]; [reflexivity|apply powmod_pos_spec|lia].
Qed.

Lemma pow3_nonneg (b e m : Z) :
  0 <= e -> m <> 0 -> pow3 b e m = Ret (b ^ e mod m).
Proof.
  intros He Hm. unfold pow3.
  destruct (Z.eqb_spec m 0); [contradiction|].
  destruct (Z.ltb_spec e 0); [lia|].
  now rewrite powmod_spec.
Qed.

(** *** Bit lengths *)

Lemma bit_length_bounds (n : Z) :
  0 < n -> 2 ^ (bit_length n - 1) <= n < 2 ^ bit_length n.
Proof.
  intros Hn. unfold bit_length.
  destruct (Z.eqb_spec n 0); [lia|].
  rewrite Z.abs_eq by lia.
  replace (Z.log2 n + 1 - 1) with (Z.log2 n) by lia.
  replace (Z.log2 n + 1) with (Z.succ (Z.log2 n)) by lia.
  apply Z.log2_spec. assumption.
Qed.

Lemma bit_length_pos (n : Z) : 0 < n -> 0 < bit_length n.
Proof.
  intros Hn. unfold bit_length.
  destruct (Z.eqb_spec n 0); [lia|].
  pose proof (Z.log2_nonneg (Z.abs n)). lia.
Qed.

Lemma pow256 (x : Z) : 0 <= x -> 256 ^ x = 2 ^ (8 * x).
Proof.
  intros Hx. change 256 with (2 ^ 8). now rewrite <- Z.pow_mul_r by lia.
Qed.

End PyFacts.

(** * Facts about [rsa_block.py] *)

Module RsaFacts.
Import Py PyFacts RsaBlock RsaAux.

(** *** Inversion of the two monads *)

Lemma bind_ret_inv {A B} (m : outcome A) (f : A -> outcome B) (b : B) :
  bind m f = Ret b -> exists a, m = Ret a /\ f a = Ret b.
Proof.
  destruct m as [a|e|]; simpl; intros H; try discriminate. now exists a.
Qed.

Lemma rbind_ret_inv {A B} (m : Rand A) (f : A -> Rand B) g b g' :
  rbind m f g = Ret (b, g') ->
  exists a g1, m g = Ret (a, g1) /\ f a g1 = Ret (b, g').
Proof.
  unfold rbind. destruct (m g) as [[a g1]|e|]; intros H; try discriminate.
  now exists a, g1.
Qed.

Lemma lift_ret_inv {A} (o : outcome A) g a g' :
  lift o g = Ret (a, g') -> o = Ret a /\ g' = g.
Proof.
  unfold lift. destruct o; intros H; inversion H; subst; auto.
Qed.

(** *** Extended Euclid and the modular inverse *)

Lemma egcd_bezout (stack : nat) :
  forall a b g x y, egcd stack a b = Ret (g, x, y) -> a * x + b * y = g.
Proof.
  induction stack as [|f IH]; intros a b g x y H; simpl in H;
    [discriminate|].
  destruct (Z.eqb_spec b 0) as [Hb|Hb].
  - inversion H; subst. ring.
  - apply bind_ret_inv in H. destruct H as [[[g1 x1] y1] [H1 H2]].
    inversion H2; subst. apply IH in H1.
    pose proof (Z.div_mod a b Hb). nia.
Qed.

(** The only exception of [egcd] is the one of the recursion limit. *)
Lemma egcd_outcome (stack : nat) :
  forall a b,
  match egcd stack a b with
  | Ret _ => True
  | Raise e => e = RecursionError
  | OutOfFuel => False
  end.
Proof.
  induction stack as [|f IH]; intros a b; simpl; [reflexivity|].
  destruct (b =? 0); [exact I|].
  specialize (IH b (a mod b)).
  destruct (egcd f b (a mod b)) as [[[g x] y]|e|]; simpl; auto.
Qed.

Lemma egcd_deep_enough (n : nat) :
  forall a b stack, 0 <= b < 2 ^ Z.of_nat n -> (2 * n < stack)%nat ->
  exists r, egcd stack a b = Ret r.
Proof.
  induction n as [|n IH]; intros a b stack Hb Hf.
  - assert (b = 0) by (simpl in Hb; lia). subst b.
    destruct stack; [lia|]. simpl. eauto.
  - destruct stack as [|f]; [lia|]. simpl.
    destruct (Z.eqb_spec b 0) as [Hb0|Hb0]; [eauto|].
    pose proof (Z.mod_pos_bound a b ltac:(lia)) as Hr.
    destruct f as [|f']; [lia|]. simpl.
    destruct (Z.eqb_spec (a mod b) 0) as [Hr0|Hr0]; [simpl; eauto|].
    destruct (IH (a mod b) (b mod (a mod b)) f') as [[[g x] y] Hres].
    + pose proof (Z.mod_pos_bound b (a mod b) ltac:(lia)) as Hr2.
      pose proof (Z.div_mod b (a mod b) Hr0) as Hdm.
      assert (1 <= b / (a mod b)) by (apply Z.div_le_lower_bound; lia).
      rewrite Nat2Z.inj_succ, Z.pow_succ_r in Hb by lia. nia.
    + lia.
    + rewrite Hres. simpl. eauto.
Qed.

(** [egcd] returns on every non-negative divisor when the recursion limit
    leaves it more than [egcd_depth b] calls. *)
Lemma egcd_returns (stack : nat) (a b : Z) :
  0 <= b -> (egcd_depth b < stack)%nat -> exists r, egcd stack a b = Ret r.
Proof.
  intros Hb Hs. unfold egcd_depth in Hs.
  apply (egcd_deep_enough (Z.to_nat (bit_length b))).
  - destruct (Z.eq_dec b 0) as [->|Hb0].
    + simpl. lia.
    + pose proof (bit_length_bounds b ltac:(lia)).
      pose proof (bit_length_pos b ltac:(lia)).
      rewrite Z2Nat.id by lia. lia.
  - unfold bit_length in *.
    destruct (Z.eqb_spec b 0); [simpl in *; lia|].
    pose proof (Z.log2_nonneg (Z.abs b)). lia.
Qed.

Lemma modinv_spec (stack : nat) (a m d : Z) :
  1 < m -> modinv stack a m = Ret d -> (a * d) mod m = 1 /\ 0 <= d < m.
Proof.
  intros Hm H. unfold modinv in H.
  apply bind_ret_inv in H. destruct H as [[[g x] y] [H1 H2]].
  apply egcd_bezout in H1.
  destruct (Z.eqb_spec g 1) as [Hg|Hg]; simpl in H2; [|discriminate].
  unfold pymod in H2. destruct (Z.eqb_spec m 0); [lia|].
  inversion H2; subst d. split.
  - rewrite Zmult_mod_idemp_r.
    replace (a * x) with (1 + (- y) * m) by lia.
    rewrite Z.mod_add by lia. apply Z.mod_small. lia.
  - apply Z.mod_pos_bound. lia.
Qed.

(** *** Probable primes are at least 2 *)

Lemma is_probable_prime_ge_2 (n k : Z) g g' :
  is_probable_prime n k g = Ret (true, g') -> 2 <= n.
Proof.
  unfold is_probable_prime. destruct (Z.ltb_spec n 2) as [Hlt|Hge]; [|lia].
  unfold rret. intros H. inversion H.
Qed.

Lemma gen_prime_loop_ge_2 (fuel : nat) (bits : Z) :
  forall g x g', gen_prime_loop fuel bits g = Ret (x, g') -> 2 <= x.
Proof.
  induction fuel as [|f IH]; intros g x g' H; simpl in H; [discriminate|].
  apply rbind_ret_inv in H. destruct H as (r & g1 & _ & H).
  apply rbind_ret_inv in H. destruct H as (ok & g2 & Hok & H).
  destruct ok.
  - unfold rret in H. inversion H; subst.
    eapply is_probable_prime_ge_2; eassumption.
  - eapply IH; eassumption.
Qed.

Lemma gen_prime_ge_2 (fuel : nat) (bits : Z) g x g' :
  gen_prime fuel bits g = Ret (x, g') -> 2 <= x.
Proof.
  unfold gen_prime. destruct (bits <? 16); [discriminate|].
  apply gen_prime_loop_ge_2.
Qed.

(** *** Key generation *)

(** What the loop of [generate_keypair] returns: a pair built from two
    accepted draws [p <> q] whose [phi] is not divisible by [e]. *)
Lemma generate_keypair_loop_spec (fuel pfuel stack : nat) (bits half e : Z) :
  forall g pub priv g',
  generate_keypair_loop fuel pfuel stack bits half e g
  = Ret ((pub, priv), g') ->
  exists p q g0 g1 g2,
    gen_prime pfuel half g0 = Ret (p, g1) /\
    gen_prime pfuel (bits - half) g1 = Ret (q, g2) /\
    p <> q /\
    ((p - 1) * (q - 1)) mod e <> 0 /\
    pub = mkPublicKey (p * q) e /\
    priv_n priv = p * q /\
    (e * priv_d priv) mod ((p - 1) * (q - 1)) = 1 /\
    0 <= priv_d priv < (p - 1) * (q - 1).
Proof.
  induction fuel as [|f IH]; intros g pub priv g' H; simpl in H;
    [discriminate|].
  apply rbind_ret_inv in H. destruct H as (p & g1 & Hp & H).
  apply rbind_ret_inv in H. destruct H as (q & g2 & Hq & H).
  destruct (Z.eqb_spec p q) as [Hpq|Hpq]; [eapply IH; eassumption|].
  apply rbind_ret_inv in H. destruct H as (r & g3 & Hr & H).
  apply lift_ret_inv in Hr. destruct Hr as [Hr ->].
  unfold pymod in Hr. destruct (Z.eqb_spec e 0) as [He|He]; [discriminate|].
  inversion Hr; subst r; clear Hr.
  destruct (Z.eqb_spec (((p - 1) * (q - 1)) mod e) 0) as [Hphi|Hphi];
    [eapply IH; eassumption|].
  apply rbind_ret_inv in H. destruct H as (d & g4 & Hd & H).
  apply lift_ret_inv in Hd. destruct Hd as [Hd ->].
  unfold rret in H. inversion H; subst; clear H.
  pose proof (gen_prime_ge_2 _ _ _ _ _ Hp).
  pose proof (gen_prime_ge_2 _ _ _ _ _ Hq).
  apply modinv_spec in Hd; [|nia].
  exists p, q, g, g1, g'. simpl. tauto.
Qed.

(** The same, with the tape: the pair is built from the first round of
    draws, starting at [g], that the loop does not reject. *)
Lemma generate_keypair_loop_chain (fuel pfuel stack : nat)
    (bits half e : Z) :
  forall g pub priv g',
  generate_keypair_loop fuel pfuel stack bits half e g
  = Ret ((pub, priv), g') ->
  exists p q g0 g1,
    redrawn pfuel bits half e g g0 /\
    gen_prime pfuel half g0 = Ret (p, g1) /\
    gen_prime pfuel (bits - half) g1 = Ret (q, g') /\
    p <> q /\
    ((p - 1) * (q - 1)) mod e <> 0 /\
    pub = mkPublicKey (p * q) e /\
    priv_n priv = p * q /\
    modinv stack e ((p - 1) * (q - 1)) = Ret (priv_d priv) /\
    (e * priv_d priv) mod ((p - 1) * (q - 1)) = 1 /\
    0 <= priv_d priv < (p - 1) * (q - 1).
Proof.
  induction fuel as [|f IH]; intros g pub priv g' H; simpl in H;
    [discriminate|].
  apply rbind_ret_inv in H. destruct H as (p & g1 & Hp & H).
  apply rbind_ret_inv in H. destruct H as (q & g2 & Hq & H).
  assert (Hagain :
    p = q \/ (e <> 0 /\ ((p - 1) * (q - 1)) mod e = 0) ->
    generate_keypair_loop f pfuel stack bits half e g2
    = Ret ((pub, priv), g') ->
    exists p q g0 g1,
      redrawn pfuel bits half e g g0 /\
      gen_prime pfuel half g0 = Ret (p, g1) /\
      gen_prime pfuel (bits - half) g1 = Ret (q, g') /\
      p <> q /\
      ((p - 1) * (q - 1)) mod e <> 0 /\
      pub = mkPublicKey (p * q) e /\
      priv_n priv = p * q /\
      modinv stack e ((p - 1) * (q - 1)) = Ret (priv_d priv) /\
      (e * priv_d priv) mod ((p - 1) * (q - 1)) = 1 /\
      0 <= priv_d priv < (p - 1) * (q - 1)).
  { intros Hrej Hrest.
    destruct (IH _ _ _ _ Hrest) as (p' & q' & g0 & g1' & Hch & Hrest').
    exists p', q', g0, g1'. split; [|exact Hrest'].
    apply (redrawn_more _ _ _ _ g g2 g0); [|exact Hch].
    exists p, q, g1. auto. }
  destruct (Z.eqb_spec p q) as [Hpq|Hpq]; [apply Hagain; auto|].
  apply rbind_ret_inv in H. destruct H as (r & g3 & Hr & H).
  apply lift_ret_inv in Hr. destruct Hr as [Hr ->].
  unfold pymod in Hr. destruct (Z.eqb_spec e 0) as [He|He]; [discriminate|].
  inversion Hr; subst r; clear Hr.
  destruct (Z.eqb_spec (((p - 1) * (q - 1)) mod e) 0) as [Hphi|Hphi];
    [apply Hagain; auto|].
  apply rbind_ret_inv in H. destruct H as (d & g4 & Hd & H).
  apply lift_ret_inv in Hd. destruct Hd as [Hd ->].
  unfold rret in H. inversion H; subst; clear H.
  pose proof (gen_prime_ge_2 _ _ _ _ _ Hp).
  pose proof (gen_prime_ge_2 _ _ _ _ _ Hq).
  assert (Hphi1 : 1 < (p - 1) * (q - 1)) by nia.
  pose proof (modinv_spec _ _ _ _ Hphi1 Hd) as [Hd1 Hd2].
  exists p, q, g, g1. simpl.
  repeat split; auto; try lia. apply redrawn_none.
Qed.

(** The modulus of a generated key is not zero. *)
Lemma generated_modulus (fuel stack : nat) (bits e : Z) (g g' : rng)
    (pub : PublicKey) (priv : PrivateKey) :
  generate_keypair fuel stack bits e g = Ret ((pub, priv), g') ->
  4 <= priv_n priv.
Proof.
  intros H. unfold generate_keypair in H.
  apply generate_keypair_loop_spec in H.
  destruct H as (p & q & g0 & g1 & g2 & Hp & Hq & _ & _ & _ & Hn & _).
  pose proof (gen_prime_ge_2 _ _ _ _ _ Hp).
  pose proof (gen_prime_ge_2 _ _ _ _ _ Hq).
  rewrite Hn. nia.
Qed.

(** *** Textbook RSA on one integer *)

Lemma pow_fermat_cong (p m j : Z) :
  Z.prime p -> 0 <= j -> m ^ (1 + j * (p - 1)) mod p = m mod p.
Proof.
  intros Hp Hj. pose proof (Z.prime_ge_2 _ Hp) as Hp2.
  rewrite Z.pow_add_r, Z.pow_1_r by nia.
  rewrite (Z.mul_comm j), Z.pow_mul_r by lia.
  destruct (Z.eq_dec (m mod p) 0) as [Hz|Hnz].
  - rewrite <- Zmult_mod_idemp_l, Hz. reflexivity.
  - rewrite <- Zmult_mod_idemp_r, <- Z.mod_pow_l.
    rewrite (Z.fermat_nz p m Hp Hnz), Z.pow_1_l by lia.
    rewrite Zmult_mod_idemp_r. now rewrite Z.mul_1_r.
Qed.

Lemma distinct_primes_coprime (p q : Z) :
  Z.prime p -> Z.prime q -> p <> q -> Z.gcd p q = 1.
Proof.
  intros Hp Hq Hne. apply Z.coprime_prime_l; [assumption|].
  intros Hd. apply Z.divide_prime_prime in Hd; auto.
Qed.

Lemma rsa_exponent_identity (p q e d m : Z) :
  Z.prime p -> Z.prime q -> p <> q ->
  0 <= e -> 0 <= d ->
  (e * d) mod ((p - 1) * (q - 1)) = 1 ->
  0 <= m < p * q ->
  m ^ (e * d) mod (p * q) = m.
Proof.
  intros Hp Hq Hne He Hd Hed Hm.
  pose proof (Z.prime_ge_2 _ Hp) as Hp2. pose proof (Z.prime_ge_2 _ Hq) as Hq2.
  set (phi := (p - 1) * (q - 1)) in *.
  assert (Hphi : 0 < phi) by (unfold phi; nia).
  pose proof (Z.div_mod (e * d) phi ltac:(lia)) as Hdm. rewrite Hed in Hdm.
  set (j := (e * d) / phi) in *.
  assert (Hj : 0 <= j) by (apply Z.div_pos; nia).
  assert (Hcp : (m ^ (e * d) - m) mod p = 0).
  { apply Z.cong_iff_0.
    replace (e * d) with (1 + (j * (q - 1)) * (p - 1)) by (unfold phi in Hdm; lia).
    apply pow_fermat_cong; [assumption|nia]. }
  assert (Hcq : (m ^ (e * d) - m) mod q = 0).
  { apply Z.cong_iff_0.
    replace (e * d) with (1 + (j * (p - 1)) * (q - 1)) by (unfold phi in Hdm; lia).
    apply pow_fermat_cong; [assumption|nia]. }
  apply Z.mod_divide in Hcp; [|lia]. apply Z.mod_divide in Hcq; [|lia].
  destruct Hcq as [c Hc].
  assert (Hpc : (p | c)).
  { apply (Z.gauss p q c).
    - rewrite Z.mul_comm, <- Hc. assumption.
    - now apply distinct_primes_coprime. }
  destruct Hpc as [c' Hc'].
  rewrite <- (Z.mod_small m (p * q)) at 2 by assumption.
  apply Z.cong_iff_ex. exists c'. rewrite Hc, Hc'. ring.
Qed.

Lemma rsa_int_roundtrip (p q e d m : Z) :
  Z.prime p -> Z.prime q -> p <> q ->
  0 <= e -> 0 <= d ->
  (e * d) mod ((p - 1) * (q - 1)) = 1 ->
  0 <= m < p * q ->
  (m ^ e mod (p * q)) ^ d mod (p * q) = m.
Proof.
  intros. rewrite Z.mod_pow_l, <- Z.pow_mul_r by assumption.
  now apply rsa_exponent_identity.
Qed.

Lemma no_divisor_upto_spec (n : Z) (c : nat) :
  forall d, 0 < d -> no_divisor_upto n c d = true ->
  forall x, d <= x < d + Z.of_nat c -> n mod x <> 0.
Proof.
  induction c as [|c IH]; intros d Hd H x Hx; [lia|].
  simpl in H. apply andb_true_iff in H. destruct H as [H1 H2].
  destruct (Z.eq_dec x d) as [->|Hne].
  - destruct (Z.eqb_spec (n mod d) 0); [discriminate|assumption].
  - apply (IH (d + 1)); [lia|assumption|lia].
Qed.

Lemma trial_prime_sound (n : Z) : trial_prime n = true -> Z.prime n.
Proof.
  unfold trial_prime. intros H. apply andb_true_iff in H.
  destruct H as [H1 H2]. apply Z.ltb_lt in H1.
  pose proof (no_divisor_upto_spec n _ 2 ltac:(lia) H2) as Hnd.
  pose proof (Z.sqrt_spec n ltac:(lia)) as Hs. cbv zeta in Hs.
  assert (Hs1 : 1 <= Z.sqrt n) by (apply Z.sqrt_le_square; lia).
  split; [assumption|].
  intros x Hx [c Hc].
  assert (Hcpos : 1 < c < n) by nia.
  assert (Hsmall : x <= Z.sqrt n \/ c <= Z.sqrt n).
  { destruct (Z_le_gt_dec x (Z.sqrt n)) as [Hl|Hg]; [now left|].
    destruct (Z_le_gt_dec c (Z.sqrt n)) as [Hl'|Hg']; [now right|].
    exfalso.
    assert (Z.succ (Z.sqrt n) * Z.succ (Z.sqrt n) <= c * x)
      by (apply Z.mul_le_mono_nonneg; lia).
    lia. }
  destruct Hsmall as [Hsm|Hsm].
  - apply (Hnd x); [lia|]. subst n. apply Z_mod_mult.
  - apply (Hnd c); [lia|]. subst n. rewrite Z.mul_comm. apply Z_mod_mult.
Qed.

(** *** Width of the modulus *)

Lemma mod_bytes_bounds (n : Z) :
  0 < n ->
  1 <= _mod_bytes n /\ 256 ^ (_mod_bytes n - 1) <= n < 256 ^ _mod_bytes n.
Proof.
  intros Hn. unfold _mod_bytes.
  pose proof (bit_length_bounds n Hn) as [Hlo Hhi].
  pose proof (bit_length_pos n Hn) as Hbl.
  set (bl := bit_length n) in *.
  pose proof (Z.div_mod (bl + 7) 8 ltac:(lia)) as Hdm.
  pose proof (Z.mod_pos_bound (bl + 7) 8 ltac:(lia)) as Hmb.
  set (k := (bl + 7) / 8) in *.
  assert (Hk : 1 <= k) by lia.
  rewrite !pow256 by lia. split; [assumption|]. split.
  - eapply Z.le_trans; [|exact Hlo].
    apply Z.pow_le_mono_r; lia.
  - eapply Z.lt_le_trans; [exact Hhi|].
    apply Z.pow_le_mono_r; lia.
Qed.

(** *** The encoding side *)

Lemma int_to_bytes_ok (m size : Z) :
  0 <= size -> 0 <= m < 256 ^ size ->
  int_to_bytes m size = Ret (be_digits (Z.to_nat size) m).
Proof.
  intros Hs Hm. unfold int_to_bytes.
  destruct (Z.ltb_spec size 0); [lia|].
  destruct (Z.ltb_spec m 0); [lia|].
  destruct (Z.leb_spec (256 ^ size) m); [lia|]. reflexivity.
Qed.

Lemma len_nonce (rand : bool) (g : rng) :
  len (nonce rand g) = if rand then 1 else 0.
Proof. destruct rand; reflexivity. Qed.

Lemma rbind_ret {A B} (m : Rand A) (f : A -> Rand B) g a g' :
  m g = Ret (a, g') -> rbind m f g = f a g'.
Proof. unfold rbind. now intros ->. Qed.

Lemma rbind_lift_ret {A B} (o : outcome A) (f : A -> Rand B) g a :
  o = Ret a -> rbind (lift o) f g = f a g.
Proof. now intros ->. Qed.

Lemma randbelow_ok (n : Z) (g : rng) :
  0 < n -> randbelow n g = Ret (g 0%nat mod n, fun i => g (S i)).
Proof.
  intros Hn. unfold randbelow. destruct (Z.leb_spec n 0); [lia|]. reflexivity.
Qed.

Lemma bytes_of_int_ok (r : Z) :
  0 <= r < 256 -> bytes_of_int r = Ret [byte_of_Z r].
Proof.
  intros Hr. unfold bytes_of_int.
  destruct (Z.leb_spec 0 r); [|lia]. destruct (Z.ltb_spec r 256); [|lia].
  reflexivity.
Qed.

Lemma int_to_bytes_2 (v : Z) :
  0 <= v < 65536 -> int_to_bytes v 2 = Ret (be_digits 2 v).
Proof.
  intros Hv. now rewrite int_to_bytes_ok by (change (256 ^ 2) with 65536; lia).
Qed.

Lemma chunk_block_ok (rand : bool) (chunk : bytes) (g : rng) :
  len chunk < 65536 ->
  chunk_block rand chunk g
  = Ret (be_digits 2 (len chunk) ++ nonce rand g ++ chunk, after_nonce rand g).
Proof.
  intros HL. pose proof (len_nonneg chunk) as H0.
  unfold chunk_block, nonce, after_nonce.
  destruct rand.
  - rewrite (rbind_ret _ _ _ _ _ (randbelow_ok 255 g ltac:(lia))).
    rewrite (rbind_lift_ret _ _ _ _ (int_to_bytes_2 (len chunk) ltac:(lia))).
    pose proof (Z.mod_pos_bound (g 0%nat) 255 ltac:(lia)) as Hr.
    rewrite (rbind_lift_ret _ _ _ _ (bytes_of_int_ok (g 0%nat mod 255 + 1) ltac:(lia))).
    reflexivity.
  - rewrite (rbind_lift_ret _ _ _ _ (int_to_bytes_2 (len chunk) ltac:(lia))).
    reflexivity.
Qed.

Lemma len_pad_block (block : bytes) (plain_block : Z) :
  len block <= plain_block -> len (pad_block block plain_block) = plain_block.
Proof.
  intros H. unfold pad_block.
  destruct (Z.ltb_spec (len block) plain_block).
  - rewrite len_app, len_repeat. lia.
  - lia.
Qed.

Lemma len_plain_of_chunk (rand : bool) (g : rng) (chunk : bytes) (pb : Z) :
  2 + (if rand then 1 else 0) + len chunk <= pb ->
  len (plain_of_chunk rand g chunk pb) = pb.
Proof.
  intros H. unfold plain_of_chunk. apply len_pad_block.
  rewrite !len_app, len_be_digits, len_nonce. lia.
Qed.

Lemma len_cipher_of_plain (pub : PublicKey) (blk : bytes) :
  0 < pub_n pub ->
  len (cipher_of_plain blk pub (_mod_bytes (pub_n pub))) = _mod_bytes (pub_n pub).
Proof.
  intros Hn. unfold cipher_of_plain. rewrite len_be_digits.
  pose proof (mod_bytes_bounds _ Hn). lia.
Qed.

Lemma rsa_encrypt_int_ok (pub : PublicKey) (m : Z) :
  0 <= pub_e pub -> 0 <= m < pub_n pub ->
  rsa_encrypt_int m pub = Ret (m ^ pub_e pub mod pub_n pub).
Proof.
  intros He Hm. unfold rsa_encrypt_int.
  destruct (Z.ltb_spec m 0); [lia|].
  destruct (Z.leb_spec (pub_n pub) m); [lia|].
  simpl. apply pow3_nonneg; lia.
Qed.

Section PublicSide.

Variables (pub : PublicKey) (mode : string) (rand : bool).

Let k := _mod_bytes (pub_n pub).
Let pb := _mod_bytes (pub_n pub) - 1.
Let cap := _mod_bytes (pub_n pub) - 1 - 2 - (if rand then 1 else 0).

Hypothesis Hn : 0 < pub_n pub.
Hypothesis He : 0 <= pub_e pub.
Hypothesis Hbig : _mod_bytes (pub_n pub) <= 65535.

Lemma encrypt_chunk_ok (chunk : bytes) (g : rng) :
  len chunk <= cap ->
  encrypt_chunk chunk pub mode k pb cap rand g
  = Ret (frame mode k (cipher_of_plain (plain_of_chunk rand g chunk pb) pub k),
         after_nonce rand g).
Proof.
  intros HL. pose proof (mod_bytes_bounds _ Hn) as (Hk1 & Hlo & Hhi).
  pose proof (len_nonneg chunk) as H0.
  unfold encrypt_chunk.
  destruct (Z.gtb_spec (len chunk) cap); [lia|].
  rewrite (rbind_ret _ _ _ _ _
             (chunk_block_ok rand chunk g
                ltac:(subst cap; destruct rand; lia))).
  fold (plain_of_chunk rand g chunk pb).
  set (blk := plain_of_chunk rand g chunk pb).
  assert (Hlen : len blk = pb)
    by (apply len_plain_of_chunk; subst cap pb; destruct rand; lia).
  pose proof (int_from_bytes_range blk) as Hm. rewrite Hlen in Hm.
  rewrite (rbind_lift_ret _ _ _ _
             (rsa_encrypt_int_ok pub (int_from_bytes blk) He
                ltac:(subst pb; lia))).
  pose proof (Z.mod_pos_bound (int_from_bytes blk ^ pub_e pub) (pub_n pub) Hn)
    as Hc.
  rewrite (rbind_lift_ret _ _ _ _
             (int_to_bytes_ok (int_from_bytes blk ^ pub_e pub mod pub_n pub) k
                ltac:(subst k; lia) ltac:(subst k; lia))).
  fold (cipher_of_plain blk pub k). unfold frame.
  destruct (is_fixed mode); [reflexivity|].
  pose proof (len_cipher_of_plain pub blk Hn) as Hlc. fold k in Hlc.
  rewrite Hlc.
  rewrite (rbind_lift_ret _ _ _ _ (int_to_bytes_2 k ltac:(subst k; lia))).
  reflexivity.
Qed.

End PublicSide.

(** *** The loop of [encrypt_bytes] *)

Lemma encrypt_loop_done fuel data pub mode k pb cap rand i out g :
  len data <= i ->
  encrypt_loop fuel data pub mode k pb cap rand i out g = Ret (out, g).
Proof.
  intros H. destruct fuel; simpl;
    destruct (Z.ltb_spec i (len data)); try lia; reflexivity.
Qed.

Lemma encrypt_loop_step f data pub mode k pb cap rand i out g :
  i < len data ->
  encrypt_loop (S f) data pub mode k pb cap rand i out g
  = rbind (encrypt_chunk (slice data i (i + cap)) pub mode k pb cap rand)
      (fun piece =>
         encrypt_loop f data pub mode k pb cap rand
           (i + len (slice data i (i + cap))) (out ++ piece)) g.
Proof.
  intros H. simpl. destruct (Z.ltb_spec i (len data)); [reflexivity|lia].
Qed.

Lemma mode_cases (mode : string) :
  In mode modes ->
  (is_raw mode = true /\ is_rand mode = false \/
   is_raw mode = false /\ is_rand mode = true) /\
  (is_fixed mode = true /\ is_len mode = false \/
   is_fixed mode = false /\ is_len mode = true).
Proof.
  unfold modes. simpl.
  intros [<-|[<-|[<-|[<-|[]]]]]; split; auto.
Qed.

Lemma encrypt_bytes_unfold data pub mode g :
  In mode modes ->
  8 <= _mod_bytes (pub_n pub) - 1 ->
  encrypt_bytes data pub mode g
  = encrypt_loop (List.length data) data pub mode (_mod_bytes (pub_n pub))
      (_mod_bytes (pub_n pub) - 1)
      (_mod_bytes (pub_n pub) - 1 - 2 - (if is_rand mode then 1 else 0))
      (is_rand mode) 0 [] g.
Proof.
  intros Hmode Hpb. unfold encrypt_bytes.
  destruct (Z.ltb_spec (_mod_bytes (pub_n pub) - 1) 8); [lia|].
  destruct (mode_cases mode Hmode) as [[[-> ->]|[-> ->]] _].
  - now rewrite Z.sub_0_r.
  - f_equal. lia.
Qed.

(** *** Computations that leave the tape alone *)

Lemma tape_free_rret {A} (a : A) : tape_free (rret a).
Proof. intros g1 g2. simpl. auto. Qed.

Lemma tape_free_rraise {A} (e : exn) : tape_free (@rraise A e).
Proof. intros g1 g2. reflexivity. Qed.

Lemma tape_free_lift {A} (o : outcome A) : tape_free (lift o).
Proof. intros g1 g2. destruct o; simpl; auto. Qed.

Lemma tape_free_rbind {A B} (m : Rand A) (f : A -> Rand B) :
  tape_free m -> (forall a, tape_free (f a)) -> tape_free (rbind m f).
Proof.
  intros Hm Hf g1 g2. specialize (Hm g1 g2). unfold rbind.
  destruct (m g1) as [[a1 h1]|e1|], (m g2) as [[a2 h2]|e2|];
    try contradiction; try assumption.
  destruct Hm as (-> & -> & ->). apply Hf.
Qed.

Lemma tape_free_result {A} (m : Rand A) g1 g2 :
  tape_free m -> result (m g1) = result (m g2).
Proof.
  intros Hm. specialize (Hm g1 g2).
  destruct (m g1) as [[a1 h1]|e1|], (m g2) as [[a2 h2]|e2|];
    try contradiction; simpl; try reflexivity.
  - now destruct Hm as (-> & _).
  - now subst.
Qed.

Lemma tape_free_encrypt_chunk chunk pub mode k pb cap :
  tape_free (encrypt_chunk chunk pub mode k pb cap false).
Proof.
  unfold encrypt_chunk, chunk_block.
  destruct (len chunk >? cap); [apply tape_free_rraise|].
  repeat match goal with
    | |- tape_free (rbind _ _) => apply tape_free_rbind; [|intros ?]
    | |- tape_free (lift _) => apply tape_free_lift
    | |- tape_free (rret _) => apply tape_free_rret
    | |- tape_free (if is_fixed mode then _ else _) => destruct (is_fixed mode)
    end.
Qed.

Lemma tape_free_encrypt_loop fuel data pub mode k pb cap :
  forall i out, tape_free (encrypt_loop fuel data pub mode k pb cap false i out).
Proof.
  induction fuel as [|f IH]; intros i out; simpl;
    destruct (i <? len data); try apply tape_free_rret.
  - intros g1 g2. exact I.
  - apply tape_free_rbind; [apply tape_free_encrypt_chunk|intros piece; apply IH].
Qed.

Lemma tape_free_encrypt_raw data pub mode :
  is_raw mode = true -> tape_free (encrypt_bytes data pub mode).
Proof.
  intros Hraw. unfold encrypt_bytes. rewrite Hraw.
  destruct (_ <? 8); [apply tape_free_rraise|apply tape_free_encrypt_loop].
Qed.

(** *** Reading the framing back *)

Lemma slice_app_skip {A} (a b : list A) (lo hi : Z) :
  0 <= lo ->
  slice (a ++ b) (len a + lo) (len a + hi) = slice b lo hi.
Proof.
  intros Hlo. unfold slice, len.
  replace (Z.of_nat (List.length a) + hi - (Z.of_nat (List.length a) + lo))
    with (hi - lo) by lia.
  f_equal. rewrite skipn_app.
  rewrite skipn_all2 by lia. simpl. f_equal. lia.
Qed.

Lemma range_step_nil (k : Z) : 0 < k -> range_step 0 0 k = [].
Proof.
  intros Hk. unfold range_step.
  replace ((0 - 0 + k - 1) / k) with 0; [reflexivity|].
  symmetry. apply Z.div_small. lia.
Qed.

Lemma range_step_shift (k stop : Z) :
  0 < k -> 0 <= stop ->
  range_step 0 (k + stop) k = 0 :: map (fun i => k + i) (range_step 0 stop k).
Proof.
  intros Hk Hs. unfold range_step.
  replace (k + stop - 0 + k - 1) with (1 * k + (stop - 0 + k - 1)) by lia.
  rewrite Z.div_add_l by lia.
  assert (0 <= (stop - 0 + k - 1) / k) by (apply Z.div_pos; lia).
  rewrite Z2Nat.inj_add by lia.
  change (Z.to_nat 1) with 1%nat. simpl seq. simpl map.
  f_equal. rewrite <- seq_shift, !map_map.
  apply map_ext. intros j. lia.
Qed.

Lemma fixed_blocks_cons (cb rest : bytes) (k : Z) :
  0 < k -> len cb = k ->
  fixed_blocks (cb ++ rest) k = cb :: fixed_blocks rest k.
Proof.
  intros Hk Hcb. unfold fixed_blocks.
  rewrite len_app, Hcb, range_step_shift by (try apply len_nonneg; lia).
  cbn [map]. apply f_equal2.
  - rewrite Z.add_0_l, <- Hcb. apply slice_prefix.
  - rewrite map_map. apply map_ext_in. intros i Hi.
    rewrite <- Hcb, <- Z.add_assoc. apply slice_app_skip.
    unfold range_step in Hi. apply in_map_iff in Hi.
    destruct Hi as (j & <- & _). lia.
Qed.

Lemma fixed_blocks_concat (cbs : list bytes) (k : Z) :
  0 < k -> Forall (fun cb => len cb = k) cbs ->
  fixed_blocks (List.concat cbs) k = cbs /\ len (List.concat cbs) mod k = 0.
Proof.
  intros Hk Hall. induction Hall as [|cb cbs Hcb Hall IH].
  - split; [|reflexivity]. unfold fixed_blocks. simpl List.concat.
    change (len (@nil byte)) with 0. now rewrite range_step_nil.
  - destruct IH as [IH1 IH2]. simpl List.concat. split.
    + rewrite fixed_blocks_cons by assumption. now rewrite IH1.
    + rewrite len_app, Hcb.
      replace (k + len (List.concat cbs)) with (len (List.concat cbs) + 1 * k) by lia.
      now rewrite Z.mod_add by lia.
Qed.

Lemma len_blocks_loop_S f data pos blocks :
  len_blocks_loop (S f) data pos blocks
  = if pos <? len data then
      if pos + 2 >? len data then Raise (ValueError "bad cipher format")
      else
        if pos + 2 + int_from_bytes (slice data pos (pos + 2)) >? len data
        then Raise (ValueError "bad cipher format")
        else
          len_blocks_loop f data
            (pos + 2 + int_from_bytes (slice data pos (pos + 2)))
            (blocks ++
             [slice data (pos + 2)
                (pos + 2 + int_from_bytes (slice data pos (pos + 2)))])
    else Ret blocks.
Proof. reflexivity. Qed.

Lemma len_blocks_loop_frames (k : Z) (cbs : list bytes) :
  0 <= k < 65536 -> Forall (fun cb => len cb = k) cbs ->
  forall fuel pre blocks, (List.length cbs <= fuel)%nat ->
  len_blocks_loop fuel
    (pre ++ List.concat (map (fun cb => be_digits 2 k ++ cb) cbs)) (len pre) blocks
  = Ret (blocks ++ cbs).
Proof.
  intros Hk Hall. induction Hall as [|cb cbs Hcb Hall IH];
    intros fuel pre blocks Hfuel.
  - simpl List.concat. rewrite !app_nil_r.
    destruct fuel; simpl; rewrite Z.ltb_irrefl; reflexivity.
  - destruct fuel as [|f]; [simpl in Hfuel; lia|].
    cbn [map List.concat].
    set (rest := List.concat (map (fun cb => be_digits 2 k ++ cb) cbs)).
    set (data := pre ++ (be_digits 2 k ++ cb) ++ rest).
    assert (Hlen : len data = len pre + 2 + k + len rest).
    { unfold data. rewrite !len_app, len_be_digits, Hcb. lia. }
    pose proof (len_nonneg rest) as Hrest. pose proof (len_nonneg pre) as Hpre.
    rewrite len_blocks_loop_S.
    destruct (Z.ltb_spec (len pre) (len data)); [|lia].
    destruct (Z.gtb_spec (len pre + 2) (len data)); [lia|].
    assert (Hhdr : slice data (len pre) (len pre + 2) = be_digits 2 k).
    { unfold data. rewrite <- app_assoc.
      change 2 with (len (be_digits 2 k)) at 1. apply slice_app_mid. }
    rewrite Hhdr, int_from_bytes_be_digits
      by (change (256 ^ Z.of_nat 2) with 65536; lia).
    destruct (Z.gtb_spec (len pre + 2 + k) (len data)); [lia|].
    assert (Hblk : slice data (len pre + 2) (len pre + 2 + k) = cb).
    { unfold data. rewrite <- app_assoc, app_assoc.
      replace (len pre + 2) with (len (pre ++ be_digits 2 k))
        by (rewrite len_app, len_be_digits; lia).
      rewrite <- Hcb. apply slice_app_mid. }
    rewrite Hblk.
    replace data with ((pre ++ be_digits 2 k ++ cb) ++ rest)
      by (unfold data; now rewrite <- !app_assoc).
    replace (len pre + 2 + k) with (len (pre ++ be_digits 2 k ++ cb))
      by (rewrite !len_app, len_be_digits, Hcb; lia).
    unfold rest. rewrite IH by (simpl in Hfuel; lia).
    now rewrite <- app_assoc.
Qed.

Lemma length_concat_frames (k : Z) (cbs : list bytes) :
  (List.length cbs
   <= List.length (List.concat (map (fun cb => be_digits 2 k ++ cb) cbs)))%nat.
Proof.
  induction cbs as [|cb cbs IH]; cbn [map List.concat List.length]; [lia|].
  rewrite !length_app, be_digits_length. lia.
Qed.

Lemma cipher_blocks_frames (mode : string) (k : Z) (cbs : list bytes) :
  In mode modes -> 0 < k < 65536 -> Forall (fun cb => len cb = k) cbs ->
  cipher_blocks (List.concat (map (frame mode k) cbs)) k mode = Ret cbs.
Proof.
  intros Hmode Hk Hall. unfold cipher_blocks, frame.
  destruct (mode_cases mode Hmode) as [_ [[Hf Hl]|[Hf Hl]]];
    rewrite Hf; try rewrite Hl.
  - rewrite map_id.
    destruct (fixed_blocks_concat cbs k ltac:(lia) Hall) as [H1 H2].
    unfold pymod. destruct (Z.eqb_spec k 0); [lia|]. simpl bind.
    rewrite H2, H1. reflexivity.
  - apply (len_blocks_loop_frames k cbs ltac:(lia) Hall _ [] []).
    apply length_concat_frames.
Qed.

(** *** Plaintext blocks read back *)

Lemma pad_block_app (block : bytes) (pb : Z) :
  exists tail, pad_block block pb = block ++ tail.
Proof.
  unfold pad_block. destruct (len block <? pb).
  - eexists; reflexivity.
  - exists []. now rewrite app_nil_r.
Qed.

Lemma plain_of_chunk_header rand g chunk pb :
  len chunk < 65536 ->
  int_from_bytes (slice (plain_of_chunk rand g chunk pb) 0 2) = len chunk.
Proof.
  intros HL. unfold plain_of_chunk.
  destruct (pad_block_app (be_digits 2 (len chunk) ++ nonce rand g ++ chunk) pb)
    as [tail ->].
  rewrite <- app_assoc.
  change 2 with (len (be_digits 2 (len chunk))) at 1.
  rewrite slice_prefix.
  apply int_from_bytes_be_digits.
  pose proof (len_nonneg chunk). change (256 ^ Z.of_nat 2) with 65536. lia.
Qed.

Lemma plain_of_chunk_payload rand g chunk pb :
  slice (plain_of_chunk rand g chunk pb) (if rand then 3 else 2)
    ((if rand then 3 else 2) + len chunk) = chunk.
Proof.
  unfold plain_of_chunk.
  destruct (pad_block_app (be_digits 2 (len chunk) ++ nonce rand g ++ chunk) pb)
    as [tail ->].
  replace (if rand then 3 else 2)
    with (len (be_digits 2 (len chunk) ++ nonce rand g))
    by (rewrite len_app, len_be_digits, len_nonce; now destruct rand).
  replace ((be_digits 2 (len chunk) ++ nonce rand g ++ chunk) ++ tail)
    with ((be_digits 2 (len chunk) ++ nonce rand g) ++ chunk ++ tail)
    by (now rewrite <- !app_assoc).
  apply slice_app_mid.
Qed.

Lemma skipn_length_firstn {A} (c : nat) (l : list A) :
  skipn (List.length (firstn c l)) l = skipn c l.
Proof.
  rewrite length_firstn.
  destruct (Nat.le_gt_cases c (List.length l)).
  - now rewrite Nat.min_l.
  - rewrite Nat.min_r by lia. now rewrite skipn_all, skipn_all2 by lia.
Qed.

Section KeyPair.

Variables (p q : Z) (pub : PublicKey) (priv : PrivateKey) (mode : string).

Let k := _mod_bytes (pub_n pub).
Let pb := _mod_bytes (pub_n pub) - 1.
Let rand := is_rand mode.
Let cap := _mod_bytes (pub_n pub) - 1 - 2 - (if is_rand mode then 1 else 0).

Hypothesis Hpair : rsa_pair p q pub priv.
Hypothesis Hmode : In mode modes.
Hypothesis Hsmall : 8 <= _mod_bytes (pub_n pub) - 1.
Hypothesis Hbig : _mod_bytes (pub_n pub) <= 65535.

Lemma pair_modulus_pos : 0 < pub_n pub.
Proof.
  destruct Hpair as (Hp & Hq & _ & -> & _).
  pose proof (Z.prime_ge_2 _ Hp). pose proof (Z.prime_ge_2 _ Hq). nia.
Qed.

Lemma plain_of_block_cipher (blk : bytes) :
  len blk = pb ->
  plain_of_block (cipher_of_plain blk pub k) priv pb = Ret blk.
Proof.
  intros Hlen. pose proof pair_modulus_pos as Hn.
  pose proof (mod_bytes_bounds _ Hn) as (Hk1 & Hlo & Hhi).
  destruct Hpair as (Hp & Hq & Hne & Hpn & Hqn & He & Hd & Hed).
  pose proof (int_from_bytes_range blk) as Hm. rewrite Hlen in Hm.
  set (m := int_from_bytes blk) in *.
  pose proof (Z.mod_pos_bound (m ^ pub_e pub) (pub_n pub) Hn) as Hc.
  unfold plain_of_block, cipher_of_plain. fold m.
  rewrite int_from_bytes_be_digits by (subst k; rewrite Z2Nat.id; lia).
  unfold rsa_decrypt_int. rewrite Hqn, <- Hpn.
  destruct (Z.ltb_spec (m ^ pub_e pub mod pub_n pub) 0); [lia|].
  destruct (Z.leb_spec (pub_n pub) (m ^ pub_e pub mod pub_n pub)); [lia|].
  simpl orb. cbv iota. rewrite pow3_nonneg by lia. simpl bind.
  rewrite Hpn.
  rewrite (rsa_int_roundtrip p q (pub_e pub) (priv_d priv) m)
    by (auto; subst pb; lia).
  rewrite int_to_bytes_ok by (subst pb; lia).
  replace (Z.to_nat pb) with (List.length blk) by (unfold len in Hlen; lia).
  unfold m. now rewrite be_digits_int_from_bytes.
Qed.

Lemma decrypt_loop_chunk (g : rng) (chunk : bytes) (rest : list bytes)
    (out : bytes) :
  len chunk <= cap ->
  decrypt_loop (cipher_of_plain (plain_of_chunk rand g chunk pb) pub k :: rest)
    priv mode pb out
  = decrypt_loop rest priv mode pb (out ++ chunk).
Proof.
  intros HL. pose proof (len_nonneg chunk) as H0.
  cbn [decrypt_loop].
  rewrite plain_of_block_cipher
    by (apply len_plain_of_chunk; subst cap pb rand; destruct (is_rand mode); lia).
  simpl bind.
  rewrite plain_of_chunk_header by (subst cap; destruct (is_rand mode); lia).
  unfold start_cap. fold rand.
  pose proof (plain_of_chunk_payload rand g chunk pb) as Hpay.
  destruct rand eqn:Hr.
  - destruct (Z.ltb_spec (len chunk) 0); [lia|].
    destruct (Z.gtb_spec (len chunk) (pb - 3)); [subst cap pb rand; rewrite Hr in HL; lia|].
    simpl orb. cbv iota. now rewrite Hpay.
  - destruct (Z.ltb_spec (len chunk) 0); [lia|].
    destruct (Z.gtb_spec (len chunk) (pb - 2)); [subst cap pb rand; rewrite Hr in HL; lia|].
    simpl orb. cbv iota. now rewrite Hpay.
Qed.

Lemma encrypt_loop_spec (data : bytes) (fuel : nat) :
  forall i out g,
  0 <= i -> len data - i <= Z.of_nat fuel ->
  exists cbs g',
    encrypt_loop fuel data pub mode k pb cap rand i out g
    = Ret (out ++ List.concat (map (frame mode k) cbs), g') /\
    Forall (fun cb => len cb = k) cbs /\
    forall acc,
      decrypt_loop cbs priv mode pb acc = Ret (acc ++ skipn (Z.to_nat i) data).
Proof.
  pose proof pair_modulus_pos as Hn.
  assert (He : 0 <= pub_e pub) by (destruct Hpair as (_&_&_&_&_&He&_); lia).
  induction fuel as [|f IH]; intros i out g Hi Hfuel.
  - exists [], g. rewrite encrypt_loop_done by lia. simpl.
    rewrite app_nil_r. repeat split; [constructor|].
    intros acc. rewrite skipn_all2 by (unfold len in Hfuel; lia).
    now rewrite app_nil_r.
  - destruct (Z.lt_ge_cases i (len data)) as [Hlt|Hge].
    + rewrite encrypt_loop_step by assumption.
      set (chunk := slice data i (i + cap)).
      assert (Hchunk : chunk = firstn (Z.to_nat cap) (skipn (Z.to_nat i) data)).
      { unfold chunk, slice. f_equal. f_equal. lia. }
      assert (Hcl : 1 <= len chunk <= cap).
      { rewrite Hchunk. unfold len. rewrite length_firstn, length_skipn.
        unfold len in Hlt. subst cap. destruct (is_rand mode); lia. }
      rewrite (rbind_ret _ _ _ _ _
                 (encrypt_chunk_ok pub mode rand Hn He Hbig chunk g
                    ltac:(subst cap rand; lia))).
      destruct (IH (i + len chunk)
                  (out ++ frame mode k
                            (cipher_of_plain (plain_of_chunk rand g chunk pb) pub k))
                  (after_nonce rand g) ltac:(lia) ltac:(lia))
        as (cbs & g' & Henc & Hall & Hdec).
      exists (cipher_of_plain (plain_of_chunk rand g chunk pb) pub k :: cbs), g'.
      split; [|split].
      * refine (eq_trans Henc _). cbn [map List.concat].
        now rewrite <- !app_assoc.
      * constructor; [|assumption].
        exact (len_cipher_of_plain pub _ Hn).
      * intros acc. rewrite decrypt_loop_chunk by lia.
        rewrite Hdec, <- app_assoc. do 2 f_equal.
        replace (Z.to_nat (i + len chunk))
          with (List.length chunk + Z.to_nat i)%nat by (unfold len; lia).
        rewrite <- skipn_skipn, Hchunk, skipn_length_firstn.
        now rewrite firstn_skipn.
    + exists [], g. rewrite encrypt_loop_done by lia. simpl.
      rewrite app_nil_r. repeat split; [constructor|].
      intros acc. rewrite skipn_all2 by (unfold len in Hge; lia).
      now rewrite app_nil_r.
Qed.

Lemma encrypt_decrypt (data : bytes) (g : rng) :
  exists c g',
    encrypt_bytes data pub mode g = Ret (c, g') /\
    decrypt_bytes c priv mode = Ret data.
Proof.
  pose proof pair_modulus_pos as Hn.
  pose proof (mod_bytes_bounds _ Hn) as (Hk1 & _).
  destruct (encrypt_loop_spec data (List.length data) 0 [] g
              ltac:(lia) ltac:(unfold len; lia))
    as (cbs & g' & Henc & Hall & Hdec).
  exists (List.concat (map (frame mode k) cbs)), g'. split.
  - rewrite encrypt_bytes_unfold by assumption. exact Henc.
  - unfold decrypt_bytes.
    destruct Hpair as (_ & _ & _ & Hpn & Hqn & _). rewrite Hqn, <- Hpn.
    fold k. rewrite cipher_blocks_frames by (auto; subst k; lia).
    simpl bind. fold pb. rewrite Hdec. reflexivity.
Qed.

End KeyPair.

(** *** No loop of the codec is cut by its bound *)

Lemma terminates_rret {A} (a : A) : terminates (rret a).
Proof. intros g. discriminate. Qed.

Lemma terminates_rraise {A} (e : exn) : terminates (@rraise A e).
Proof. intros g. discriminate. Qed.

Lemma terminates_lift {A} (o : outcome A) :
  o <> OutOfFuel -> terminates (lift o).
Proof. intros Ho g. destruct o; simpl; congruence. Qed.

Lemma terminates_rbind {A B} (m : Rand A) (f : A -> Rand B) :
  terminates m -> (forall a, terminates (f a)) -> terminates (rbind m f).
Proof.
  intros Hm Hf g. unfold rbind. specialize (Hm g).
  destruct (m g) as [[a g']|e|]; [apply Hf|discriminate|contradiction].
Qed.

Lemma terminates_randbelow (n : Z) : terminates (randbelow n).
Proof.
  intros g. unfold randbelow. destruct (n <=? 0); discriminate.
Qed.

Lemma int_to_bytes_no_fuel (m size : Z) : int_to_bytes m size <> OutOfFuel.
Proof.
  unfold int_to_bytes.
  destruct (size <? 0), (m <? 0), (256 ^ size <=? m); discriminate.
Qed.

Lemma bytes_of_int_no_fuel (r : Z) : bytes_of_int r <> OutOfFuel.
Proof. unfold bytes_of_int. destruct (_ && _); discriminate. Qed.

Lemma pow3_no_fuel (b e m : Z) : pow3 b e m <> OutOfFuel.
Proof.
  unfold pow3. destruct (m =? 0), (e <? 0), (Z.gcd b m =? 1); discriminate.
Qed.

Lemma rsa_encrypt_int_no_fuel (m : Z) (pub : PublicKey) :
  rsa_encrypt_int m pub <> OutOfFuel.
Proof.
  unfold rsa_encrypt_int. destruct (_ || _); [discriminate|apply pow3_no_fuel].
Qed.

Lemma rsa_decrypt_int_no_fuel (c : Z) (priv : PrivateKey) :
  rsa_decrypt_int c priv <> OutOfFuel.
Proof.
  unfold rsa_decrypt_int. destruct (_ || _); [discriminate|apply pow3_no_fuel].
Qed.

Lemma terminates_encrypt_chunk chunk pub mode k pb cap rand :
  terminates (encrypt_chunk chunk pub mode k pb cap rand).
Proof.
  unfold encrypt_chunk, chunk_block.
  destruct (len chunk >? cap); [apply terminates_rraise|].
  destruct rand;
    repeat match goal with
      | |- terminates (rbind _ _) => apply terminates_rbind; [|intros ?]
      | |- terminates (randbelow _) => apply terminates_randbelow
      | |- terminates (lift (int_to_bytes _ _)) =>
          apply terminates_lift, int_to_bytes_no_fuel
      | |- terminates (lift (bytes_of_int _)) =>
          apply terminates_lift, bytes_of_int_no_fuel
      | |- terminates (lift (rsa_encrypt_int _ _)) =>
          apply terminates_lift, rsa_encrypt_int_no_fuel
      | |- terminates (rret _) => apply terminates_rret
      | |- terminates (if is_fixed mode then _ else _) =>
          destruct (is_fixed mode)
      end.
Qed.

Lemma terminates_encrypt_loop data pub mode k pb cap rand (fuel : nat) :
  1 <= cap ->
  forall i out, 0 <= i -> len data - i <= Z.of_nat fuel ->
  terminates (encrypt_loop fuel data pub mode k pb cap rand i out).
Proof.
  intros Hcap. induction fuel as [|f IH]; intros i out Hi Hfuel.
  - intros g. rewrite encrypt_loop_done by lia. discriminate.
  - destruct (Z.lt_ge_cases i (len data)) as [Hlt|Hge].
    + intros g. rewrite encrypt_loop_step by assumption. revert g.
      apply terminates_rbind; [apply terminates_encrypt_chunk|].
      intros piece. apply IH.
      * pose proof (len_nonneg (slice data i (i + cap))). lia.
      * assert (1 <= len (slice data i (i + cap))).
        { unfold slice, len. rewrite length_firstn, length_skipn.
          unfold len in Hlt. lia. }
        lia.
    + intros g. rewrite encrypt_loop_done by lia. discriminate.
Qed.

(** [encrypt_bytes] always ends in a value or an exception. *)
Lemma encrypt_bytes_total data pub mode : terminates (encrypt_bytes data pub mode).
Proof.
  unfold encrypt_bytes.
  destruct (Z.ltb_spec (_mod_bytes (pub_n pub) - 1) 8);
    [apply terminates_rraise|].
  destruct (is_raw mode); [|destruct (is_rand mode)];
    try apply terminates_rraise;
    apply terminates_encrypt_loop; unfold len; lia.
Qed.

Lemma len_blocks_loop_no_fuel data (fuel : nat) :
  forall pos blocks, 0 <= pos -> len data - pos <= Z.of_nat fuel ->
  len_blocks_loop fuel data pos blocks <> OutOfFuel.
Proof.
  induction fuel as [|f IH]; intros pos blocks Hpos Hfuel.
  - simpl. destruct (Z.ltb_spec pos (len data)); [lia|discriminate].
  - rewrite len_blocks_loop_S.
    destruct (pos <? len data); [|discriminate].
    destruct (pos + 2 >? len data); [discriminate|].
    destruct (_ >? len data); [discriminate|].
    pose proof (int_from_bytes_range (slice data pos (pos + 2))).
    apply IH; lia.
Qed.

Lemma decrypt_loop_no_fuel blocks priv mode pb :
  forall out, decrypt_loop blocks priv mode pb out <> OutOfFuel.
Proof.
  induction blocks as [|b rest IH]; intros out; cbn [decrypt_loop];
    [discriminate|].
  unfold plain_of_block.
  pose proof (rsa_decrypt_int_no_fuel (int_from_bytes b) priv) as Hd.
  destruct (rsa_decrypt_int (int_from_bytes b) priv) as [m|e|];
    [|discriminate|contradiction].
  cbn [bind]. pose proof (int_to_bytes_no_fuel m pb) as Hb.
  destruct (int_to_bytes m pb) as [p|e|]; [|discriminate|contradiction].
  cbn [bind]. destruct (start_cap mode pb) as [start cap].
  destruct (_ || _); [discriminate|apply IH].
Qed.

(** [decrypt_bytes] always ends in a value or an exception. *)
Lemma decrypt_bytes_total data priv mode :
  decrypt_bytes data priv mode <> OutOfFuel.
Proof.
  unfold decrypt_bytes, cipher_blocks, pymod.
  destruct (is_fixed mode).
  - destruct (_mod_bytes (priv_n priv) =? 0); [discriminate|]. cbn [bind].
    destruct (negb _); [discriminate|]. cbn [bind].
    apply decrypt_loop_no_fuel.
  - destruct (is_len mode); [|discriminate].
    pose proof (len_blocks_loop_no_fuel data (List.length data) 0 []
                  ltac:(lia) ltac:(unfold len; lia)) as Hl.
    destruct (len_blocks_loop _ data 0 []) as [blocks|e|];
      [|discriminate|contradiction].
    cbn [bind]. apply decrypt_loop_no_fuel.
Qed.

(** The loops of the primality test are within their bounds. *)
Lemma split_twos_returns (fuel : nat) :
  forall d s, 0 < d < 2 ^ Z.of_nat fuel ->
  exists r, split_twos fuel d s = Ret r.
Proof.
  induction fuel as [|f IH]; intros d s Hd.
  - simpl in Hd. lia.
  - simpl. destruct (Z.eqb_spec (d mod 2) 0) as [Heven|Hodd]; [|eauto].
    apply IH. rewrite Nat2Z.inj_succ, Z.pow_succ_r in Hd by lia.
    pose proof (Z.div_mod d 2 ltac:(lia)). lia.
Qed.

Lemma check_no_fuel (n d s a : Z) : check n d s a <> OutOfFuel.
Proof.
  unfold check. pose proof (pow3_no_fuel a d n) as Hp.
  destruct (pow3 a d n) as [x|e|]; [|discriminate|contradiction].
  cbn [bind]. destruct (_ || _); discriminate.
Qed.

Lemma terminates_rounds_loop (iters : nat) (n d s : Z) :
  terminates (rounds_loop iters n d s).
Proof.
  induction iters as [|i IH]; cbn [rounds_loop]; [apply terminates_rret|].
  apply terminates_rbind; [apply terminates_randbelow|intros r].
  apply terminates_rbind; [apply terminates_lift, check_no_fuel|intros ok].
  destruct (negb ok); [apply terminates_rret|apply IH].
Qed.

(** [is_probable_prime] always ends in a value or an exception. *)
Lemma is_probable_prime_total (n k : Z) : terminates (is_probable_prime n k).
Proof.
  unfold is_probable_prime.
  destruct (Z.ltb_spec n 2); [apply terminates_rret|].
  destruct (small_primes_loop n small_primes); [apply terminates_rret|].
  destruct (split_twos_returns (Z.to_nat (bit_length n)) (n - 1) 0)
    as [[d s] Hds].
  { pose proof (bit_length_bounds n ltac:(lia)).
    pose proof (bit_length_pos n ltac:(lia)).
    rewrite Z2Nat.id by lia. lia. }
  rewrite Hds. intros g. cbn [lift rbind].
  apply terminates_rounds_loop.
Qed.

(** ** The claims about the codec and the keys *)

Lemma demo_pair : rsa_pair demo_p demo_q demo_pub demo_priv.
Proof.
  unfold rsa_pair. repeat split;
    try (apply trial_prime_sound; vm_compute; reflexivity);
    try (vm_compute; congruence).
Qed.

Lemma pair32 : rsa_pair 32771 32779 pub32 priv32.
Proof.
  unfold rsa_pair. repeat split;
    try (apply trial_prime_sound; vm_compute; reflexivity);
    try (vm_compute; congruence).
Qed.

(** C1, as amended: for a key pair over two distinct primes [p], [q] with
    [e > 0], [d >= 0] and [e*d = 1 mod (p-1)(q-1)], whose modulus is wide
    enough for the codec ([plain_block >= 8]) and whose width [k] fits the
    2-byte length fields ([k <= 65535]), decrypting what [encrypt_bytes]
    produced gives back [data], for every byte string, each of the four
    modes and every tape of random draws. *)
Theorem encrypt_decrypt_roundtrip (p q : Z) (pub : PublicKey)
    (priv : PrivateKey) (mode : string) (data : bytes) (g : rng) :
  rsa_pair p q pub priv ->
  In mode modes ->
  8 <= _mod_bytes (pub_n pub) - 1 ->
  _mod_bytes (pub_n pub) <= 65535 ->
  roundtrip data pub priv mode g = Ret data.
Proof.
  intros Hpair Hmode Hsmall Hbig.
  destruct (encrypt_decrypt p q pub priv mode Hpair Hmode Hsmall Hbig data g)
    as (c & g' & Henc & Hdec).
  unfold roundtrip. now rewrite Henc.
Qed.

Lemma encrypt_decrypt_roundtrip_witness :
  roundtrip demo_data demo_pub demo_priv "rand_len" (tape_of [5; 300; 7])
  = Ret demo_data.
Proof.
  apply (encrypt_decrypt_roundtrip demo_p demo_q).
  - exact demo_pair.
  - simpl. auto.
  - vm_compute. congruence.
  - vm_compute. congruence.
Defined.

(** C1 as stated fails: [generate_keypair] run for 32 bits returns a pair
    over the primes 32771 and 32779, and [encrypt_bytes] refuses its
    4-byte modulus. *)
Lemma roundtrip_small_key_fails :
  result (generate_keypair 3 1000 32 65537 tape32) = Ret (pub32, priv32) /\
  rsa_pair 32771 32779 pub32 priv32 /\
  roundtrip [x68; x69] pub32 priv32 "raw_fixed" (tape_of [])
  = Raise (ValueError "RSA modulus too small").
Proof.
  split; [vm_compute; reflexivity|]. split; [exact pair32|].
  vm_compute. reflexivity.
Qed.

(** C2, as amended: for a public key with [plain_block >= 8] and each of the
    four modes, [encrypt_bytes] of the empty byte string produces no cipher
    block: its output is the empty byte string and no random byte is
    drawn. *)
Theorem encrypt_empty (pub : PublicKey) (mode : string) (g : rng) :
  8 <= _mod_bytes (pub_n pub) - 1 ->
  In mode modes ->
  encrypt_bytes [] pub mode g = Ret ([], g).
Proof.
  intros Hpb Hmode. rewrite encrypt_bytes_unfold by assumption.
  apply encrypt_loop_done. unfold len. simpl. lia.
Qed.

Lemma encrypt_empty_witness :
  encrypt_bytes [] demo_pub "rand_fixed" (tape_of [9])
  = Ret ([], tape_of [9]).
Proof.
  apply encrypt_empty.
  - vm_compute. congruence.
  - simpl. auto.
Defined.

(** C2 as stated fails: with a 9-byte modulus the fixed-mode output for the
    empty string is 0 bytes long, not [k = 9]. *)
Lemma encrypt_empty_not_one_block :
  8 <= _mod_bytes (pub_n demo_pub) - 1 /\
  result (encrypt_bytes [] demo_pub "raw_fixed" (tape_of [])) = Ret [] /\
  len (@nil byte) <> _mod_bytes (pub_n demo_pub).
Proof.
  split; [vm_compute; congruence|]. split; [reflexivity|].
  vm_compute. congruence.
Qed.

Lemma mod_bytes_pos (n : Z) : n <> 0 -> 1 <= _mod_bytes n.
Proof.
  intros Hn. unfold _mod_bytes, bit_length.
  destruct (Z.eqb_spec n 0); [contradiction|].
  pose proof (Z.log2_nonneg (Z.abs n)).
  apply Z.div_le_lower_bound; lia.
Qed.

Lemma decrypt_loop_bad_block (priv : PrivateKey) (mode : string) (pb : Z)
    (b p : bytes) (blocks : list bytes) :
  In b blocks ->
  plain_of_block b priv pb = Ret p ->
  int_from_bytes (slice p 0 2) < 0 \/
  snd (start_cap mode pb) < int_from_bytes (slice p 0 2) ->
  forall out, is_error (decrypt_loop blocks priv mode pb out).
Proof.
  intros Hin Hp HL. induction blocks as [|b' rest IH]; [contradiction|].
  intros out. cbn [decrypt_loop].
  destruct (plain_of_block b' priv pb) as [p'|e|] eqn:Hp'; simpl bind.
  - destruct (start_cap mode pb) as [start cap] eqn:Hsc.
    destruct ((int_from_bytes (slice p' 0 2) <? 0)
              || (int_from_bytes (slice p' 0 2) >? cap)) eqn:Hbad.
    + eexists; reflexivity.
    + destruct Hin as [->|Hin]; [|now apply IH].
      exfalso. rewrite Hp in Hp'. inversion Hp'; subst p'.
      apply orb_false_iff in Hbad. destruct Hbad as [H1 H2].
      apply Z.ltb_ge in H1. rewrite Z.gtb_ltb in H2. apply Z.ltb_ge in H2.
      simpl in HL. lia.
  - eexists; reflexivity.
  - destruct Hin as [->|Hin]; [congruence|].
    (* an external step never runs out of fuel *)
    exfalso. unfold plain_of_block, rsa_decrypt_int, pow3, int_to_bytes in Hp'.
    repeat match type of Hp' with
           | context [if ?c then _ else _] => destruct c; simpl in Hp'
           end; discriminate.
Qed.

Lemma decrypt_misaligned (priv : PrivateKey) (data : bytes) (mode : string) :
  priv_n priv <> 0 ->
  is_fixed mode = true ->
  len data mod _mod_bytes (priv_n priv) <> 0 ->
  decrypt_bytes data priv mode = Raise (ValueError "cipher length not aligned").
Proof.
  intros Hn Hfixed Hmis. pose proof (mod_bytes_pos _ Hn) as Hk.
  unfold decrypt_bytes, cipher_blocks, pymod. rewrite Hfixed.
  destruct (Z.eqb_spec (_mod_bytes (priv_n priv)) 0); [lia|].
  simpl bind.
  destruct (Z.eqb_spec (len data mod _mod_bytes (priv_n priv)) 0);
    [contradiction|reflexivity].
Qed.

Lemma start_cap_payload_cap (mode : string) (pb : Z) :
  In mode modes -> snd (start_cap mode pb) = payload_cap mode pb.
Proof.
  intros Hmode. unfold start_cap, payload_cap.
  destruct (mode_cases mode Hmode) as [[[-> ->]|[-> ->]] _]; reflexivity.
Qed.

(** C3: for every private key [generate_keypair] returns and every input,
    in the two fixed modes an input whose length is not a multiple of [k]
    fails with the format error "cipher length not aligned"; and in each of
    the four modes, when some cipher block of the input decrypts to a
    plaintext block whose 2-byte length field exceeds [payload_cap]
    ([plain_block - 2] in the raw modes, [plain_block - 3] in the rand
    modes) or is negative, [decrypt_bytes] fails with an error and returns
    no output. *)
Theorem decrypt_rejects (fuel stack : nat) (bits e : Z) (g g' : rng)
    (pub : PublicKey) (priv : PrivateKey) (data : bytes) (mode : string) :
  generate_keypair fuel stack bits e g = Ret ((pub, priv), g') ->
  In mode modes ->
  (is_fixed mode = true ->
   len data mod _mod_bytes (priv_n priv) <> 0 ->
   decrypt_bytes data priv mode = Raise (ValueError "cipher length not aligned"))
  /\
  (forall blocks b p,
     cipher_blocks data (_mod_bytes (priv_n priv)) mode = Ret blocks ->
     In b blocks ->
     plain_of_block b priv (_mod_bytes (priv_n priv) - 1) = Ret p ->
     int_from_bytes (slice p 0 2) < 0 \/
     payload_cap mode (_mod_bytes (priv_n priv) - 1)
       < int_from_bytes (slice p 0 2) ->
     is_error (decrypt_bytes data priv mode)).
Proof.
  intros Hgen Hmode. pose proof (generated_modulus _ _ _ _ _ _ _ _ Hgen) as Hn.
  split.
  - intros Hfixed Hmis. apply decrypt_misaligned; [lia|assumption..].
  - intros blocks b p Hblocks Hin Hp HL.
    rewrite <- (start_cap_payload_cap mode _ Hmode) in HL.
    unfold decrypt_bytes. rewrite Hblocks. simpl bind.
    eapply decrypt_loop_bad_block; eassumption.
Qed.

Lemma decrypt_rejects_witness :
  decrypt_bytes [x01; x02] priv32 "rand_fixed"
  = Raise (ValueError "cipher length not aligned") /\
  is_error (decrypt_bytes oversize_cipher32 priv32 "raw_fixed").
Proof.
  assert (Hgen : generate_keypair 3 1000 32 65537 tape32
                 = Ret ((pub32, priv32), fun i => tape32 (42 + i)%nat))
    by (vm_compute; reflexivity).
  split.
  - apply (decrypt_rejects 3 1000 32 65537 tape32 _ pub32 priv32
             [x01; x02] "rand_fixed" Hgen).
    + simpl. auto.
    + reflexivity.
    + vm_compute. congruence.
  - apply (proj2 (decrypt_rejects 3 1000 32 65537 tape32 _ pub32 priv32
                    oversize_cipher32 "raw_fixed" Hgen ltac:(simpl; auto))
             [oversize_cipher32] oversize_cipher32 [x00; x02; x00]).
    + vm_compute. reflexivity.
    + simpl. auto.
    + vm_compute. reflexivity.
    + right. vm_compute. reflexivity.
Defined.

Lemma decrypt_empty_nonzero (priv : PrivateKey) (mode : string) :
  In mode modes ->
  priv_n priv <> 0 \/ is_len mode = true ->
  decrypt_bytes [] priv mode = Ret [].
Proof.
  intros Hmode Hcase. unfold decrypt_bytes, cipher_blocks.
  destruct (mode_cases mode Hmode) as [_ [[Hf Hl]|[Hf Hl]]];
    rewrite Hf; try rewrite Hl.
  - destruct Hcase as [Hn|Hlen]; [|congruence].
    pose proof (mod_bytes_pos _ Hn) as Hk.
    unfold pymod. destruct (Z.eqb_spec (_mod_bytes (priv_n priv)) 0); [lia|].
    cbn [bind]. change (len (@nil byte)) with 0. rewrite Z.mod_0_l by lia.
    cbn [Z.eqb negb]. unfold fixed_blocks. change (len (@nil byte)) with 0.
    rewrite range_step_nil by lia. reflexivity.
  - reflexivity.
Qed.

(** C10: for every private key [generate_keypair] returns and each of the
    four modes, [decrypt_bytes] of the empty byte string succeeds and
    returns the empty byte string. *)
Theorem decrypt_empty (fuel stack : nat) (bits e : Z) (g g' : rng)
    (pub : PublicKey) (priv : PrivateKey) (mode : string) :
  generate_keypair fuel stack bits e g = Ret ((pub, priv), g') ->
  In mode modes ->
  decrypt_bytes [] priv mode = Ret [].
Proof.
  intros Hgen Hmode.
  pose proof (generated_modulus _ _ _ _ _ _ _ _ Hgen) as Hn.
  apply decrypt_empty_nonzero; [assumption|]. left. lia.
Qed.

Lemma decrypt_empty_witness :
  decrypt_bytes [] priv32 "raw_fixed" = Ret [].
Proof.
  apply (decrypt_empty 3 1000 32 65537 tape32
           (fun i => tape32 (42 + i)%nat) pub32 priv32 "raw_fixed").
  - vm_compute. reflexivity.
  - simpl. auto.
Defined.

(** C9: in the modes raw_fixed and raw_len, the bytes [encrypt_bytes]
    returns (or the exception it raises) are the same whatever the random
    source holds: the call always ends, and its result depends on [data] and
    the key alone. *)
Theorem raw_encrypt_deterministic (data : bytes) (pub : PublicKey)
    (g1 g2 : rng) :
  (result (encrypt_bytes data pub "raw_fixed" g1)
   = result (encrypt_bytes data pub "raw_fixed" g2) /\
   encrypt_bytes data pub "raw_fixed" g1 <> OutOfFuel) /\
  (result (encrypt_bytes data pub "raw_len" g1)
   = result (encrypt_bytes data pub "raw_len" g2) /\
   encrypt_bytes data pub "raw_len" g1 <> OutOfFuel).
Proof.
  split; (split; [|apply encrypt_bytes_total]);
    apply tape_free_result, tape_free_encrypt_raw; reflexivity.
Qed.

(** The randomized modes do read the tape. *)
Example rand_encrypt_reads_tape :
  result (encrypt_bytes demo_data demo_pub "rand_fixed" (tape_of [1]))
  <> result (encrypt_bytes demo_data demo_pub "rand_fixed" (tape_of [2])).
Proof. vm_compute. congruence. Qed.

Lemma generate_keypair_loop_redraw (f pfuel stack : nat) (bits half e : Z)
    (g g1 g2 : rng) (p q : Z) :
  gen_prime pfuel half g = Ret (p, g1) ->
  gen_prime pfuel (bits - half) g1 = Ret (q, g2) ->
  p = q \/ (e <> 0 /\ ((p - 1) * (q - 1)) mod e = 0) ->
  generate_keypair_loop (S f) pfuel stack bits half e g
  = generate_keypair_loop f pfuel stack bits half e g2.
Proof.
  intros Hp Hq Hrej. cbn [generate_keypair_loop].
  rewrite (rbind_ret _ _ _ _ _ Hp), (rbind_ret _ _ _ _ _ Hq).
  destruct (Z.eqb_spec p q) as [Heq|Hne]; [reflexivity|].
  destruct Hrej as [Heq|[He Hphi]]; [contradiction|].
  unfold pymod. destruct (Z.eqb_spec e 0); [contradiction|].
  unfold rbind at 1, lift. rewrite Hphi. reflexivity.
Qed.

(** C4: a pair returned by [generate_keypair bits e] on the tape [g] is
    built from the two primes [p], [q] that [gen_prime] draws in the first
    round, counted from [g], that is not rejected -- every round before it
    drew [p = q] or a [(p-1)*(q-1)] divisible by [e], and went on to draw
    again from the rest of the tape; [g'] is the tape right after [q].  For
    these two: [n = p*q], [p <> q], [(p-1)*(q-1)] is not divisible by [e],
    [d] is what [modinv] returns, [(e*d) mod ((p-1)*(q-1)) = 1] with
    [0 <= d < (p-1)*(q-1)], and the two keys carry the same [n].  A round
    with [p = q] or with [(p-1)*(q-1)] divisible by [e] returns nothing:
    the loop goes on with the tape it leaves. *)
Theorem generate_keypair_valid (fuel stack : nat) (bits e : Z) (g g' : rng)
    (pub : PublicKey) (priv : PrivateKey) :
  generate_keypair fuel stack bits e g = Ret ((pub, priv), g') ->
  (exists p q g0 g1,
     redrawn fuel bits (bits / 2) e g g0 /\
     gen_prime fuel (bits / 2) g0 = Ret (p, g1) /\
     gen_prime fuel (bits - bits / 2) g1 = Ret (q, g') /\
     pub_n pub = p * q /\
     p <> q /\
     modinv stack e ((p - 1) * (q - 1)) = Ret (priv_d priv) /\
     (pub_e pub * priv_d priv) mod ((p - 1) * (q - 1)) = 1 /\
     0 <= priv_d priv < (p - 1) * (q - 1) /\
     pub_n pub = priv_n priv /\
     pub_e pub = e /\
     ((p - 1) * (q - 1)) mod e <> 0) /\
  (forall f h h1 h2 p q,
     gen_prime fuel (bits / 2) h = Ret (p, h1) ->
     gen_prime fuel (bits - bits / 2) h1 = Ret (q, h2) ->
     p = q \/ (e <> 0 /\ ((p - 1) * (q - 1)) mod e = 0) ->
     generate_keypair_loop (S f) fuel stack bits (bits / 2) e h
     = generate_keypair_loop f fuel stack bits (bits / 2) e h2).
Proof.
  intros H. split.
  - unfold generate_keypair in H.
    apply generate_keypair_loop_chain in H.
    destruct H as (p & q & g0 & g1 & Hch & Hp & Hq & Hne & Hphi & -> & Hn
                   & Hinv & Hd & Hr).
    exists p, q, g0, g1. simpl. repeat split; auto; lia.
  - intros f h h1 h2 p q Hp Hq Hrej.
    eapply generate_keypair_loop_redraw; eassumption.
Qed.

Lemma generate_keypair_valid_witness :
  exists p q g0 g1,
    redrawn 3 32 (32 / 2) 65537 tape_twice g0 /\
    gen_prime 3 (32 / 2) g0 = Ret (p, g1) /\
    gen_prime 3 (32 - 32 / 2) g1 = Ret (q, fun i => tape_twice (84 + i)%nat) /\
    pub_n pub32 = p * q /\
    p <> q /\
    modinv 1000 65537 ((p - 1) * (q - 1)) = Ret (priv_d priv32) /\
    (pub_e pub32 * priv_d priv32) mod ((p - 1) * (q - 1)) = 1 /\
    0 <= priv_d priv32 < (p - 1) * (q - 1) /\
    pub_n pub32 = priv_n priv32 /\
    pub_e pub32 = 65537 /\
    ((p - 1) * (q - 1)) mod 65537 <> 0.
Proof.
  apply (generate_keypair_valid 3 1000 32 65537 tape_twice
           (fun i => tape_twice (84 + i)%nat) pub32 priv32).
  vm_compute. reflexivity.
Defined.

(** A rejected candidate: the tape offers 32771 twice, the pair is not
    returned and the next two draws make the key. *)
Example generate_keypair_redraws :
  result (generate_keypair 3 1000 32 65537 tape_twice)
  = Ret (pub32, priv32).
Proof. vm_compute. reflexivity. Qed.

Lemma slice_all {A} (l : list A) (hi : Z) :
  len l <= hi -> slice l 0 hi = l.
Proof.
  intros H. unfold slice. rewrite Z.sub_0_r. cbn [Z.to_nat skipn].
  apply firstn_all2. unfold len in H. lia.
Qed.

Lemma payload_cap_eq (mode : string) (pb : Z) :
  In mode modes ->
  payload_cap mode pb = pb - 2 - (if is_rand mode then 1 else 0).
Proof.
  intros Hmode. unfold payload_cap.
  destruct (mode_cases mode Hmode) as [[[-> ->]|[-> ->]] _]; lia.
Qed.

Lemma encrypt_one_block (pub : PublicKey) (mode : string) (data : bytes)
    (g : rng) :
  0 < pub_n pub -> 0 <= pub_e pub -> _mod_bytes (pub_n pub) <= 65535 ->
  8 <= _mod_bytes (pub_n pub) - 1 ->
  len data
  = _mod_bytes (pub_n pub) - 1 - 2 - (if is_rand mode then 1 else 0) ->
  encrypt_loop (List.length data) data pub mode (_mod_bytes (pub_n pub))
    (_mod_bytes (pub_n pub) - 1)
    (_mod_bytes (pub_n pub) - 1 - 2 - (if is_rand mode then 1 else 0))
    (is_rand mode) 0 [] g
  = Ret (frame mode (_mod_bytes (pub_n pub))
           (cipher_of_plain
              (plain_of_chunk (is_rand mode) g data (_mod_bytes (pub_n pub) - 1))
              pub (_mod_bytes (pub_n pub))),
         after_nonce (is_rand mode) g).
Proof.
  intros Hn He Hbig Hsmall Hlen.
  assert (Hpos : 0 < len data) by (destruct (is_rand mode); lia).
  destruct data as [|b0 data']; [unfold len in Hpos; simpl in Hpos; lia|].
  remember (b0 :: data') as data eqn:Hdata.
  assert (Hl : List.length data = S (List.length data'))
    by (subst data; reflexivity).
  rewrite Hl, encrypt_loop_step by lia.
  rewrite Z.add_0_l, slice_all by lia.
  rewrite (rbind_ret _ _ _ _ _
             (encrypt_chunk_ok pub mode (is_rand mode) Hn He Hbig data g
                ltac:(lia))).
  rewrite encrypt_loop_done by lia. reflexivity.
Qed.

Lemma encrypt_two_blocks (pub : PublicKey) (mode : string) (data : bytes)
    (g : rng) :
  0 < pub_n pub -> 0 <= pub_e pub -> _mod_bytes (pub_n pub) <= 65535 ->
  8 <= _mod_bytes (pub_n pub) - 1 ->
  len data
  = _mod_bytes (pub_n pub) - 1 - 2 - (if is_rand mode then 1 else 0) + 1 ->
  exists chunk1 chunk2,
    len chunk2 = 1 /\
    encrypt_loop (List.length data) data pub mode (_mod_bytes (pub_n pub))
      (_mod_bytes (pub_n pub) - 1)
      (_mod_bytes (pub_n pub) - 1 - 2 - (if is_rand mode then 1 else 0))
      (is_rand mode) 0 [] g
    = Ret (frame mode (_mod_bytes (pub_n pub))
             (cipher_of_plain
                (plain_of_chunk (is_rand mode) g chunk1
                   (_mod_bytes (pub_n pub) - 1))
                pub (_mod_bytes (pub_n pub)))
           ++ frame mode (_mod_bytes (pub_n pub))
                (cipher_of_plain
                   (plain_of_chunk (is_rand mode)
                      (after_nonce (is_rand mode) g) chunk2
                      (_mod_bytes (pub_n pub) - 1))
                   pub (_mod_bytes (pub_n pub))),
           after_nonce (is_rand mode) (after_nonce (is_rand mode) g)).
Proof.
  intros Hn He Hbig Hsmall Hlen.
  set (cap := _mod_bytes (pub_n pub) - 1 - 2
              - (if is_rand mode then 1 else 0)) in *.
  assert (Hcap : 5 <= cap) by (unfold cap; destruct (is_rand mode); lia).
  destruct data as [|b0 [|b1 data']];
    try (unfold len in Hlen; simpl in Hlen; lia).
  remember (b0 :: b1 :: data') as data eqn:Hdata.
  assert (Hl : List.length data = S (S (List.length data')))
    by (subst data; reflexivity).
  exists (slice data 0 (0 + cap)), (slice data cap (cap + cap)).
  assert (Hc1 : len (slice data 0 (0 + cap)) = cap).
  { unfold slice, len. rewrite Z.sub_0_r. cbn [Z.to_nat skipn].
    rewrite Z.add_0_l, length_firstn. unfold len in Hlen. lia. }
  assert (Hc2 : len (slice data cap (cap + cap)) = 1).
  { unfold slice, len. rewrite length_firstn, length_skipn.
    unfold len in Hlen. lia. }
  split; [exact Hc2|].
  rewrite Hl, encrypt_loop_step by lia.
  rewrite (rbind_ret _ _ _ _ _
             (encrypt_chunk_ok pub mode (is_rand mode) Hn He Hbig
                (slice data 0 (0 + cap)) g ltac:(fold cap; lia))).
  rewrite Hc1, Z.add_0_l.
  rewrite encrypt_loop_step by lia.
  rewrite (rbind_ret _ _ _ _ _
             (encrypt_chunk_ok pub mode (is_rand mode) Hn He Hbig
                (slice data cap (cap + cap)) (after_nonce (is_rand mode) g)
                ltac:(fold cap; lia))).
  rewrite Hc2.
  rewrite encrypt_loop_done by lia. reflexivity.
Qed.

(** C5, as amended: for a public key with a positive modulus [n], an
    exponent [e >= 0], [plain_block >= 8] and a width [k <= 65535], and each
    of the four modes, [encrypt_bytes] of a buffer of exactly [payload_cap]
    bytes produces exactly one cipher block (of [k] bytes, after its 2-byte
    prefix in the length-prefixed modes), and a buffer of [payload_cap + 1]
    bytes produces exactly two, the second being the cipher block of a
    plaintext block whose length field is 1. *)
Theorem encrypt_block_count (pub : PublicKey) (mode : string)
    (data1 data2 : bytes) (g : rng) :
  0 < pub_n pub -> 0 <= pub_e pub ->
  8 <= _mod_bytes (pub_n pub) - 1 ->
  _mod_bytes (pub_n pub) <= 65535 ->
  In mode modes ->
  let k := _mod_bytes (pub_n pub) in
  let pb := k - 1 in
  let cap := payload_cap mode pb in
  len data1 = cap ->
  len data2 = cap + 1 ->
  (exists cb,
     result (encrypt_bytes data1 pub mode g) = Ret (frame mode k cb) /\
     len cb = k) /\
  (exists cb1 blk2,
     result (encrypt_bytes data2 pub mode g)
     = Ret (frame mode k cb1 ++ frame mode k (cipher_of_plain blk2 pub k)) /\
     len cb1 = k /\ len (cipher_of_plain blk2 pub k) = k /\
     len blk2 = pb /\
     int_from_bytes (slice blk2 0 2) = 1).
Proof.
  intros Hn He Hsmall Hbig Hmode. cbv zeta.
  rewrite payload_cap_eq by assumption. intros Hlen1 Hlen2.
  split; rewrite encrypt_bytes_unfold by assumption.
  - rewrite encrypt_one_block by assumption. simpl result.
    eexists. split; [reflexivity|]. now apply len_cipher_of_plain.
  - destruct (encrypt_two_blocks pub mode data2 g Hn He Hbig Hsmall Hlen2)
      as (chunk1 & chunk2 & Hc2 & ->).
    simpl result. eexists. eexists. split; [reflexivity|].
    split; [now apply len_cipher_of_plain|].
    split; [now apply len_cipher_of_plain|].
    split.
    + apply len_plain_of_chunk. rewrite Hc2. destruct (is_rand mode); lia.
    + rewrite plain_of_chunk_header by (rewrite Hc2; lia). exact Hc2.
Qed.

Lemma encrypt_block_count_witness :
  (exists cb,
     result (encrypt_bytes [x61; x62; x63; x64; x65; x66] demo_pub "raw_len"
               (tape_of []))
     = Ret (frame "raw_len" (_mod_bytes (pub_n demo_pub)) cb) /\
     len cb = _mod_bytes (pub_n demo_pub)) /\
  (exists cb1 blk2,
     result (encrypt_bytes [x61; x62; x63; x64; x65; x66; x67] demo_pub
               "raw_len" (tape_of []))
     = Ret (frame "raw_len" (_mod_bytes (pub_n demo_pub)) cb1
            ++ frame "raw_len" (_mod_bytes (pub_n demo_pub))
                 (cipher_of_plain blk2 demo_pub (_mod_bytes (pub_n demo_pub)))) /\
     len cb1 = _mod_bytes (pub_n demo_pub) /\
     len (cipher_of_plain blk2 demo_pub (_mod_bytes (pub_n demo_pub)))
     = _mod_bytes (pub_n demo_pub) /\
     len blk2 = _mod_bytes (pub_n demo_pub) - 1 /\
     int_from_bytes (slice blk2 0 2) = 1).
Proof.
  apply (encrypt_block_count demo_pub "raw_len"
           [x61; x62; x63; x64; x65; x66]
           [x61; x62; x63; x64; x65; x66; x67] (tape_of []));
    try (vm_compute; congruence).
  simpl. auto.
Defined.

(** C5 as stated fails on a wide modulus: with [k = 65539] the raw modes
    have [payload_cap = 65536], the guard on the modulus passes, and a
    buffer of exactly that many bytes makes the 2-byte length field
    overflow: no cipher block is produced. *)
Lemma encrypt_wide_key_overflows :
  8 <= _mod_bytes (pub_n wide_pub) - 1 /\
  len (repeat x00 (Z.to_nat 65536))
  = payload_cap "raw_fixed" (_mod_bytes (pub_n wide_pub) - 1) /\
  result (encrypt_bytes (repeat x00 (Z.to_nat 65536)) wide_pub "raw_fixed"
            (tape_of []))
  = Raise OverflowError.
Proof.
  split; [vm_compute; congruence|]. split; vm_compute; reflexivity.
Qed.

End RsaFacts.

(** * Facts about the binary packet *)

Module ProtocolFacts.
Import Py PyFacts SecureProtocol.

Lemma slice_beyond {A} (l : list A) (lo hi : Z) :
  len l <= lo -> slice l lo hi = [].
Proof.
  intros H. unfold slice. rewrite skipn_all2 by (unfold len in H; lia).
  apply firstn_nil.
Qed.

(** C6, as amended: for every byte string whose declared 4-byte header
    length overruns the remaining buffer, [unpack_pickle_bin] fails with an
    error -- the one [pickle.loads] raises on the cut header, or the
    [struct] error on the missing payload length -- and returns no
    (header, payload) pair. *)
Theorem unpack_header_overrun (pickle_loads : bytes -> wire + exn)
    (packet : bytes) :
  len packet < 4 + declared_hlen packet ->
  is_error (unpack_pickle_bin pickle_loads packet).
Proof.
  intros Hover. unfold unpack_pickle_bin, struct_unpack_I at 1.
  rewrite Z.add_0_l.
  destruct (len (slice packet 0 4) =? 4); [|eexists; reflexivity].
  cbn [bind]. fold (declared_hlen packet).
  destruct (pickle_loads _) as [header|e]; [|eexists; reflexivity].
  cbn [of_sum bind].
  rewrite (slice_beyond packet (4 + declared_hlen packet)) by lia.
  eexists; reflexivity.
Qed.

Lemma unpack_header_overrun_witness :
  is_error (unpack_pickle_bin pickle_loads_fragment short_header_packet).
Proof.
  apply unpack_header_overrun. vm_compute. reflexivity.
Defined.

(** C6 as stated fails on a payload length that overruns: the packet
    declares 10 payload bytes, 2 remain, and the call returns the header with
    those 2 bytes. *)
Lemma unpack_payload_overrun_accepted :
  len short_payload_packet
  < 4 + declared_hlen short_payload_packet
    + 4 + declared_blen short_payload_packet /\
  unpack_pickle_bin pickle_loads_fragment short_payload_packet
  = Ret (WDict [], [x41; x42]).
Proof. split; vm_compute; reflexivity. Qed.

End ProtocolFacts.

(** * Facts about the multi-file packet *)

Module MultiFacts.
Import Py PyFacts RsaFacts ProtocolFacts MultiFiles.

Lemma struct_pack_I_ok (v : Z) :
  0 <= v < 2 ^ 32 -> struct_pack_I v = Ret (be_digits 4 v).
Proof.
  intros Hv. unfold struct_pack_I.
  destruct (Z.leb_spec 0 v); [|lia]. destruct (Z.ltb_spec v (2 ^ 32)); [|lia].
  reflexivity.
Qed.

Lemma struct_unpack_I_be (v : Z) :
  0 <= v < 2 ^ 32 -> struct_unpack_I (be_digits 4 v) = Ret v.
Proof.
  intros Hv. unfold struct_unpack_I. rewrite len_be_digits.
  change (Z.of_nat 4 =? 4) with true. cbv iota.
  now rewrite int_from_bytes_be_digits
    by (change (256 ^ Z.of_nat 4) with (2 ^ 32); lia).
Qed.

Lemma pack_loop_entries (blobs : list bytes) :
  Forall small blobs ->
  forall out, pack_loop blobs out = Ret (out ++ entries blobs).
Proof.
  intros Hall. induction Hall as [|b blobs Hb Hall IH]; intros out.
  - unfold entries. simpl. now rewrite app_nil_r.
  - cbn [pack_loop].
    rewrite struct_pack_I_ok by (split; [apply len_nonneg|exact Hb]).
    cbn [bind]. rewrite IH. unfold entries. cbn [map List.concat].
    now rewrite <- !app_assoc.
Qed.

Lemma pack_multi_files_ok (blobs : list bytes) :
  len blobs < 2 ^ 32 -> Forall small blobs ->
  _pack_multi_files blobs = Ret (be_digits 4 (len blobs) ++ entries blobs).
Proof.
  intros Hc Hall. unfold _pack_multi_files.
  rewrite struct_pack_I_ok by (split; [apply len_nonneg|exact Hc]).
  cbn [bind]. rewrite app_nil_l. now apply pack_loop_entries.
Qed.

Lemma unpack_loop_entries (blobs : list bytes) :
  Forall small blobs ->
  forall pre tail out,
  unpack_loop (List.length blobs) (pre ++ entries blobs ++ tail) (len pre) out
  = Ret (out ++ blobs).
Proof.
  intros Hall. induction Hall as [|b blobs Hb Hall IH]; intros pre tail out.
  - simpl. now rewrite app_nil_r.
  - cbn [List.length unpack_loop]. unfold entries. cbn [map List.concat].
    fold (entries blobs).
    set (blob := pre ++ ((be_digits 4 (len b) ++ b) ++ entries blobs) ++ tail).
    assert (Hlen : len blob
                   = len pre + 4 + len b + len (entries blobs) + len tail).
    { unfold blob. rewrite !len_app, len_be_digits. lia. }
    pose proof (len_nonneg pre). pose proof (len_nonneg b).
    pose proof (len_nonneg (entries blobs)). pose proof (len_nonneg tail).
    destruct (Z.gtb_spec (len pre + 4) (len blob)); [lia|].
    assert (Hhdr : slice blob (len pre) (len pre + 4) = be_digits 4 (len b)).
    { unfold blob. rewrite <- !app_assoc.
      change 4 with (len (be_digits 4 (len b))) at 1. apply slice_app_mid. }
    rewrite Hhdr, struct_unpack_I_be by (unfold small in Hb; lia).
    cbn [bind].
    destruct (Z.gtb_spec (len pre + 4 + len b) (len blob)); [lia|].
    assert (Hblk : slice blob (len pre + 4) (len pre + 4 + len b) = b).
    { unfold blob. rewrite <- !app_assoc, app_assoc.
      replace (len pre + 4) with (len (pre ++ be_digits 4 (len b)))
        by (rewrite len_app, len_be_digits; lia).
      apply slice_app_mid. }
    rewrite Hblk.
    replace blob with ((pre ++ be_digits 4 (len b) ++ b) ++ entries blobs ++ tail)
      by (unfold blob; now rewrite <- !app_assoc).
    replace (len pre + 4 + len b) with (len (pre ++ be_digits 4 (len b) ++ b))
      by (rewrite !len_app, len_be_digits; lia).
    rewrite IH. now rewrite <- app_assoc.
Qed.

Lemma unpack_multi_files_packed (blobs : list bytes) (tail : bytes) :
  len blobs < 2 ^ 32 -> Forall small blobs ->
  _unpack_multi_files (be_digits 4 (len blobs) ++ entries blobs ++ tail)
  = Ret blobs.
Proof.
  intros Hc Hall. unfold _unpack_multi_files.
  set (blob := be_digits 4 (len blobs) ++ entries blobs ++ tail).
  assert (Hlen : 4 <= len blob).
  { unfold blob. rewrite len_app, len_be_digits.
    pose proof (len_nonneg (entries blobs ++ tail)). lia. }
  destruct (Z.ltb_spec (len blob) 4); [lia|].
  rewrite Z.add_0_l.
  assert (Hhdr : slice blob 0 4 = be_digits 4 (len blobs)).
  { unfold blob. change 4 with (len (be_digits 4 (len blobs))) at 1.
    apply slice_prefix. }
  pose proof (len_nonneg blobs).
  rewrite Hhdr, struct_unpack_I_be by lia. cbn [bind].
  unfold range_count, len at 1. rewrite Nat2Z.id.
  apply (unpack_loop_entries blobs Hall (be_digits 4 (len blobs)) tail []).
Qed.

Lemma skipn_slice_split {A} (l : list A) (lo hi : Z) :
  0 <= lo <= hi ->
  skipn (Z.to_nat lo) l = slice l lo hi ++ skipn (Z.to_nat hi) l.
Proof.
  intros H. unfold slice.
  replace (Z.to_nat hi) with (Z.to_nat (hi - lo) + Z.to_nat lo)%nat by lia.
  rewrite <- skipn_skipn. now rewrite firstn_skipn.
Qed.

Lemma len_slice {A} (l : list A) (lo hi : Z) :
  0 <= lo <= hi -> hi <= len l -> len (slice l lo hi) = hi - lo.
Proof.
  intros H1 H2. unfold slice, len in *.
  rewrite length_firstn, length_skipn. lia.
Qed.

Lemma unpack_loop_sound (count : nat) :
  forall blob off out, 0 <= off ->
  match unpack_loop count blob off out with
  | Ret res =>
      exists new tail,
        res = out ++ new /\ List.length new = count /\ Forall small new /\
        skipn (Z.to_nat off) blob = entries new ++ tail
  | Raise e => e = ValueError "bad files blob"
  | OutOfFuel => False
  end.
Proof.
  induction count as [|c IH]; intros blob off out Hoff.
  - simpl. exists [], (skipn (Z.to_nat off) blob).
    rewrite app_nil_r. repeat split. constructor.
  - cbn [unpack_loop].
    destruct (Z.gtb_spec (off + 4) (len blob)) as [|H4]; [reflexivity|].
    unfold struct_unpack_I.
    rewrite len_slice by lia.
    replace (off + 4 - off =? 4) with true by (symmetry; apply Z.eqb_eq; lia).
    cbn [bind].
    set (hdr := slice blob off (off + 4)).
    pose proof (int_from_bytes_range hdr) as Hn.
    assert (Hhl : len hdr = 4) by (unfold hdr; rewrite len_slice; lia).
    rewrite Hhl in Hn. change (256 ^ 4) with (2 ^ 32) in Hn.
    set (n := int_from_bytes hdr) in *.
    destruct (Z.gtb_spec (off + 4 + n) (len blob)) as [|Hfit]; [reflexivity|].
    specialize (IH blob (off + 4 + n)
                  (out ++ [slice blob (off + 4) (off + 4 + n)]) ltac:(lia)).
    destruct (unpack_loop c blob (off + 4 + n) _) as [res|e|]; try assumption.
    destruct IH as (new & tail & -> & Hcount & Hsmall & Hskip).
    set (entry := slice blob (off + 4) (off + 4 + n)) in *.
    assert (Hel : len entry = n) by (unfold entry; rewrite len_slice; lia).
    exists (entry :: new), tail. split; [now rewrite <- app_assoc|].
    split; [simpl; lia|]. split.
    + constructor; [unfold small; lia|assumption].
    + rewrite (skipn_slice_split blob off (off + 4)) by lia.
      rewrite (skipn_slice_split blob (off + 4) (off + 4 + n)) by lia.
      fold hdr entry. rewrite Hskip.
      unfold entries. cbn [map List.concat]. rewrite Hel.
      replace (be_digits 4 n) with hdr.
      * now rewrite <- !app_assoc.
      * unfold n. replace 4%nat with (List.length hdr)
          by (unfold len in Hhl; lia).
        symmetry. apply be_digits_int_from_bytes.
Qed.

Lemma unpack_multi_files_sound (blob : bytes) :
  match _unpack_multi_files blob with
  | Ret blobs =>
      exists tail,
        len blobs < 2 ^ 32 /\ Forall small blobs /\
        blob = be_digits 4 (len blobs) ++ entries blobs ++ tail
  | Raise e => e = ValueError "bad files blob"
  | OutOfFuel => False
  end.
Proof.
  unfold _unpack_multi_files.
  destruct (Z.ltb_spec (len blob) 4) as [|H4]; [reflexivity|].
  rewrite Z.add_0_l. unfold struct_unpack_I.
  rewrite len_slice by lia. cbn [Z.sub Z.eqb Pos.eqb bind Z.opp Z.add].
  set (hdr := slice blob 0 4).
  pose proof (int_from_bytes_range hdr) as Hn.
  assert (Hhl : len hdr = 4) by (unfold hdr; rewrite len_slice; lia).
  rewrite Hhl in Hn. change (256 ^ 4) with (2 ^ 32) in Hn.
  pose proof (unpack_loop_sound (range_count (int_from_bytes hdr)) blob 4 []
                ltac:(lia)) as Hs.
  destruct (unpack_loop _ blob 4 []) as [res|e|]; try assumption.
  destruct Hs as (new & tail & -> & Hcount & Hsmall & Hskip).
  rewrite app_nil_l. exists tail.
  assert (Hc : len new = int_from_bytes hdr)
    by (unfold len, range_count in *; lia).
  split; [lia|]. split; [assumption|].
  rewrite Hc.
  replace (be_digits 4 (int_from_bytes hdr)) with hdr.
  - rewrite <- Hskip.
    rewrite <- (firstn_skipn (Z.to_nat 4) blob) at 1.
    f_equal.
  - replace 4%nat with (List.length hdr) by (unfold len in Hhl; lia).
    symmetry. apply be_digits_int_from_bytes.
Qed.

Lemma pack_loop_too_long (b : bytes) (rest : list bytes) (out : bytes) :
  2 ^ 32 <= len b -> pack_loop (b :: rest) out = Raise StructError.
Proof.
  intros H. cbn [pack_loop]. unfold struct_pack_I.
  destruct (Z.ltb_spec (len b) (2 ^ 32)); [lia|].
  now rewrite andb_false_r.
Qed.

Lemma len_huge_blob : len huge_blob = 4294967296.
Proof.
  unfold huge_blob, len. rewrite repeat_length. apply Z2Nat.id. lia.
Qed.

(** C7, as amended: for every list of fewer than 2^32 byte buffers, each
    shorter than 2^32 bytes (the empty list included), unpacking the packet
    produced by packing the list returns the same buffers in the same order;
    packing the empty list yields exactly 4 bytes; and on any byte string,
    unpacking either returns buffers that the string really holds behind
    their count (the string is their packet, possibly followed by more
    bytes) or fails with the format error "bad files blob": a cut entry or
    a count that the remaining bytes cannot satisfy is never accepted. *)
Theorem multi_files_roundtrip (blobs : list bytes) :
  len blobs < 2 ^ 32 ->
  Forall small blobs ->
  multi_roundtrip blobs = Ret blobs /\
  (exists packet, _pack_multi_files [] = Ret packet /\ len packet = 4) /\
  (forall blob,
     (exists res tail,
        _unpack_multi_files blob = Ret res /\
        _pack_multi_files res = Ret (be_digits 4 (len res) ++ entries res) /\
        blob = (be_digits 4 (len res) ++ entries res) ++ tail) \/
     _unpack_multi_files blob = Raise (ValueError "bad files blob")).
Proof.
  intros Hc Hall. split; [|split].
  - unfold multi_roundtrip. rewrite pack_multi_files_ok by assumption.
    cbn [bind].
    rewrite <- (app_nil_r (entries blobs)).
    now apply unpack_multi_files_packed.
  - eexists. split; reflexivity.
  - intros blob. pose proof (unpack_multi_files_sound blob) as Hs.
    destruct (_unpack_multi_files blob) as [res|e|]; [left|right|contradiction].
    + destruct Hs as (tail & Hlen & Hsmall & ->).
      exists res, tail. split; [reflexivity|]. split.
      * now apply pack_multi_files_ok.
      * now rewrite <- app_assoc.
    + now subst e.
Qed.

Lemma multi_files_roundtrip_witness :
  multi_roundtrip [[]; [x68; x65; x6c; x6c; x6f]; repeat x2a 1000]
  = Ret [[]; [x68; x65; x6c; x6c; x6f]; repeat x2a 1000].
Proof.
  apply (multi_files_roundtrip [[]; [x68; x65; x6c; x6c; x6f]; repeat x2a 1000]).
  - vm_compute. reflexivity.
  - repeat constructor.
Defined.

(** C7 as stated fails on a buffer of 2^32 bytes: its length does not fit
    the 4-byte field and packing raises [struct.error]. *)
Lemma multi_files_huge_buffer :
  multi_roundtrip [huge_blob] = Raise StructError.
Proof.
  unfold multi_roundtrip, _pack_multi_files.
  change (len [huge_blob]) with 1.
  rewrite struct_pack_I_ok by lia. cbn [bind].
  rewrite pack_loop_too_long by (rewrite len_huge_blob; lia).
  reflexivity.
Qed.

End MultiFacts.

(** * Facts about the handshake *)

Module ServerFacts.
Import Py RsaBlock Server.

Section Refusal.

Variables (crypto_pub : PublicKey) (crypto_priv : PrivateKey)
          (crypto_mode : string).
Variable pickle_dumps : wire -> bytes + exn.
Variable pickle_loads : bytes -> wire + exn.
Variable int_of_str : string -> Z + exn.
Variable handle : wire -> outcome wire.
Variable upload_body : wire -> bytes -> PublicKey -> Conn unit.

Lemma handshake_refuses (after : PublicKey -> Conn unit) (s : conn)
    (fields : list (string * wire)) :
  first_frame s = Ret (WDict fields) ->
  is_str (dict_lookup fields "type") "hello" = false ->
  handshake crypto_pub int_of_str after s = send_msg expected_hello s.
Proof.
  intros Hfirst Htype. unfold handshake, cbind, recv_msg, clift.
  rewrite Hfirst. cbn [py_get]. rewrite Htype. reflexivity.
Qed.

Lemma refused_trace (after : PublicKey -> Conn unit) (s : conn)
    (fields : list (string * wire)) :
  first_frame s = Ret (WDict fields) ->
  is_str (dict_lookup fields "type") "hello" = false ->
  exists rest,
    trace (snd (cbind (set_client_pub None)
                  (fun _ =>
                     try_except (handshake crypto_pub int_of_str after)
                       (report_error crypto_mode pickle_dumps)) s))
    = trace s ++ SentPlain (WDict [("ok", WBool false);
                                      ("error", WStr "expected hello")]%string)
                 :: rest /\
    no_decrypt rest /\
    (send_fault s (sends s) = None -> rest = []).
Proof.
  intros Hfirst Htype.
  unfold cbind at 1, set_client_pub at 1, try_except at 1.
  rewrite (handshake_refuses after _ fields) by assumption.
  unfold send_msg, sendall. cbn [send_fault sends trace first_frame].
  destruct (send_fault s (sends s)) as [e|] eqn:Hfault.
  - destruct (is_Exception e).
    + unfold report_error, try_except, cbind, get_client_pub.
      cbn [client_pub]. unfold send_msg, sendall.
      cbn [send_fault sends trace].
      exists [SentPlain (error_reply e)].
      destruct (send_fault s (S (sends s))) as [e1|];
        [destruct (is_Exception e1)|]; cbn [snd trace];
        (split; [now rewrite <- app_assoc|]);
        (split; [repeat constructor|discriminate]).
    + exists []. cbn [snd trace]. split; [reflexivity|].
      split; [constructor|discriminate].
  - exists []. cbn [snd trace]. split; [reflexivity|].
    split; [constructor|reflexivity].
Qed.

End Refusal.

(** C8: on a connection whose first frame is a Wire Message (a dict) whose
    [type] field is not ["hello"], the handler of [serve] and the handler of
    [serve_upload] first write the plaintext frame
    [{"ok": False, "error": "expected hello"}], and nothing they do afterwards
    on that connection is a decryption: when the write succeeds they do
    nothing more, and when it fails the only further action is the
    plaintext error report of the [except] clause. *)
Theorem non_hello_is_refused
    (crypto_pub : PublicKey) (crypto_priv : PrivateKey) (crypto_mode : string)
    (pickle_dumps : wire -> bytes + exn) (pickle_loads : bytes -> wire + exn)
    (int_of_str : string -> Z + exn) (handle : wire -> outcome wire)
    (upload_body : wire -> bytes -> PublicKey -> Conn unit)
    (s : conn) (fields : list (string * wire)) :
  first_frame s = Ret (WDict fields) ->
  is_str (dict_lookup fields "type") "hello" = false ->
  (exists rest,
     trace (snd (serve_conn crypto_pub crypto_priv crypto_mode pickle_dumps
                   pickle_loads int_of_str handle s))
     = trace s ++ SentPlain (WDict [("ok", WBool false);
                                      ("error", WStr "expected hello")]%string)
                 :: rest /\
     no_decrypt rest /\
     (send_fault s (sends s) = None -> rest = [])) /\
  (exists rest,
     trace (snd (serve_upload_conn crypto_pub crypto_priv crypto_mode
                   pickle_dumps pickle_loads int_of_str upload_body s))
     = trace s ++ SentPlain (WDict [("ok", WBool false);
                                      ("error", WStr "expected hello")]%string)
                 :: rest /\
     no_decrypt rest /\
     (send_fault s (sends s) = None -> rest = [])).
Proof.
  intros Hfirst Htype. split.
  - unfold serve_conn. eapply refused_trace; eassumption.
  - unfold serve_upload_conn. eapply refused_trace; eassumption.
Qed.

Lemma non_hello_is_refused_witness :
  (exists rest,
     trace (snd (serve_conn (mkPublicKey 1074200609 65537)
                   (mkPrivateKey 1074200609 489955193) "rand_len" no_pickle
                   pickle_loads_fragment no_int pong_handle ping_conn))
     = trace ping_conn ++ SentPlain (WDict [("ok", WBool false);
                                      ("error", WStr "expected hello")]%string)
                 :: rest /\
     no_decrypt rest /\
     (send_fault ping_conn (sends ping_conn) = None -> rest = [])) /\
  (exists rest,
     trace (snd (serve_upload_conn (mkPublicKey 1074200609 65537)
                   (mkPrivateKey 1074200609 489955193) "rand_len" no_pickle
                   pickle_loads_fragment no_int no_upload ping_conn))
     = trace ping_conn ++ SentPlain (WDict [("ok", WBool false);
                                      ("error", WStr "expected hello")]%string)
                 :: rest /\
     no_decrypt rest /\
     (send_fault ping_conn (sends ping_conn) = None -> rest = [])).
Proof.
  apply (non_hello_is_refused _ _ _ _ _ _ _ _ ping_conn
           [("type", WStr "ping")]%string); reflexivity.
Defined.

(** The accepted path, for contrast: after a hello the handler does hand
    the next frame to [decrypt_bytes]. *)
Example hello_is_decrypted :
  trace (snd (serve_conn (mkPublicKey 1074200609 65537)
                (mkPrivateKey 1074200609 489955193) "raw_fixed" no_pickle
                pickle_loads_fragment no_int pong_handle
                (mkConn
                   (Ret (WDict [("type", WStr "hello");
                                ("pub", WDict [("n", WInt 1074200609);
                                               ("e", WInt 65537)])]%string))
                   (Ret [x01; x02; x03; x04]) (fun _ => None) 0 (tape_of [])
                   None [])))
  = [SentPlain (hello_ack (mkPublicKey 1074200609 65537));
     Decrypted [x01; x02; x03; x04]].
Proof. vm_compute. reflexivity. Qed.

End ServerFacts.

(** * More about the number theory kernel and the keys *)

Module KeyFacts.
Import Py PyFacts RsaBlock RsaAux MoreAux RsaFacts.

(** *** Extended Euclid computes the gcd *)

Lemma egcd_gcd (stack : nat) :
  forall a b g x y,
  0 < b \/ (b = 0 /\ 0 <= a) ->
  egcd stack a b = Ret (g, x, y) -> g = Z.gcd a b.
Proof.
  induction stack as [|f IH]; intros a b g x y Hab H; simpl in H;
    [discriminate|].
  destruct (Z.eqb_spec b 0) as [Hb|Hb].
  - inversion H; subst. rewrite Z.gcd_0_r. lia.
  - apply bind_ret_inv in H. destruct H as [[[g1 x1] y1] [H1 H2]].
    inversion H2; subst.
    pose proof (Z.mod_pos_bound a b ltac:(lia)) as Hr.
    apply IH in H1; [|lia].
    rewrite H1, Z.gcd_comm, Z.gcd_mod by lia. apply Z.gcd_comm.
Qed.

Lemma egcd_cases (stack : nat) (a b : Z) :
  0 < b \/ (b = 0 /\ 0 <= a) ->
  match egcd stack a b with
  | Ret (g, x, y) => g = Z.gcd a b /\ a * x + b * y = g
  | Raise e => e = RecursionError /\ (stack <= egcd_depth b)%nat
  | OutOfFuel => False
  end.
Proof.
  intros Hab. pose proof (egcd_outcome stack a b) as Hout.
  destruct (egcd stack a b) as [[[g x] y]|e|] eqn:H.
  - split.
    + eapply egcd_gcd; eassumption.
    + eapply egcd_bezout; eassumption.
  - split; [assumption|].
    destruct (Nat.le_gt_cases stack (egcd_depth b)) as [Hle|Hgt];
      [assumption|].
    destruct (egcd_returns stack a b ltac:(lia) Hgt) as [r Hr]. congruence.
  - assumption.
Qed.

(** X1: On a divisor [b > 0] (or [b = 0] with [a >= 0]), whatever
    [egcd a b] returns is the greatest common divisor with Bezout
    coefficients for it; the one way it fails is [RecursionError], and
    only when the recursion limit leaves it no more than
    [2 * bit_length b] nested calls. *)
Theorem egcd_correct (stack : nat) (a b : Z) :
  0 < b \/ (b = 0 /\ 0 <= a) ->
  match egcd stack a b with
  | Ret (g, x, y) => g = Z.gcd a b /\ a * x + b * y = g
  | Raise e => e = RecursionError /\ (stack <= egcd_depth b)%nat
  | OutOfFuel => False
  end.
Proof. apply egcd_cases. Qed.

Lemma egcd_correct_witness :
  match egcd 100 65537 1074135060 with
  | Ret (g, x, y) =>
      g = Z.gcd 65537 1074135060 /\ 65537 * x + 1074135060 * y = g
  | Raise e => e = RecursionError /\ (100 <= egcd_depth 1074135060)%nat
  | OutOfFuel => False
  end.
Proof. apply (egcd_correct 100 65537 1074135060). left. lia. Defined.

(** Under the interpreter's default limit of 1000 frames the recursion does
    run out: on the Fibonacci numbers F(1101), F(1100) every step takes one
    call. *)
Example egcd_recursion_limit :
  egcd 1000 (fib 1101) (fib 1100) = Raise RecursionError.
Proof. vm_compute. reflexivity. Qed.

(** X2: [modinv a m] for a modulus [m > 0] returns exactly when [gcd a m = 1]
    and the recursion limit allows, and then its result is the inverse of
    [a] in [[0, m)]; it raises "No modular inverse" when [gcd a m <> 1];
    its only other failure is the [RecursionError] of [egcd], when the
    limit leaves no more than [2 * bit_length m] nested calls. *)
Theorem modinv_complete (stack : nat) (a m : Z) :
  0 < m ->
  match modinv stack a m with
  | Ret d => Z.gcd a m = 1 /\ 0 <= d < m /\ (a * d) mod m = 1 mod m
  | Raise e =>
      (Z.gcd a m <> 1 /\ e = ValueError "No modular inverse") \/
      (e = RecursionError /\ (stack <= egcd_depth m)%nat)
  | OutOfFuel => False
  end.
Proof.
  intros Hm. pose proof (egcd_cases stack a m ltac:(lia)) as Hc.
  unfold modinv.
  destruct (egcd stack a m) as [[[g x] y]|e|]; cbn [bind];
    [|now right|assumption].
  destruct Hc as [Hg Hbz].
  destruct (Z.eqb_spec g 1) as [Heq|Hne]; cbn [negb].
  - unfold pymod. destruct (Z.eqb_spec m 0); [lia|].
    split; [congruence|]. split.
    + apply Z.mod_pos_bound. lia.
    + rewrite Zmult_mod_idemp_r.
      replace (a * x) with (1 + (- y) * m) by lia.
      now rewrite Z.mod_add by lia.
  - left. split; [congruence|reflexivity].
Qed.

Lemma modinv_complete_witness :
  match modinv 100 65537 1074135060 with
  | Ret d => Z.gcd 65537 1074135060 = 1 /\ 0 <= d < 1074135060 /\
             (65537 * d) mod 1074135060 = 1 mod 1074135060
  | Raise e =>
      (Z.gcd 65537 1074135060 <> 1 /\ e = ValueError "No modular inverse") \/
      (e = RecursionError /\ (100 <= egcd_depth 1074135060)%nat)
  | OutOfFuel => False
  end.
Proof. apply (modinv_complete 100 65537 1074135060). lia. Defined.

(** An even modulus has no inverse for an even number. *)
Example modinv_refuses :
  modinv 100 4 6 = Raise (ValueError "No modular inverse").
Proof. reflexivity. Qed.

(** *** The probable-prime test never rejects a prime *)

Lemma small_primes_loop_prime (n : Z) (ps : list Z) :
  Z.prime n -> Forall (fun p => 1 < p) ps ->
  small_primes_loop n ps = Some true \/
  (small_primes_loop n ps = None /\ Forall (fun p => n mod p <> 0) ps).
Proof.
  intros Hn Hps. induction Hps as [|p ps Hp Hps IH]; simpl.
  - right. split; [reflexivity|constructor].
  - destruct (Z.eqb_spec n p) as [Heq|Hne]; [now left|].
    destruct (Z.eqb_spec (n mod p) 0) as [Hdiv|Hnd].
    + exfalso. apply Z.mod_divide in Hdiv; [|lia].
      destruct Hn as [Hn1 Hn]. apply (Hn p); [|assumption].
      pose proof (Z.divide_pos_le p n ltac:(lia) Hdiv). lia.
    + destruct IH as [IH|[IH IHall]]; [now left|].
      right. split; [assumption|]. now constructor.
Qed.

Lemma split_twos_spec (fuel : nat) :
  forall d0 s0 d s,
  0 < d0 ->
  split_twos fuel d0 s0 = Ret (d, s) ->
  s0 <= s /\ d0 = d * 2 ^ (s - s0) /\ d mod 2 <> 0 /\ 0 < d.
Proof.
  induction fuel as [|f IH]; intros d0 s0 d s Hd0 H; simpl in H;
    destruct (Z.eqb_spec (d0 mod 2) 0) as [Heven|Hodd]; try discriminate.
  - inversion H; subst. rewrite Z.sub_diag, Z.pow_0_r. lia.
  - pose proof (Z.div_mod d0 2 ltac:(lia)) as Hdm.
    apply IH in H; [|lia]. destruct H as (Hs & Hd & Hodd & Hpos).
    repeat split; try lia.
    replace (s - s0) with (Z.succ (s - (s0 + 1))) by lia.
    rewrite Z.pow_succ_r by lia. lia.
  - inversion H; subst. rewrite Z.sub_diag, Z.pow_0_r. lia.
Qed.

Lemma sqrt_one_mod_prime (n x : Z) :
  Z.prime n -> 0 <= x < n -> (x * x) mod n = 1 -> x = 1 \/ x = n - 1.
Proof.
  intros Hn Hx Hsq. pose proof (Z.prime_ge_2 _ Hn) as Hn2.
  assert (Hdiv : (n | (x - 1) * (x + 1))).
  { apply Z.mod_divide; [lia|].
    replace ((x - 1) * (x + 1)) with (x * x - 1) by ring.
    apply Z.cong_iff_0. rewrite Hsq. symmetry. apply Z.mod_small. lia. }
  apply Z.divide_prime_mul in Hdiv; [|assumption].
  destruct Hdiv as [[c Hc]|[c Hc]].
  - left. assert (c = 0) by nia. lia.
  - right. assert (c = 1) by nia. lia.
Qed.

Lemma check_loop_prime (n : Z) (iters : nat) :
  Z.prime n ->
  forall x, 0 <= x < n -> x <> 1 -> x <> n - 1 ->
  x ^ (2 ^ Z.of_nat (S iters)) mod n = 1 ->
  check_loop iters x n = true.
Proof.
  intros Hn. pose proof (Z.prime_ge_2 _ Hn) as Hn2.
  induction iters as [|i IH]; intros x Hx H1 Hm1 Hpow.
  - exfalso. change (2 ^ Z.of_nat 1) with 2 in Hpow.
    rewrite Z.pow_2_r in Hpow.
    destruct (sqrt_one_mod_prime n x Hn Hx Hpow); contradiction.
  - cbn [check_loop].
    pose proof (Z.mod_pos_bound (x * x) n ltac:(lia)) as Hx'.
    destruct (Z.eqb_spec ((x * x) mod n) (n - 1)) as [|Hne]; [reflexivity|].
    apply IH; try assumption.
    + intros Hone. destruct (sqrt_one_mod_prime n x Hn Hx Hone); contradiction.
    + rewrite Z.mod_pow_l, <- Z.pow_2_r, <- Z.pow_mul_r by lia.
      rewrite <- Z.pow_succ_r by lia.
      now rewrite <- Nat2Z.inj_succ.
Qed.

Lemma check_prime (n d s a : Z) :
  Z.prime n -> 0 < d -> 1 <= s -> n - 1 = d * 2 ^ s ->
  2 <= a <= n - 2 ->
  check n d s a = Ret true.
Proof.
  intros Hn Hd Hs Hnd Ha. pose proof (Z.prime_ge_2 _ Hn) as Hn2.
  unfold check. rewrite pow3_nonneg by lia. cbn [bind].
  pose proof (Z.mod_pos_bound (a ^ d) n ltac:(lia)) as Hx.
  destruct (Z.eqb_spec (a ^ d mod n) 1) as [|H1]; [reflexivity|].
  destruct (Z.eqb_spec (a ^ d mod n) (n - 1)) as [|Hm1]; [reflexivity|].
  cbn [orb]. f_equal.
  apply check_loop_prime; try assumption.
  unfold range_count.
  replace (Z.of_nat (S (Z.to_nat (s - 1)))) with s by lia.
  rewrite Z.mod_pow_l, <- Z.pow_mul_r, <- Hnd by lia.
  apply Z.fermat_nz; [assumption|].
  rewrite Z.mod_small; lia.
Qed.

Lemma rounds_loop_prime (iters : nat) (n d s : Z) :
  Z.prime n -> 5 <= n -> 0 < d -> 1 <= s -> n - 1 = d * 2 ^ s ->
  forall g, exists g', rounds_loop iters n d s g = Ret (true, g').
Proof.
  intros Hn H5 Hd Hs Hnd.
  induction iters as [|i IH]; intros g; cbn [rounds_loop].
  - eexists. reflexivity.
  - rewrite (rbind_ret _ _ _ _ _ (randbelow_ok (n - 3) g ltac:(lia))).
    pose proof (Z.mod_pos_bound (g 0%nat) (n - 3) ltac:(lia)) as Hr.
    rewrite (rbind_lift_ret _ _ _ _
               (check_prime n d s (g 0%nat mod (n - 3) + 2) Hn Hd Hs Hnd
                  ltac:(lia))).
    cbn [negb]. apply IH.
Qed.

(** X3: [is_probable_prime] accepts every prime, whatever the number of rounds
    and whatever bases the random source offers. *)
Theorem is_probable_prime_accepts_primes (n k : Z) (g : rng) :
  Z.prime n ->
  exists g', is_probable_prime n k g = Ret (true, g').
Proof.
  intros Hn. pose proof (Z.prime_ge_2 _ Hn) as Hn2.
  unfold is_probable_prime. destruct (Z.ltb_spec n 2); [lia|].
  destruct (small_primes_loop_prime n small_primes Hn) as [->|[-> Hnd]].
  { unfold small_primes. repeat constructor. }
  { eexists. reflexivity. }
  assert (H2 : n mod 2 <> 0) by (inversion Hnd; assumption).
  assert (H3 : n mod 3 <> 0) by (inversion Hnd as [|? ? _ Hr]; inversion Hr; assumption).
  assert (H5 : 5 <= n).
  { destruct (Z.eq_dec n 2) as [->|]; [now compute in H2|].
    destruct (Z.eq_dec n 3) as [->|]; [now compute in H3|].
    destruct (Z.eq_dec n 4) as [->|]; [now compute in H2|]. lia. }
  destruct (split_twos_returns (Z.to_nat (bit_length n)) (n - 1) 0)
    as [[d s] Hds].
  { pose proof (bit_length_bounds n ltac:(lia)).
    pose proof (bit_length_pos n ltac:(lia)).
    rewrite Z2Nat.id by lia. lia. }
  rewrite Hds. cbn [lift rbind].
  apply split_twos_spec in Hds; [|lia].
  destruct Hds as (Hs & Hnd' & Hodd & Hd). rewrite Z.sub_0_r in Hnd'.
  apply rounds_loop_prime; try assumption.
  destruct (Z.eq_dec s 0) as [->|]; [|lia].
  exfalso. rewrite Z.pow_0_r, Z.mul_1_r in Hnd'. subst d.
  pose proof (Z.div_mod n 2 ltac:(lia)).
  pose proof (Z.div_mod (n - 1) 2 ltac:(lia)).
  pose proof (Z.mod_pos_bound n 2 ltac:(lia)).
  pose proof (Z.mod_pos_bound (n - 1) 2 ltac:(lia)). lia.
Qed.

Lemma is_probable_prime_accepts_primes_witness :
  exists g', is_probable_prime 32771 20 (tape_of [17; 4; 99]) = Ret (true, g').
Proof.
  apply is_probable_prime_accepts_primes.
  apply trial_prime_sound. vm_compute. reflexivity.
Defined.

Lemma small_primes_loop_divisor (n p : Z) (ps : list Z) :
  ~ In n ps -> In p ps -> n mod p = 0 ->
  small_primes_loop n ps = Some false.
Proof.
  intros Hnot Hin Hdiv. induction ps as [|p' ps IH]; [contradiction|].
  simpl. destruct (Z.eqb_spec n p') as [Heq|Hne].
  - exfalso. apply Hnot. now left.
  - destruct (Z.eqb_spec (n mod p') 0) as [|Hnd]; [reflexivity|].
    apply IH.
    + intros H. apply Hnot. now right.
    + destruct Hin as [->|Hin]; [contradiction|assumption].
Qed.

(** X4: The fast rejection path of [is_probable_prime]: a number below 2, or a
    number divisible by one of the twelve listed primes without being one of
    them, is rejected, and no random base is drawn for it. *)
Theorem is_probable_prime_trial_division (n k p : Z) (g : rng) :
  n < 2 \/ (~ In n small_primes /\ In p small_primes /\ n mod p = 0) ->
  is_probable_prime n k g = Ret (false, g).
Proof.
  intros [Hlt|(Hnot & Hin & Hdiv)]; unfold is_probable_prime.
  - destruct (Z.ltb_spec n 2); [reflexivity|lia].
  - destruct (Z.ltb_spec n 2); [reflexivity|].
    now rewrite (small_primes_loop_divisor n p small_primes).
Qed.

Lemma is_probable_prime_trial_division_witness :
  is_probable_prime 42803 20 (tape_of [5]) = Ret (false, tape_of [5]).
Proof.
  apply (is_probable_prime_trial_division 42803 20 23). right.
  split; [|split].
  - unfold small_primes. simpl. intros H.
    repeat (destruct H as [H|H]; [discriminate H|]). exact H.
  - unfold small_primes. simpl. tauto.
  - reflexivity.
Defined.

(** *** The shape of a generated prime *)

Lemma candidate_shape (r bits : Z) :
  1 <= bits -> 0 <= r < 2 ^ bits ->
  let x := Z.lor (Z.lor r (Z.shiftl 1 (bits - 1))) 1 in
  2 ^ (bits - 1) <= x < 2 ^ bits /\ Z.odd x = true.
Proof.
  intros Hb Hr x.
  assert (Ht : Z.shiftl 1 (bits - 1) = 2 ^ (bits - 1))
    by (apply Z.shiftl_1_l).
  assert (Htpos : 0 < 2 ^ (bits - 1)) by (apply Z.pow_pos_nonneg; lia).
  assert (Hx0 : 0 <= x).
  { unfold x. apply Z.lor_nonneg. split; [|lia].
    apply Z.lor_nonneg. rewrite Ht. lia. }
  assert (Hodd : Z.odd x = true).
  { rewrite <- Z.bit0_odd. unfold x. rewrite Z.lor_spec.
    apply orb_true_iff. right. reflexivity. }
  assert (Hxpos : 0 < x).
  { destruct (Z.eq_dec x 0) as [Hz|]; [|lia]. rewrite Hz in Hodd. discriminate. }
  assert (Hlog : Z.log2 x = bits - 1).
  { unfold x. rewrite !Z.log2_lor, Ht, Z.log2_pow2 by
      (try apply Z.lor_nonneg; rewrite ?Ht; lia).
    change (Z.log2 1) with 0.
    assert (Z.log2 r <= bits - 1).
    { destruct (Z.eq_dec r 0) as [->|]; [simpl; lia|].
      enough (Z.log2 r < bits) by lia.
      apply Z.log2_lt_pow2; lia. }
    lia. }
  split; [|assumption].
  pose proof (Z.log2_spec x Hxpos) as Hspec. rewrite Hlog in Hspec.
  replace (Z.succ (bits - 1)) with bits in Hspec by lia. exact Hspec.
Qed.

Lemma gen_prime_loop_shape (fuel : nat) (bits : Z) :
  1 <= bits ->
  forall g x g', gen_prime_loop fuel bits g = Ret (x, g') ->
  2 ^ (bits - 1) <= x < 2 ^ bits /\ Z.odd x = true.
Proof.
  intros Hb. induction fuel as [|f IH]; intros g x g' H; simpl in H;
    [discriminate|].
  apply rbind_ret_inv in H. destruct H as (r & g1 & Hr & H).
  apply rbind_ret_inv in H. destruct H as (ok & g2 & Hok & H).
  destruct ok; [|eapply IH; eassumption].
  unfold rret in H. inversion H; subst x g'.
  apply candidate_shape; [assumption|].
  unfold randbits in Hr. destruct (Z.ltb_spec bits 0); [lia|].
  unfold rbind, draw, rret in Hr. inversion Hr; subst r.
  apply Z.mod_pos_bound. apply Z.pow_pos_nonneg; lia.
Qed.

Lemma gen_prime_bits (fuel : nat) (bits : Z) (g g' : rng) (x : Z) :
  gen_prime fuel bits g = Ret (x, g') ->
  16 <= bits /\ 2 ^ (bits - 1) <= x < 2 ^ bits /\ Z.odd x = true /\
  bit_length x = bits.
Proof.
  unfold gen_prime. destruct (Z.ltb_spec bits 16) as [|Hb]; [discriminate|].
  intros H. apply gen_prime_loop_shape in H; [|lia].
  destruct H as [Hx Hodd]. repeat split; try lia; try assumption.
  assert (Hpos : 0 < 2 ^ (bits - 1)) by (apply Z.pow_pos_nonneg; lia).
  unfold bit_length. destruct (Z.eqb_spec x 0); [lia|].
  rewrite Z.abs_eq by lia.
  enough (Z.log2 x = bits - 1) by lia.
  apply Z.log2_unique; [lia|].
  now replace (Z.succ (bits - 1)) with bits by lia.
Qed.

(** X5: Whatever [gen_prime bits] returns is an odd number of exactly [bits]
    bits -- top and bottom bit set -- and [bits] is at least 16. *)
Theorem gen_prime_shape (fuel : nat) (bits : Z) (g g' : rng) (x : Z) :
  gen_prime fuel bits g = Ret (x, g') ->
  16 <= bits /\ 2 ^ (bits - 1) <= x < 2 ^ bits /\ Z.odd x = true /\
  bit_length x = bits.
Proof. apply gen_prime_bits. Qed.

Lemma gen_prime_shape_witness :
  16 <= 16 /\ 2 ^ (16 - 1) <= 32771 < 2 ^ 16 /\ Z.odd 32771 = true /\
  bit_length 32771 = 16.
Proof.
  apply (gen_prime_shape 1 16 (tape_of [3]) (fun i => tape_of [3] (21 + i)%nat)).
  vm_compute. reflexivity.
Defined.

(** *** The size of a generated modulus *)

Lemma generated_factors (fuel stack : nat) (bits e : Z) (g g' : rng)
    (pub : PublicKey) (priv : PrivateKey) :
  generate_keypair fuel stack bits e g = Ret ((pub, priv), g') ->
  exists p q,
    16 <= bits / 2 /\ 16 <= bits - bits / 2 /\
    2 ^ (bits / 2 - 1) <= p < 2 ^ (bits / 2) /\
    2 ^ (bits - bits / 2 - 1) <= q < 2 ^ (bits - bits / 2) /\
    p <> q /\
    pub_n pub = p * q /\ priv_n priv = p * q /\ pub_e pub = e /\
    (e * priv_d priv) mod ((p - 1) * (q - 1)) = 1 /\
    0 <= priv_d priv.
Proof.
  intros H. unfold generate_keypair in H.
  apply generate_keypair_loop_spec in H.
  destruct H as (p & q & g0 & g1 & g2 & Hp & Hq & Hne & Hphi & -> & Hn & Hd & Hr).
  apply gen_prime_bits in Hp. apply gen_prime_bits in Hq.
  exists p, q. simpl. repeat split; try tauto; lia.
Qed.

Lemma keypair_bits (fuel stack : nat) (bits e : Z) (g g' : rng)
    (pub : PublicKey) (priv : PrivateKey) :
  generate_keypair fuel stack bits e g = Ret ((pub, priv), g') ->
  32 <= bits /\
  2 ^ (bits - 2) <= pub_n pub < 2 ^ bits /\
  bits - 1 <= bit_length (pub_n pub) <= bits.
Proof.
  intros H. apply generated_factors in H.
  destruct H as (p & q & Hh1 & Hh2 & Hp & Hq & _ & Hn & _).
  set (h := bits / 2) in *.
  assert (Hb : 32 <= bits) by lia.
  assert (HA : 2 ^ h = 2 * 2 ^ (h - 1)).
  { rewrite <- Z.pow_succ_r by lia. f_equal. lia. }
  assert (HB : 2 ^ (bits - h) = 2 * 2 ^ (bits - h - 1)).
  { rewrite <- Z.pow_succ_r by lia. f_equal. lia. }
  assert (HAB : 2 ^ (bits - 2) = 2 ^ (h - 1) * 2 ^ (bits - h - 1)).
  { rewrite <- Z.pow_add_r by lia. f_equal. lia. }
  assert (H4 : 2 ^ bits = 4 * 2 ^ (bits - 2)).
  { replace bits with (2 + (bits - 2)) at 1 by lia.
    rewrite Z.pow_add_r by lia. reflexivity. }
  assert (HApos : 0 < 2 ^ (h - 1)) by (apply Z.pow_pos_nonneg; lia).
  assert (HBpos : 0 < 2 ^ (bits - h - 1)) by (apply Z.pow_pos_nonneg; lia).
  assert (Hrange : 2 ^ (bits - 2) <= pub_n pub < 2 ^ bits).
  { rewrite Hn, H4, HAB. rewrite HA, HB in *. nia. }
  split; [assumption|]. split; [assumption|].
  assert (Hpos : 0 < pub_n pub).
  { assert (0 < 2 ^ (bits - 2)) by (apply Z.pow_pos_nonneg; lia). lia. }
  unfold bit_length. destruct (Z.eqb_spec (pub_n pub) 0); [lia|].
  rewrite Z.abs_eq by lia.
  assert (bits - 2 <= Z.log2 (pub_n pub))
    by (apply Z.log2_le_pow2; lia).
  assert (Z.log2 (pub_n pub) < bits)
    by (apply Z.log2_lt_pow2; lia).
  lia.
Qed.

(** X6: The modulus of a pair returned by [generate_keypair bits] has [bits] or
    [bits - 1] bits, and [bits] is at least 32. *)
Theorem generate_keypair_size (fuel stack : nat) (bits e : Z) (g g' : rng)
    (pub : PublicKey) (priv : PrivateKey) :
  generate_keypair fuel stack bits e g = Ret ((pub, priv), g') ->
  32 <= bits /\
  2 ^ (bits - 2) <= pub_n pub < 2 ^ bits /\
  bits - 1 <= bit_length (pub_n pub) <= bits.
Proof. apply keypair_bits. Qed.

Lemma generate_keypair_size_witness :
  32 <= 66 /\
  2 ^ (66 - 2) <= pub_n pub66 < 2 ^ 66 /\
  66 - 1 <= bit_length (pub_n pub66) <= 66.
Proof.
  apply (generate_keypair_size 1 1000 66 65537 tape66
           (fun i => tape66 (42 + i)%nat) pub66 priv66).
  vm_compute. reflexivity.
Defined.

(** X7: A pair generated for at most 64 bits cannot be used: [encrypt_bytes]
    refuses its modulus for every input and every mode. *)
Theorem generate_keypair_too_small (fuel stack : nat) (bits e : Z) (g g' : rng)
    (pub : PublicKey) (priv : PrivateKey) (data : bytes) (mode : string)
    (h : rng) :
  generate_keypair fuel stack bits e g = Ret ((pub, priv), g') ->
  bits <= 64 ->
  encrypt_bytes data pub mode h = Raise (ValueError "RSA modulus too small").
Proof.
  intros H Hbits. apply keypair_bits in H.
  destruct H as (_ & _ & Hbl). unfold encrypt_bytes, _mod_bytes.
  assert ((bit_length (pub_n pub) + 7) / 8 < 9).
  { apply Z.div_lt_upper_bound; lia. }
  destruct (Z.ltb_spec ((bit_length (pub_n pub) + 7) / 8 - 1) 8); [|lia].
  reflexivity.
Qed.

Lemma generate_keypair_too_small_witness :
  encrypt_bytes demo_data pub32 "rand_len" (tape_of [7])
  = Raise (ValueError "RSA modulus too small").
Proof.
  apply (generate_keypair_too_small 3 1000 32 65537 tape32
           (fun i => tape32 (42 + i)%nat) pub32 priv32).
  - vm_compute. reflexivity.
  - lia.
Defined.

Lemma semiprime_factors (p q a b : Z) :
  Z.prime p -> Z.prime q -> 2 <= a -> 2 <= b -> a * b = p * q ->
  (a = p /\ b = q) \/ (a = q /\ b = p).
Proof.
  intros Hp Hq Ha Hb Hab.
  pose proof (Z.prime_ge_2 _ Hp) as Hp2. pose proof (Z.prime_ge_2 _ Hq) as Hq2.
  assert (Hdiv : (p | a * b)) by (exists q; lia).
  apply Z.divide_prime_mul in Hdiv; [|assumption].
  destruct Hdiv as [[c Hc]|[c Hc]].
  - (* a = c * p, so c * b = q *)
    assert (Hq' : q = c * b) by nia.
    assert (Hcb : (b | q)) by (exists c; lia).
    apply Z.divide_prime_r in Hcb; [|assumption].
    left. destruct Hcb as [?|[?|[?|?]]]; try lia. subst b. nia.
  - assert (Hq' : q = c * a) by nia.
    assert (Hca : (a | q)) by (exists c; lia).
    apply Z.divide_prime_r in Hca; [|assumption].
    right. destruct Hca as [?|[?|[?|?]]]; try lia. subst a. nia.
Qed.

(** X8: Key generation composed with the codec: a pair returned by
    [generate_keypair bits e], for [66 <= bits <= 524280] and [e > 0], whose
    modulus is the product of two primes (the probable primes drawn are
    prime), round-trips every byte string in each of the four modes. *)
Theorem generated_keys_roundtrip (fuel stack : nat) (bits e : Z) (g g' : rng)
    (pub : PublicKey) (priv : PrivateKey) (p q : Z)
    (data : bytes) (mode : string) (h : rng) :
  generate_keypair fuel stack bits e g = Ret ((pub, priv), g') ->
  0 < e -> 66 <= bits <= 524280 ->
  pub_n pub = p * q -> Z.prime p -> Z.prime q ->
  In mode modes ->
  roundtrip data pub priv mode h = Ret data.
Proof.
  intros H He Hbits Hn Hp Hq Hmode.
  pose proof (keypair_bits _ _ _ _ _ _ _ _ H) as (_ & _ & Hbl).
  apply generated_factors in H.
  destruct H as (p0 & q0 & Hh1 & Hh2 & Hp0 & Hq0 & Hne & Hn0 & Hpn & Hpe & Hed & Hd).
  assert (Hp0pos : 2 <= p0).
  { assert (2 ^ 1 <= 2 ^ (bits / 2 - 1)) by (apply Z.pow_le_mono_r; lia).
    change (2 ^ 1) with 2 in *. lia. }
  assert (Hq0pos : 2 <= q0).
  { assert (2 ^ 1 <= 2 ^ (bits - bits / 2 - 1))
      by (apply Z.pow_le_mono_r; lia).
    change (2 ^ 1) with 2 in *. lia. }
  assert (Hprimes : Z.prime p0 /\ Z.prime q0).
  { destruct (semiprime_factors p q p0 q0 Hp Hq Hp0pos Hq0pos ltac:(lia))
      as [[-> ->]|[-> ->]]; auto. }
  destruct Hprimes as [Hpp Hqp].
  assert (Hpair : rsa_pair p0 q0 pub priv).
  { unfold rsa_pair. rewrite Hpe.
    refine (conj Hpp (conj Hqp (conj Hne (conj Hn0 (conj Hpn
              (conj He (conj Hd Hed))))))). }
  assert (Hsmall : 8 <= _mod_bytes (pub_n pub) - 1).
  { unfold _mod_bytes.
    assert (9 <= (bit_length (pub_n pub) + 7) / 8)
      by (apply Z.div_le_lower_bound; lia).
    lia. }
  assert (Hbig : _mod_bytes (pub_n pub) <= 65535).
  { unfold _mod_bytes.
    assert ((bit_length (pub_n pub) + 7) / 8 < 65536)
      by (apply Z.div_lt_upper_bound; lia).
    lia. }
  destruct (encrypt_decrypt p0 q0 pub priv mode Hpair Hmode Hsmall Hbig data h)
    as (c & h' & Henc & Hdec).
  unfold roundtrip. now rewrite Henc.
Qed.

Lemma generated_keys_roundtrip_witness :
  roundtrip demo_data pub66 priv66 "rand_fixed" (tape_of [11; 12; 13])
  = Ret demo_data.
Proof.
  apply (generated_keys_roundtrip 1 1000 66 65537 tape66
           (fun i => tape66 (42 + i)%nat) pub66 priv66
           4294967311 4294967357).
  - vm_compute. reflexivity.
  - lia.
  - lia.
  - reflexivity.
  - apply trial_prime_sound. vm_compute. reflexivity.
  - apply trial_prime_sound. vm_compute. reflexivity.
  - simpl. auto.
Defined.

(** *** The two integer maps *)

(** X9: For a key pair over two distinct primes, [rsa_encrypt_int] and
    [rsa_decrypt_int] are inverse to each other on [[0, n)], in both
    orders, and each keeps its result in [[0, n)]. *)
Theorem rsa_int_inverse (p q : Z) (pub : PublicKey) (priv : PrivateKey)
    (m : Z) :
  rsa_pair p q pub priv ->
  0 <= m < pub_n pub ->
  (exists c, rsa_encrypt_int m pub = Ret c /\ 0 <= c < pub_n pub /\
             rsa_decrypt_int c priv = Ret m) /\
  (exists s, rsa_decrypt_int m priv = Ret s /\ 0 <= s < pub_n pub /\
             rsa_encrypt_int s pub = Ret m).
Proof.
  intros (Hp & Hq & Hne & Hpn & Hqn & He & Hd & Hed) Hm.
  pose proof (Z.prime_ge_2 _ Hp) as Hp2. pose proof (Z.prime_ge_2 _ Hq) as Hq2.
  assert (Hn : 0 < pub_n pub) by (rewrite Hpn; nia).
  assert (Hdec : forall c, 0 <= c < pub_n pub ->
                 rsa_decrypt_int c priv = Ret (c ^ priv_d priv mod pub_n pub)).
  { intros c Hc. unfold rsa_decrypt_int. rewrite Hqn, <- Hpn.
    destruct (Z.ltb_spec c 0); [lia|].
    destruct (Z.leb_spec (pub_n pub) c); [lia|].
    simpl. apply pow3_nonneg; lia. }
  split.
  - exists (m ^ pub_e pub mod pub_n pub).
    pose proof (Z.mod_pos_bound (m ^ pub_e pub) (pub_n pub) Hn) as Hc.
    split; [apply rsa_encrypt_int_ok; lia|]. split; [assumption|].
    rewrite Hdec by assumption. f_equal. rewrite Hpn.
    apply (rsa_int_roundtrip p q); auto; lia.
  - exists (m ^ priv_d priv mod pub_n pub).
    pose proof (Z.mod_pos_bound (m ^ priv_d priv) (pub_n pub) Hn) as Hs.
    split; [now apply Hdec|]. split; [assumption|].
    rewrite rsa_encrypt_int_ok by lia. f_equal. rewrite Hpn.
    apply (rsa_int_roundtrip p q); auto; try lia.
    now rewrite Z.mul_comm.
Qed.

Lemma rsa_int_inverse_witness :
  (exists c, rsa_encrypt_int 123456789 demo_pub = Ret c /\
             0 <= c < pub_n demo_pub /\
             rsa_decrypt_int c demo_priv = Ret 123456789) /\
  (exists s, rsa_decrypt_int 123456789 demo_priv = Ret s /\
             0 <= s < pub_n demo_pub /\
             rsa_encrypt_int s demo_pub = Ret 123456789).
Proof.
  apply (rsa_int_inverse demo_p demo_q).
  - exact demo_pair.
  - vm_compute. split; congruence.
Defined.

End KeyFacts.

(** * More about the block codec *)

Module CodecFacts.
Import Py PyFacts RsaBlock RsaAux MoreAux RsaFacts ProtocolFacts.

(** *** The size of a ciphertext *)

Lemma len_frame (mode : string) (k : Z) (cb : bytes) :
  len cb = k -> len (frame mode k cb) = frame_len mode k.
Proof.
  intros H. unfold frame, frame_len. destruct (is_fixed mode); [assumption|].
  rewrite len_app, len_be_digits. lia.
Qed.

Lemma chunk_count_step (rest cap : Z) :
  1 <= cap -> 1 <= rest ->
  chunk_count rest cap = 1 + chunk_count (rest - Z.min cap rest) cap.
Proof.
  intros Hcap Hrest. unfold chunk_count.
  destruct (Z.le_gt_cases cap rest) as [Hle|Hgt].
  - rewrite Z.min_l by lia.
    replace (rest + cap - 1) with (1 * cap + (rest - cap + cap - 1)) by lia.
    now rewrite Z.div_add_l by lia.
  - rewrite Z.min_r by lia.
    replace (rest - rest + cap - 1) with (cap - 1) by lia.
    rewrite (Z.div_small (cap - 1)) by lia.
    replace (rest + cap - 1) with (1 * cap + (rest - 1)) by lia.
    rewrite Z.div_add_l by lia. rewrite Z.div_small by lia. reflexivity.
Qed.

Lemma after_nonce_shift (rand : bool) (g : rng) (c : Z) (j : nat) :
  0 <= c ->
  after_nonce rand g (Z.to_nat (if rand then c else 0) + j)%nat
  = g (Z.to_nat (if rand then 1 + c else 0) + j)%nat.
Proof.
  intros Hc. destruct rand; simpl after_nonce; [|reflexivity].
  f_equal. lia.
Qed.

Lemma encrypt_loop_length (pub : PublicKey) (mode : string) (rand : bool)
    (data : bytes) (fuel : nat) :
  0 < pub_n pub -> 0 <= pub_e pub ->
  8 <= _mod_bytes (pub_n pub) - 1 ->
  _mod_bytes (pub_n pub) <= 65535 ->
  forall i out g,
  0 <= i <= len data -> len data - i <= Z.of_nat fuel ->
  exists res g',
    encrypt_loop fuel data pub mode (_mod_bytes (pub_n pub))
      (_mod_bytes (pub_n pub) - 1)
      (_mod_bytes (pub_n pub) - 1 - 2 - (if rand then 1 else 0)) rand i out g
    = Ret (res, g') /\
    len res
    = len out
      + chunk_count (len data - i)
          (_mod_bytes (pub_n pub) - 1 - 2 - (if rand then 1 else 0))
        * frame_len mode (_mod_bytes (pub_n pub)) /\
    forall j,
      g' j
      = g (Z.to_nat
             (if rand
              then chunk_count (len data - i)
                     (_mod_bytes (pub_n pub) - 1 - 2 - 1)
              else 0) + j)%nat.
Proof.
  intros Hn He Hsmall Hbig.
  set (cap := _mod_bytes (pub_n pub) - 1 - 2 - (if rand then 1 else 0)).
  assert (Hcap : 5 <= cap) by (unfold cap; destruct rand; lia).
  assert (Hcaprand : rand = true -> _mod_bytes (pub_n pub) - 1 - 2 - 1 = cap)
    by (intros ->; reflexivity).
  induction fuel as [|f IH]; intros i out g Hi Hfuel.
  - exists out, g. rewrite encrypt_loop_done by lia.
    replace (len data - i) with 0 by lia.
    unfold chunk_count. rewrite !Z.div_small by lia.
    split; [reflexivity|]. split; [lia|].
    intros j. now destruct rand.
  - destruct (Z.eq_dec i (len data)) as [Heq|Hne].
    + exists out, g. rewrite encrypt_loop_done by lia.
      replace (len data - i) with 0 by lia.
      unfold chunk_count. rewrite !Z.div_small by lia.
      split; [reflexivity|]. split; [lia|].
      intros j. now destruct rand.
    + rewrite encrypt_loop_step by lia.
      set (chunk := slice data i (i + cap)).
      assert (Hcl : len chunk = Z.min cap (len data - i)).
      { unfold chunk, slice. unfold len in *.
        rewrite length_firstn, length_skipn. lia. }
      rewrite (rbind_ret _ _ _ _ _
                 (encrypt_chunk_ok pub mode rand Hn He Hbig chunk g
                    ltac:(fold cap; lia))).
      destruct (IH (i + len chunk)
                  (out ++ frame mode (_mod_bytes (pub_n pub))
                            (cipher_of_plain
                               (plain_of_chunk rand g chunk
                                  (_mod_bytes (pub_n pub) - 1))
                               pub (_mod_bytes (pub_n pub))))
                  (after_nonce rand g) ltac:(lia) ltac:(lia))
        as (res & g' & Henc & Hlen & Htape).
      exists res, g'. split; [exact Henc|]. split.
      * rewrite Hlen, len_app.
        rewrite (len_frame mode _ _ (len_cipher_of_plain pub _ Hn)).
        rewrite (chunk_count_step (len data - i) cap) by lia.
        replace (len data - (i + len chunk))
          with (len data - i - Z.min cap (len data - i)) by lia.
        ring.
      * intros j. rewrite Htape.
        destruct rand eqn:Hr; [|reflexivity].
        rewrite (Hcaprand eq_refl).
        rewrite (chunk_count_step (len data - i) cap) by lia.
        replace (len data - (i + len chunk))
          with (len data - i - Z.min cap (len data - i)) by lia.
        assert (0 <= chunk_count (len data - i - Z.min cap (len data - i)) cap).
        { unfold chunk_count. apply Z.div_pos; lia. }
        simpl after_nonce. f_equal. lia.
Qed.

Lemma encrypt_bytes_len (pub : PublicKey) (mode : string) (data : bytes)
    (g : rng) :
  0 < pub_n pub -> 0 <= pub_e pub ->
  8 <= _mod_bytes (pub_n pub) - 1 ->
  _mod_bytes (pub_n pub) <= 65535 ->
  In mode modes ->
  exists out g',
    encrypt_bytes data pub mode g = Ret (out, g') /\
    len out
    = chunk_count (len data) (payload_cap mode (_mod_bytes (pub_n pub) - 1))
      * frame_len mode (_mod_bytes (pub_n pub)) /\
    forall j,
      g' j
      = g (Z.to_nat
             (if is_rand mode
              then chunk_count (len data)
                     (payload_cap mode (_mod_bytes (pub_n pub) - 1))
              else 0) + j)%nat.
Proof.
  intros Hn He Hsmall Hbig Hmode.
  rewrite encrypt_bytes_unfold by assumption.
  rewrite payload_cap_eq by assumption.
  pose proof (len_nonneg data) as H0.
  destruct (encrypt_loop_length pub mode (is_rand mode) data
              (List.length data) Hn He Hsmall Hbig 0 [] g
              ltac:(lia) ltac:(unfold len; lia))
    as (res & g' & Henc & Hlen & Htape).
  exists res, g'. split; [exact Henc|]. rewrite Z.sub_0_r in *. split.
  - rewrite Hlen. change (len (@nil byte)) with 0. lia.
  - intros j. rewrite Htape. destruct (is_rand mode); reflexivity.
Qed.

(** X10: The size of a ciphertext: for a public key with a positive modulus,
    [e >= 0], [plain_block >= 8] and [k <= 65535], [encrypt_bytes] returns
    [ceil(len(data) / payload_cap)] blocks of [k] bytes ([k + 2] in the
    length-prefixed modes), and in the randomized modes it consumes exactly
    one random draw per block (none in the raw modes). *)
Theorem encrypt_bytes_length (pub : PublicKey) (mode : string) (data : bytes)
    (g : rng) :
  0 < pub_n pub -> 0 <= pub_e pub ->
  8 <= _mod_bytes (pub_n pub) - 1 ->
  _mod_bytes (pub_n pub) <= 65535 ->
  In mode modes ->
  exists out g',
    encrypt_bytes data pub mode g = Ret (out, g') /\
    len out
    = chunk_count (len data) (payload_cap mode (_mod_bytes (pub_n pub) - 1))
      * frame_len mode (_mod_bytes (pub_n pub)) /\
    forall j,
      g' j
      = g (Z.to_nat
             (if is_rand mode
              then chunk_count (len data)
                     (payload_cap mode (_mod_bytes (pub_n pub) - 1))
              else 0) + j)%nat.
Proof. apply encrypt_bytes_len. Qed.

Lemma encrypt_bytes_length_witness :
  exists out g',
    encrypt_bytes demo_data demo_pub "rand_len" (tape_of [1; 2; 3; 4])
    = Ret (out, g') /\
    len out
    = chunk_count (len demo_data)
        (payload_cap "rand_len" (_mod_bytes (pub_n demo_pub) - 1))
      * frame_len "rand_len" (_mod_bytes (pub_n demo_pub)) /\
    forall j,
      g' j
      = tape_of [1; 2; 3; 4]
          (Z.to_nat
             (if is_rand "rand_len"
              then chunk_count (len demo_data)
                     (payload_cap "rand_len" (_mod_bytes (pub_n demo_pub) - 1))
              else 0) + j)%nat.
Proof.
  apply encrypt_bytes_length; try (vm_compute; congruence).
  simpl. auto.
Defined.

(** *** The length-prefixed framing, read back *)

Lemma len_blocks_loop_any (blocks : list bytes) :
  Forall (fun b => len b < 65536) blocks ->
  forall fuel pre acc, (List.length blocks <= fuel)%nat ->
  len_blocks_loop fuel (pre ++ len_frames blocks) (len pre) acc
  = Ret (acc ++ blocks).
Proof.
  intros Hall. induction Hall as [|b blocks Hb Hall IH];
    intros fuel pre acc Hfuel.
  - unfold len_frames. cbn [map List.concat]. rewrite !app_nil_r.
    destruct fuel; simpl; rewrite Z.ltb_irrefl; reflexivity.
  - destruct fuel as [|f]; [simpl in Hfuel; lia|].
    unfold len_frames. cbn [map List.concat]. fold (len_frames blocks).
    set (rest := len_frames blocks).
    set (data := pre ++ (be_digits 2 (len b) ++ b) ++ rest).
    assert (Hlen : len data = len pre + 2 + len b + len rest).
    { unfold data. rewrite !len_app, len_be_digits. lia. }
    pose proof (len_nonneg rest). pose proof (len_nonneg pre).
    pose proof (len_nonneg b).
    rewrite len_blocks_loop_S.
    destruct (Z.ltb_spec (len pre) (len data)); [|lia].
    destruct (Z.gtb_spec (len pre + 2) (len data)); [lia|].
    assert (Hhdr : slice data (len pre) (len pre + 2) = be_digits 2 (len b)).
    { unfold data. rewrite <- app_assoc.
      change 2 with (len (be_digits 2 (len b))) at 1. apply slice_app_mid. }
    rewrite Hhdr, int_from_bytes_be_digits
      by (change (256 ^ Z.of_nat 2) with 65536; lia).
    destruct (Z.gtb_spec (len pre + 2 + len b) (len data)); [lia|].
    assert (Hblk : slice data (len pre + 2) (len pre + 2 + len b) = b).
    { unfold data. rewrite <- app_assoc, app_assoc.
      replace (len pre + 2) with (len (pre ++ be_digits 2 (len b)))
        by (rewrite len_app, len_be_digits; lia).
      apply slice_app_mid. }
    rewrite Hblk.
    replace data with ((pre ++ be_digits 2 (len b) ++ b) ++ rest)
      by (unfold data; now rewrite <- !app_assoc).
    replace (len pre + 2 + len b) with (len (pre ++ be_digits 2 (len b) ++ b))
      by (rewrite !len_app, len_be_digits; lia).
    unfold rest. rewrite IH by (simpl in Hfuel; lia).
    now rewrite <- app_assoc.
Qed.

Lemma length_len_frames (blocks : list bytes) :
  (List.length blocks <= List.length (len_frames blocks))%nat.
Proof.
  unfold len_frames.
  induction blocks as [|b blocks IH]; cbn [map List.concat List.length]; [lia|].
  rewrite !length_app, be_digits_length. lia.
Qed.

Lemma len_blocks_loop_sound (data : bytes) (fuel : nat) :
  forall pos acc, 0 <= pos ->
  match len_blocks_loop fuel data pos acc with
  | Ret res =>
      exists new,
        res = acc ++ new /\ Forall (fun b => len b < 65536) new /\
        skipn (Z.to_nat pos) data = len_frames new
  | Raise e => e = ValueError "bad cipher format"
  | OutOfFuel => True
  end.
Proof.
  induction fuel as [|f IH]; intros pos acc Hpos.
  - simpl. destruct (Z.ltb_spec pos (len data)); [exact I|].
    exists []. rewrite app_nil_r. repeat split; [constructor|].
    apply skipn_all2. unfold len in *. lia.
  - rewrite len_blocks_loop_S.
    destruct (Z.ltb_spec pos (len data)) as [Hlt|Hge].
    + destruct (Z.gtb_spec (pos + 2) (len data)) as [|H2]; [reflexivity|].
      set (hdr := slice data pos (pos + 2)).
      pose proof (int_from_bytes_range hdr) as Hn.
      assert (Hhl : len hdr = 2)
        by (unfold hdr; rewrite MultiFacts.len_slice; lia).
      rewrite Hhl in Hn. change (256 ^ 2) with 65536 in Hn.
      set (n := int_from_bytes hdr) in *.
      destruct (Z.gtb_spec (pos + 2 + n) (len data)) as [|Hfit]; [reflexivity|].
      specialize (IH (pos + 2 + n)
                    (acc ++ [slice data (pos + 2) (pos + 2 + n)]) ltac:(lia)).
      destruct (len_blocks_loop f data (pos + 2 + n) _) as [res|e|];
        try assumption.
      destruct IH as (new & -> & Hall & Hskip).
      set (blk := slice data (pos + 2) (pos + 2 + n)) in *.
      assert (Hbl : len blk = n)
        by (unfold blk; rewrite MultiFacts.len_slice; lia).
      exists (blk :: new). split; [now rewrite <- app_assoc|]. split.
      * constructor; [lia|assumption].
      * rewrite (MultiFacts.skipn_slice_split data pos (pos + 2)) by lia.
        rewrite (MultiFacts.skipn_slice_split data (pos + 2) (pos + 2 + n))
          by lia.
        fold hdr blk. rewrite Hskip.
        unfold len_frames. cbn [map List.concat]. rewrite Hbl.
        replace (be_digits 2 n) with hdr.
        -- now rewrite <- !app_assoc.
        -- unfold n. replace 2%nat with (List.length hdr)
             by (unfold len in Hhl; lia).
           symmetry. apply be_digits_int_from_bytes.
    + exists []. rewrite app_nil_r. repeat split; [constructor|].
      apply skipn_all2. unfold len in *. lia.
Qed.

(** X11: In the two length-prefixed modes the reader takes the blocks as they
    are framed, whatever their widths: on a sequence of
    [[len:2][block]] frames, [decrypt_bytes] runs its block loop on exactly
    those blocks. *)
Theorem decrypt_len_frames (blocks : list bytes) (priv : PrivateKey)
    (mode : string) :
  mode = "raw_len"%string \/ mode = "rand_len"%string ->
  Forall (fun b => len b < 65536) blocks ->
  decrypt_bytes (len_frames blocks) priv mode
  = decrypt_loop blocks priv mode (_mod_bytes (priv_n priv) - 1) [].
Proof.
  intros Hmode Hall. unfold decrypt_bytes, cipher_blocks.
  assert (Hf : is_fixed mode = false) by (destruct Hmode as [->| ->]; reflexivity).
  assert (Hl : is_len mode = true) by (destruct Hmode as [->| ->]; reflexivity).
  rewrite Hf, Hl.
  pose proof (len_blocks_loop_any blocks Hall
                (List.length (len_frames blocks)) [] []
                (length_len_frames blocks)) as Hparse.
  cbn [app] in Hparse. change (len (@nil byte)) with 0 in Hparse.
  rewrite Hparse. reflexivity.
Qed.

Lemma decrypt_len_frames_witness :
  decrypt_bytes (len_frames [[x01]; []; [x02; x03]]) demo_priv "raw_len"
  = decrypt_loop [[x01]; []; [x02; x03]] demo_priv "raw_len"
      (_mod_bytes (priv_n demo_priv) - 1) [].
Proof.
  apply decrypt_len_frames.
  - now left.
  - repeat constructor.
Defined.

(** X12: In the two length-prefixed modes, an input that is not a sequence of
    [[len:2][block]] frames of blocks shorter than 65536 bytes -- a cut
    prefix, or a declared length that overruns the input -- fails with the
    format error "bad cipher format", for every private key. *)
Theorem decrypt_len_malformed (data : bytes) (priv : PrivateKey)
    (mode : string) :
  mode = "raw_len"%string \/ mode = "rand_len"%string ->
  (forall blocks,
     Forall (fun b => len b < 65536) blocks -> data <> len_frames blocks) ->
  decrypt_bytes data priv mode = Raise (ValueError "bad cipher format").
Proof.
  intros Hmode Hbad. unfold decrypt_bytes, cipher_blocks.
  assert (Hf : is_fixed mode = false) by (destruct Hmode as [->| ->]; reflexivity).
  assert (Hl : is_len mode = true) by (destruct Hmode as [->| ->]; reflexivity).
  rewrite Hf, Hl.
  pose proof (len_blocks_loop_sound data (List.length data) 0 [] ltac:(lia))
    as Hs.
  pose proof (len_blocks_loop_no_fuel data (List.length data) 0 []
                ltac:(lia) ltac:(unfold len; lia)) as Hnf.
  destruct (len_blocks_loop (List.length data) data 0 []) as [res|e|].
  - exfalso. destruct Hs as (new & _ & Hall & Hskip).
    apply (Hbad new Hall). exact Hskip.
  - now subst e.
  - contradiction.
Qed.

Lemma decrypt_len_malformed_witness :
  decrypt_bytes [x00; x05; x41] demo_priv "rand_len"
  = Raise (ValueError "bad cipher format").
Proof.
  apply decrypt_len_malformed.
  - now right.
  - intros blocks _ H. destruct blocks as [|b blocks]; [discriminate H|].
    unfold len_frames in H. cbn [map List.concat] in H.
    destruct b as [|b0 [|b1 b]]; discriminate H.
Defined.

(** *** Encrypting a concatenation *)

Lemma rbind_ext {A B} (m : Rand A) (f1 f2 : A -> Rand B) (g : rng) :
  (forall a g', f1 a g' = f2 a g') -> rbind m f1 g = rbind m f2 g.
Proof.
  intros H. unfold rbind. destruct (m g) as [[a g']|e|]; auto.
Qed.

Lemma rbind_assoc {A B C} (m : Rand A) (f : A -> Rand B) (h : B -> Rand C)
    (g : rng) :
  rbind (rbind m f) h g = rbind m (fun a => rbind (f a) h) g.
Proof.
  unfold rbind. destruct (m g) as [[a g']|e|]; reflexivity.
Qed.

Lemma rbind_at {A B} (m1 m2 : Rand A) (f : A -> Rand B) (g : rng) :
  m1 g = m2 g -> rbind m1 f g = rbind m2 f g.
Proof.
  intros H. unfold rbind. now rewrite H.
Qed.

Section Loop.

Variables (pub : PublicKey) (mode : string) (k pb cap : Z) (rand : bool).
Hypothesis Hcap : 1 <= cap.

Lemma len_chunk_pos (data : bytes) (i : Z) :
  0 <= i < len data -> 1 <= len (slice data i (i + cap)) <= cap.
Proof.
  intros Hi. unfold slice. unfold len in *.
  rewrite length_firstn, length_skipn. lia.
Qed.

Lemma encrypt_loop_fuel (data : bytes) (fuel1 : nat) :
  forall fuel2 i out g,
  0 <= i ->
  len data - i <= Z.of_nat fuel1 -> len data - i <= Z.of_nat fuel2 ->
  encrypt_loop fuel1 data pub mode k pb cap rand i out g
  = encrypt_loop fuel2 data pub mode k pb cap rand i out g.
Proof.
  induction fuel1 as [|f1 IH]; intros fuel2 i out g Hi H1 H2.
  - now rewrite !encrypt_loop_done by lia.
  - destruct (Z.lt_ge_cases i (len data)) as [Hlt|Hge].
    + destruct fuel2 as [|f2]; [lia|].
      rewrite !encrypt_loop_step by assumption.
      apply rbind_ext. intros piece g'.
      pose proof (len_chunk_pos data i ltac:(lia)).
      apply IH; lia.
    + now rewrite !encrypt_loop_done by lia.
Qed.

Lemma encrypt_loop_shift (d1 d2 : bytes) (fuel : nat) :
  forall i out g,
  0 <= i ->
  encrypt_loop fuel (d1 ++ d2) pub mode k pb cap rand (len d1 + i) out g
  = encrypt_loop fuel d2 pub mode k pb cap rand i out g.
Proof.
  induction fuel as [|f IH]; intros i out g Hi.
  - simpl. rewrite len_app.
    destruct (Z.ltb_spec (len d1 + i) (len d1 + len d2)),
             (Z.ltb_spec i (len d2)); try lia; reflexivity.
  - destruct (Z.lt_ge_cases i (len d2)) as [Hlt|Hge].
    + rewrite !encrypt_loop_step by (rewrite ?len_app; lia).
      rewrite <- Z.add_assoc, slice_app_skip by lia.
      apply rbind_ext. intros piece g'.
      rewrite <- Z.add_assoc. apply IH.
      pose proof (len_nonneg (slice d2 i (i + cap))). lia.
    + now rewrite !encrypt_loop_done by (rewrite ?len_app; lia).
Qed.

Lemma encrypt_loop_acc (data : bytes) (fuel : nat) :
  forall i out0 out g,
  encrypt_loop fuel data pub mode k pb cap rand i (out0 ++ out) g
  = rbind (encrypt_loop fuel data pub mode k pb cap rand i out)
      (fun o => rret (out0 ++ o)) g.
Proof.
  induction fuel as [|f IH]; intros i out0 out g.
  - simpl. destruct (i <? len data); reflexivity.
  - destruct (Z.lt_ge_cases i (len data)) as [Hlt|Hge].
    + rewrite encrypt_loop_step by assumption.
      erewrite (rbind_at (encrypt_loop (S f) _ _ _ _ _ _ _ _ _))
        by (apply encrypt_loop_step; assumption).
      rewrite rbind_assoc. apply rbind_ext. intros piece g'.
      rewrite <- app_assoc. apply IH.
    + rewrite encrypt_loop_done by lia.
      rewrite (rbind_at (encrypt_loop (S f) _ _ _ _ _ _ _ _ _) (rret out))
        by (apply encrypt_loop_done; lia).
      reflexivity.
Qed.

Lemma slice_app_within {A} (a b : list A) (lo hi : Z) :
  0 <= lo -> hi <= len a -> slice (a ++ b) lo hi = slice a lo hi.
Proof.
  intros Hlo Hhi. unfold slice. unfold len in *.
  rewrite skipn_app, firstn_app, length_skipn.
  replace (Z.to_nat (hi - lo) - (List.length a - Z.to_nat lo))%nat
    with 0%nat by lia.
  simpl. apply app_nil_r.
Qed.

Lemma encrypt_loop_prefix (d1 d2 : bytes) (fuel : nat) :
  forall i out g,
  0 <= i <= len d1 -> (len d1 - i) mod cap = 0 ->
  len (d1 ++ d2) - i <= Z.of_nat fuel ->
  encrypt_loop fuel (d1 ++ d2) pub mode k pb cap rand i out g
  = rbind (encrypt_loop fuel d1 pub mode k pb cap rand i out)
      (fun o1 =>
         encrypt_loop fuel (d1 ++ d2) pub mode k pb cap rand (len d1) o1) g.
Proof.
  induction fuel as [|f IH]; intros i out g Hi Hal Hfuel.
  - rewrite len_app in Hfuel. pose proof (len_nonneg d2).
    rewrite (rbind_at (encrypt_loop 0 d1 _ _ _ _ _ _ _ _) (rret out))
      by (apply encrypt_loop_done; lia).
    unfold rbind, rret. f_equal. lia.
  - destruct (Z.eq_dec i (len d1)) as [->|Hne].
    + rewrite (rbind_at (encrypt_loop (S f) d1 _ _ _ _ _ _ _ _) (rret out))
        by (apply encrypt_loop_done; lia).
      reflexivity.
    + assert (Hfull : cap <= len d1 - i).
      { apply Z.mod_divide in Hal; [|lia]. destruct Hal as [c Hc].
        assert (1 <= c) by nia. nia. }
      pose proof (len_nonneg d2).
      rewrite encrypt_loop_step by (rewrite len_app; lia).
      erewrite (rbind_at (encrypt_loop (S f) d1 _ _ _ _ _ _ _ _))
        by (apply encrypt_loop_step; lia).
      rewrite slice_app_within by lia.
      rewrite rbind_assoc. apply rbind_ext. intros piece g'.
      assert (Hcl : len (slice d1 i (i + cap)) = cap).
      { unfold slice. unfold len in *.
        rewrite length_firstn, length_skipn. lia. }
      rewrite Hcl. rewrite len_app in Hfuel.
      rewrite IH.
      * apply rbind_ext. intros o1 g''.
        apply encrypt_loop_fuel; rewrite ?len_app; lia.
      * lia.
      * replace (len d1 - (i + cap)) with (len d1 - i + (-1) * cap) by lia.
        now rewrite Z.mod_add by lia.
      * rewrite len_app. lia.
Qed.

Lemma encrypt_loop_concat (d1 d2 : bytes) (g : rng) :
  len d1 mod cap = 0 ->
  encrypt_loop (List.length (d1 ++ d2)) (d1 ++ d2) pub mode k pb cap rand 0 [] g
  = rbind (encrypt_loop (List.length d1) d1 pub mode k pb cap rand 0 [])
      (fun o1 =>
         rbind (encrypt_loop (List.length d2) d2 pub mode k pb cap rand 0 [])
           (fun o2 => rret (o1 ++ o2))) g.
Proof.
  intros Hal. pose proof (len_nonneg d1). pose proof (len_nonneg d2).
  rewrite encrypt_loop_prefix
    by (rewrite ?Z.sub_0_r; try assumption; unfold len; lia).
  erewrite (rbind_at (encrypt_loop (List.length (d1 ++ d2)) d1 _ _ _ _ _ _ _ _))
    by (apply (encrypt_loop_fuel d1 _ (List.length d1));
        unfold len; rewrite ?length_app; lia).
  apply rbind_ext. intros o1 g'.
  rewrite <- (Z.add_0_r (len d1)), encrypt_loop_shift by lia.
  rewrite (encrypt_loop_fuel d2 _ (List.length d2))
    by (unfold len; rewrite ?length_app; lia).
  rewrite <- (app_nil_r o1) at 1. apply encrypt_loop_acc.
Qed.

End Loop.

(** X13: Encryption works chunk by chunk: when [data1] ends on a chunk boundary
    (its length is a multiple of [payload_cap]), encrypting
    [data1 ++ data2] is encrypting [data1], then [data2] on the rest of the
    random tape, and concatenating the two ciphertexts -- errors
    included. *)
Theorem encrypt_bytes_concat (data1 data2 : bytes) (pub : PublicKey)
    (mode : string) (g : rng) :
  len data1 mod payload_cap mode (_mod_bytes (pub_n pub) - 1) = 0 ->
  encrypt_bytes (data1 ++ data2) pub mode g
  = rbind (encrypt_bytes data1 pub mode)
      (fun o1 =>
         rbind (encrypt_bytes data2 pub mode) (fun o2 => rret (o1 ++ o2))) g.
Proof.
  intros Hal. unfold encrypt_bytes, payload_cap in *.
  destruct (Z.ltb_spec (_mod_bytes (pub_n pub) - 1) 8); [reflexivity|].
  destruct (is_raw mode).
  - apply encrypt_loop_concat; [lia|assumption].
  - destruct (is_rand mode); [|reflexivity].
    apply encrypt_loop_concat; [lia|assumption].
Qed.

Lemma encrypt_bytes_concat_witness :
  encrypt_bytes ([x61; x62; x63; x64; x65] ++ [x66; x67]) demo_pub "rand_len"
    (tape_of [8; 9])
  = rbind (encrypt_bytes [x61; x62; x63; x64; x65] demo_pub "rand_len")
      (fun o1 =>
         rbind (encrypt_bytes [x66; x67] demo_pub "rand_len")
           (fun o2 => rret (o1 ++ o2))) (tape_of [8; 9]).
Proof.
  apply encrypt_bytes_concat. vm_compute. reflexivity.
Defined.

End CodecFacts.

(** ** The binary packet, both ways *)

Module PacketFacts.
Import Py PyFacts SecureProtocol.

Lemma struct_pack_I_inv (v : Z) (b : bytes) :
  struct_pack_I v = Ret b -> 0 <= v < 2 ^ 32 /\ b = be_digits 4 v.
Proof.
  unfold struct_pack_I.
  destruct (Z.leb_spec 0 v), (Z.ltb_spec v (2 ^ 32)); cbn [andb];
    try discriminate.
  intros [= <-]. split; [lia|reflexivity].
Qed.

Lemma struct_unpack_I_inv (bs : bytes) (v : Z) :
  struct_unpack_I bs = Ret v -> len bs = 4 /\ v = int_from_bytes bs.
Proof.
  unfold struct_unpack_I. destruct (Z.eqb_spec (len bs) 4); [|discriminate].
  now intros [= <-].
Qed.

Lemma unpack_be4 (v : Z) :
  0 <= v < 2 ^ 32 -> struct_unpack_I (be_digits 4 v) = Ret v.
Proof.
  intros Hv. unfold struct_unpack_I. rewrite len_be_digits.
  change (Z.of_nat 4 =? 4) with true. cbv iota.
  now rewrite int_from_bytes_be_digits
    by (change (256 ^ Z.of_nat 4) with (2 ^ 32); lia).
Qed.

Lemma len_be4 (v : Z) : len (be_digits 4 v) = 4.
Proof. now rewrite len_be_digits. Qed.

Lemma slice_app_at {A} (pre x post : list A) (lo hi : Z) :
  lo = len pre -> hi = len pre + len x ->
  slice (pre ++ x ++ post) lo hi = x.
Proof. intros -> ->. apply slice_app_mid. Qed.

Lemma pack_unpack_bin (pickle_dumps : wire -> bytes + exn)
    (pickle_loads : bytes -> wire + exn) (header_obj : wire)
    (hb bin_data packet rest : bytes) :
  pickle_dumps header_obj = inl hb ->
  pickle_loads hb = inl header_obj ->
  pack_pickle_bin pickle_dumps header_obj bin_data = Ret packet ->
  len packet = 8 + len hb + len bin_data /\
  unpack_pickle_bin pickle_loads (packet ++ rest)
  = Ret (header_obj, bin_data).
Proof.
  intros Hd Hl Hp. unfold pack_pickle_bin in Hp. rewrite Hd in Hp.
  cbn [of_sum bind] in Hp.
  destruct (struct_pack_I (len hb)) as [hl| |] eqn:Hhl; try discriminate.
  destruct (struct_pack_I (len bin_data)) as [bl| |] eqn:Hbl;
    try discriminate.
  cbn [bind] in Hp. injection Hp as <-.
  apply struct_pack_I_inv in Hhl as [Hh ->].
  apply struct_pack_I_inv in Hbl as [Hb ->].
  split.
  - rewrite !len_app, !len_be4. lia.
  - unfold unpack_pickle_bin. rewrite <- !app_assoc.
    set (A := be_digits 4 (len hb)). set (B := be_digits 4 (len bin_data)).
    assert (HA : len A = 4) by apply len_be4.
    assert (HB : len B = 4) by apply len_be4.
    change (A ++ hb ++ B ++ bin_data ++ rest)
      with ([] ++ A ++ hb ++ B ++ bin_data ++ rest) at 1.
    rewrite (slice_app_at [] A) by (cbn; lia).
    unfold A at 1. rewrite unpack_be4 by assumption. cbn [bind].
    rewrite (slice_app_at A hb) by lia.
    rewrite Hl. cbn [of_sum bind].
    rewrite (app_assoc A hb).
    rewrite (slice_app_at (A ++ hb) B) by (rewrite ?len_app; lia).
    unfold B at 1. rewrite unpack_be4 by assumption. cbn [bind].
    rewrite (app_assoc (A ++ hb) B).
    rewrite (slice_app_at ((A ++ hb) ++ B) bin_data)
      by (rewrite ?len_app; lia).
    reflexivity.
Qed.

(** X14: What [pack_pickle_bin] builds, [unpack_pickle_bin] takes apart again
    into the same header and payload, whatever follows the packet in the
    buffer; the packet is the two pickled parts and eight bytes of
    lengths. *)
Theorem pickle_bin_roundtrip (pickle_dumps : wire -> bytes + exn)
    (pickle_loads : bytes -> wire + exn) (header_obj : wire)
    (hb bin_data packet rest : bytes) :
  pickle_dumps header_obj = inl hb ->
  pickle_loads hb = inl header_obj ->
  pack_pickle_bin pickle_dumps header_obj bin_data = Ret packet ->
  len packet = 8 + len hb + len bin_data /\
  unpack_pickle_bin pickle_loads (packet ++ rest)
  = Ret (header_obj, bin_data).
Proof. apply pack_unpack_bin. Qed.

Lemma pickle_bin_roundtrip_witness :
  len ([x00; x00; x00; x05; x80; x05; x7d; x94; x2e; x00; x00; x00; x02; x41; x42])
  = 8 + len [x80; x05; x7d; x94; x2e] + len [x41; x42] /\
  unpack_pickle_bin pickle_loads_fragment
    (([x00; x00; x00; x05; x80; x05; x7d; x94; x2e; x00; x00; x00; x02; x41; x42]) ++ [xff])
  = Ret (WDict [], [x41; x42]).
Proof.
  apply (pickle_bin_roundtrip
           (fun _ => inl [x80; x05; x7d; x94; x2e]) pickle_loads_fragment
           (WDict []) [x80; x05; x7d; x94; x2e] [x41; x42]);
    reflexivity.
Defined.

(** X15: The payload [unpack_pickle_bin] returns is never longer than the
    packet declares, but it is shorter when the buffer ends early: its
    length is the smaller of the declared length and what is left after the
    two length fields and the header. *)
Theorem unpack_payload_length (pickle_loads : bytes -> wire + exn)
    (packet : bytes) (header : wire) (b : bytes) :
  unpack_pickle_bin pickle_loads packet = Ret (header, b) ->
  len b = Z.min (declared_blen packet)
            (len packet - (8 + declared_hlen packet)).
Proof.
  unfold unpack_pickle_bin, declared_blen, declared_hlen. intros H.
  cbv zeta in H. rewrite !Z.add_0_l in H.
  destruct (struct_unpack_I (slice packet 0 4)) as [hlen| |] eqn:Hh;
    try discriminate.
  apply struct_unpack_I_inv in Hh as [_ ->].
  unfold bind in H; cbv beta iota in H.
  destruct (pickle_loads _) as [h|e]; [|discriminate].
  unfold of_sum, bind in H; cbv beta iota in H.
  pose proof (int_from_bytes_range (slice packet 0 4)) as [Hh0 _].
  set (hlen := int_from_bytes (slice packet 0 4)) in *.
  destruct (struct_unpack_I (slice packet (4 + hlen) (4 + hlen + 4)))
    as [blen| |] eqn:Hb; try discriminate.
  apply struct_unpack_I_inv in Hb as [H4 ->].
  pose proof (int_from_bytes_range (slice packet (4 + hlen) (4 + hlen + 4)))
    as [Hb0 _].
  set (blen := int_from_bytes (slice packet (4 + hlen) (4 + hlen + 4))) in *.
  assert (Hbq : b = slice packet (4 + hlen + 4) (4 + hlen + 4 + blen))
    by congruence.
  rewrite Hbq. clear H Hbq. revert H4. unfold slice, len.
  rewrite !length_firstn, !length_skipn. lia.
Qed.

Lemma unpack_payload_length_witness :
  len [x41; x42]
  = Z.min (declared_blen short_payload_packet)
      (len short_payload_packet - (8 + declared_hlen short_payload_packet)).
Proof.
  apply (unpack_payload_length pickle_loads_fragment short_payload_packet
           (WDict [])).
  reflexivity.
Defined.

End PacketFacts.

(** ** Frames on the byte stream *)

Module WireFacts.
Import Py PyFacts RsaBlock RsaAux SecureProtocol Wire PacketFacts.

Lemma firstn_split_skipn {A} (l : list A) (m k : nat) :
  (m <= k)%nat -> firstn m l ++ firstn (k - m) (skipn m l) = firstn k l.
Proof.
  intros H. rewrite <- (firstn_skipn m l) at 3.
  rewrite firstn_app, length_firstn.
  destruct (Nat.le_gt_cases m (List.length l)) as [Hl|Hl].
  - rewrite Nat.min_l by assumption.
    rewrite (firstn_all2 (n := k)) by (rewrite length_firstn; lia).
    reflexivity.
  - rewrite !(skipn_all2 (n := m)) by lia. rewrite !firstn_nil, !app_nil_r.
    rewrite firstn_firstn. f_equal. lia.
Qed.

Lemma delivered_refl (s : sock) : delivered s s 0.
Proof. repeat split. Qed.

(** The loop of [recv_exact] with enough bytes to arrive. *)
Lemma recv_exact_loop_ok (fuel : nat) :
  forall n data s,
  len data <= n -> n - len data <= len (incoming s) ->
  n - len data <= Z.of_nat fuel ->
  exists s',
    recv_exact_loop fuel n data s
    = (Ret (data ++ slice (incoming s) 0 (n - len data)), s') /\
    delivered s s' (n - len data).
Proof.
  induction fuel as [|f IH]; intros n data s Hle Hin Hfuel.
  - assert (len data = n) by lia. cbn [recv_exact_loop].
    destruct (Z.ltb_spec (len data) n); [lia|].
    exists s. replace (n - len data) with 0 by lia.
    split; [|apply delivered_refl].
    unfold sret, slice. cbn. now rewrite app_nil_r.
  - cbn [recv_exact_loop].
    destruct (Z.ltb_spec (len data) n) as [Hlt|Hge].
    + unfold sbind, recv.
      set (m := Z.min (n - len data) (Z.max 1 (cuts s (reads s)))).
      assert (Hm : 1 <= m <= n - len data) by (subst m; lia).
      assert (Hcl : len (slice (incoming s) 0 m) = m).
      { unfold slice, len in *. rewrite length_firstn. cbn [skipn Z.to_nat].
        lia. }
      rewrite Hcl. destruct (Z.eqb_spec m 0); [lia|].
      set (s1 := mkSock _ _ _ _ _).
      destruct (IH n (data ++ slice (incoming s) 0 m) s1) as (s' & Hrun & Hd).
      * rewrite len_app. lia.
      * rewrite len_app, Hcl. subst s1. cbn [incoming].
        unfold len in *. rewrite length_skipn. lia.
      * rewrite len_app. lia.
      * rewrite len_app, Hcl in Hrun, Hd. exists s'. rewrite Hrun. split.
        -- f_equal. rewrite <- app_assoc. unfold slice.
           rewrite !Z.sub_0_r. cbn [Z.to_nat skipn]. subst s1.
           cbn [incoming].
           replace (Z.to_nat (n - (len data + m)))
             with (Z.to_nat (n - len data) - Z.to_nat m)%nat by lia.
           apply f_equal, (f_equal (app data)), firstn_split_skipn. lia.
        -- destruct Hd as (Hi & Ho & He). subst s1.
           cbn [incoming outgoing entropy] in *. repeat split; auto.
           rewrite Hi, skipn_skipn. f_equal. lia.
    + exists s. replace (n - len data) with 0 by lia.
      split; [|apply delivered_refl].
      unfold sret, slice. cbn. now rewrite app_nil_r.
Qed.

Lemma recv_exact_ok (n : Z) (s : sock) :
  n <= len (incoming s) ->
  exists s',
    recv_exact n s = (Ret (slice (incoming s) 0 n), s') /\
    delivered s s' n.
Proof.
  intros Hn. unfold recv_exact.
  destruct (Z.le_gt_cases 0 n) as [H0|H0].
  - destruct (recv_exact_loop_ok (Z.to_nat n) n [] s) as (s' & Hrun & Hd);
      try (cbn; lia).
    exists s'. cbn [app] in Hrun. change (len (@nil byte)) with 0 in *.
    rewrite Z.sub_0_r in *. split; assumption.
  - replace (Z.to_nat n) with 0%nat by lia. cbn [recv_exact_loop].
    change (len (@nil byte)) with 0.
    destruct (Z.ltb_spec 0 n); [lia|].
    exists s. split.
    + unfold sret, slice. replace (Z.to_nat (n - 0)) with 0%nat by lia.
      reflexivity.
    + unfold delivered. replace (Z.to_nat n) with 0%nat by lia.
      repeat split.
Qed.

(** X16: [recv_exact] puts together exactly the next [n] bytes of the stream,
    in however many pieces the socket hands them over, and leaves the rest
    unread. *)
Theorem recv_exact_reassembles (n : Z) (s : sock) :
  n <= len (incoming s) ->
  exists s',
    recv_exact n s = (Ret (slice (incoming s) 0 n), s') /\
    delivered s s' n.
Proof. apply recv_exact_ok. Qed.

Lemma recv_exact_reassembles_witness :
  exists s',
    recv_exact 3 (sock_of demo_data 2 (tape_of []))
    = (Ret (slice (incoming (sock_of demo_data 2 (tape_of []))) 0 3), s') /\
    delivered (sock_of demo_data 2 (tape_of [])) s' 3.
Proof.
  apply (recv_exact_reassembles 3 (sock_of demo_data 2 (tape_of []))).
  vm_compute. discriminate.
Defined.

(** The loop of [recv_exact] when the stream ends too early. *)
Lemma recv_exact_loop_closed (fuel : nat) :
  forall n data s,
  len (incoming s) < n - len data -> n - len data <= Z.of_nat fuel ->
  exists s',
    recv_exact_loop fuel n data s = (Raise ConnectionError, s') /\
    incoming s' = [].
Proof.
  induction fuel as [|f IH]; intros n data s Hin Hfuel.
  - pose proof (len_nonneg (incoming s)). lia.
  - pose proof (len_nonneg (incoming s)) as H0. cbn [recv_exact_loop].
    destruct (Z.ltb_spec (len data) n) as [Hlt|Hge]; [|lia].
    unfold sbind, recv.
    set (m := Z.min (n - len data) (Z.max 1 (cuts s (reads s)))).
    assert (Hm : 1 <= m <= n - len data) by (subst m; lia).
    assert (Hcl : len (slice (incoming s) 0 m) = Z.min m (len (incoming s))).
    { unfold slice, len in *. rewrite length_firstn. cbn [skipn Z.to_nat].
      lia. }
    set (s1 := mkSock _ _ _ _ _).
    destruct (Z.eqb_spec (len (slice (incoming s) 0 m)) 0) as [Hz|Hz].
    + exists s1. split; [reflexivity|]. subst s1. cbn [incoming].
      apply skipn_all2. unfold len in *. lia.
    + apply IH.
      * rewrite len_app, Hcl. subst s1. cbn [incoming].
        unfold len in *. rewrite length_skipn. lia.
      * rewrite len_app. lia.
Qed.

(** X17: When the peer closes before [n] bytes have arrived, [recv_exact]
    raises [ConnectionError] after reading all there was. *)
Theorem recv_exact_closed (n : Z) (s : sock) :
  len (incoming s) < n ->
  exists s',
    recv_exact n s = (Raise ConnectionError, s') /\ incoming s' = [].
Proof.
  intros Hn. pose proof (len_nonneg (incoming s)).
  apply recv_exact_loop_closed; change (len (@nil byte)) with 0; lia.
Qed.

Lemma recv_exact_closed_witness :
  exists s',
    recv_exact 12 (sock_of demo_data 5 (tape_of []))
    = (Raise ConnectionError, s') /\ incoming s' = [].
Proof.
  apply (recv_exact_closed 12 (sock_of demo_data 5 (tape_of []))).
  vm_compute. reflexivity.
Defined.

(** *** A frame written is the frame read *)

Lemma written_app (a w : bytes) : skipn (List.length a) (a ++ w) = w.
Proof. now rewrite skipn_app, skipn_all, Nat.sub_diag. Qed.

Lemma frame_received (payload rest : bytes) (r : sock) :
  len payload < 2 ^ 32 ->
  incoming r = (be_digits 4 (len payload) ++ payload) ++ rest ->
  exists r1 r2,
    recv_exact 4 r = (Ret (be_digits 4 (len payload)), r1) /\
    recv_exact (len payload) r1 = (Ret payload, r2) /\
    incoming r2 = rest.
Proof.
  intros Hlen Hin. pose proof (len_nonneg payload) as H0.
  destruct (recv_exact_ok 4 r) as (r1 & Hr1 & Hi1 & _).
  { rewrite Hin, !len_app, len_be4. pose proof (len_nonneg rest). lia. }
  assert (Hin1 : incoming r1 = payload ++ rest).
  { rewrite Hi1, Hin, <- app_assoc.
    change (Z.to_nat 4) with (List.length (be_digits 4 (len payload))).
    apply written_app. }
  destruct (recv_exact_ok (len payload) r1) as (r2 & Hr2 & Hi2 & _).
  { rewrite Hin1, len_app. pose proof (len_nonneg rest). lia. }
  exists r1, r2. repeat split.
  - rewrite Hr1, Hin, <- app_assoc.
    rewrite <- (len_be4 (len payload)). now rewrite slice_prefix.
  - rewrite Hr2, Hin1. now rewrite slice_prefix.
  - rewrite Hi2, Hin1. unfold len. rewrite Nat2Z.id. apply written_app.
Qed.

Lemma frame_sent (m : Rand bytes) (s : sock) :
  fst (sbind (with_entropy m)
         (fun enc =>
            sbind (slift (struct_pack_I (len enc)))
              (fun header => sendall (header ++ enc))) s) = Ret tt ->
  exists c g',
    m (entropy s) = Ret (c, g') /\ len c < 2 ^ 32 /\
    written s
      (snd (sbind (with_entropy m)
              (fun enc =>
                 sbind (slift (struct_pack_I (len enc)))
                   (fun header => sendall (header ++ enc))) s))
    = be_digits 4 (len c) ++ c.
Proof.
  unfold sbind, with_entropy, slift, sendall, written.
  destruct (m (entropy s)) as [[c g']| |]; try discriminate.
  destruct (struct_pack_I (len c)) as [h| |] eqn:Hh; try discriminate.
  apply struct_pack_I_inv in Hh as [Hc ->].
  intros _. exists c, g'. cbn [snd outgoing].
  repeat split; [lia|apply written_app].
Qed.

(** X18: What [send_msg] writes, [recv_msg] reads back as the same object from
    the peer's stream, in whatever pieces it arrives, and the bytes after
    the frame stay unread. *)
Theorem msg_roundtrip (json_dumps : wire -> bytes + exn)
    (json_loads : bytes -> wire + exn) (obj : wire) (payload rest : bytes)
    (s r : sock) :
  json_dumps obj = inl payload ->
  json_loads payload = inl obj ->
  len payload < 2 ^ 32 ->
  incoming r = written s (snd (send_msg json_dumps obj s)) ++ rest ->
  fst (send_msg json_dumps obj s) = Ret tt /\
  exists r', recv_msg json_loads r = (Ret obj, r') /\ incoming r' = rest.
Proof.
  intros Hd Hl Hlen. pose proof (len_nonneg payload) as H0.
  unfold send_msg, recv_msg. rewrite Hd.
  unfold sbind at 1 2 3 4, slift, of_sum.
  rewrite MultiFacts.struct_pack_I_ok by lia.
  unfold sendall, written. cbn [fst snd outgoing]. rewrite written_app.
  intros Hin. split; [reflexivity|].
  destruct (frame_received payload rest r Hlen Hin) as (r1 & r2 & H1 & H2 & H3).
  exists r2. unfold sbind. rewrite H1, unpack_be4 by lia.
  rewrite H2, Hl. auto.
Qed.

Lemma msg_roundtrip_witness :
  fst (send_msg bytes_dumps (WBytes demo_data)
         (sock_of [] 1 (tape_of []))) = Ret tt /\
  exists r',
    recv_msg bytes_loads
      (sock_of
         (written (sock_of [] 1 (tape_of []))
            (snd (send_msg bytes_dumps (WBytes demo_data)
                    (sock_of [] 1 (tape_of [])))) ++ [xff])
         3 (tape_of []))
    = (Ret (WBytes demo_data), r') /\ incoming r' = [xff].
Proof.
  apply (msg_roundtrip bytes_dumps bytes_loads (WBytes demo_data) demo_data).
  - reflexivity.
  - reflexivity.
  - vm_compute. reflexivity.
  - reflexivity.
Defined.

(** X19: What [send_encrypted] writes for a key pair that fits the codec,
    [recv_encrypted] reads back, decrypts and unpickles into the same
    object, and the bytes after the frame stay unread. *)
Theorem encrypted_roundtrip (p q : Z) (pub : PublicKey) (priv : PrivateKey)
    (mode : string) (pickle_dumps : wire -> bytes + exn)
    (pickle_loads : bytes -> wire + exn) (obj : wire) (plain rest : bytes)
    (s r : sock) :
  rsa_pair p q pub priv ->
  In mode modes ->
  8 <= _mod_bytes (pub_n pub) - 1 ->
  _mod_bytes (pub_n pub) <= 65535 ->
  pickle_dumps obj = inl plain ->
  pickle_loads plain = inl obj ->
  fst (send_encrypted pickle_dumps obj pub mode s) = Ret tt ->
  incoming r
  = written s (snd (send_encrypted pickle_dumps obj pub mode s)) ++ rest ->
  exists r',
    recv_encrypted pickle_loads priv mode r = (Ret obj, r') /\
    incoming r' = rest.
Proof.
  intros Hpair Hmode Hsmall Hbig Hd Hl.
  unfold send_encrypted. rewrite Hd.
  change (sbind (slift (of_sum (inl plain))) ?f s) with (f plain s).
  cbv beta. intros Hok Hin.
  destruct (frame_sent _ s Hok) as (c & g' & Henc & Hc & Hw).
  rewrite Hw in Hin.
  destruct (RsaFacts.encrypt_decrypt p q pub priv mode Hpair Hmode Hsmall
              Hbig plain (entropy s)) as (c' & g'' & Henc' & Hdec).
  rewrite Henc in Henc'. injection Henc' as <- <-.
  destruct (frame_received c rest r Hc Hin) as (r1 & r2 & H1 & H2 & H3).
  exists r2. unfold recv_encrypted, sbind.
  rewrite H1. unfold slift at 1. rewrite unpack_be4
    by (pose proof (len_nonneg c); lia).
  rewrite H2. unfold slift. rewrite Hdec, Hl. auto.
Qed.

Lemma encrypted_roundtrip_witness :
  exists r',
    recv_encrypted bytes_loads demo_priv "rand_len"
      (sock_of
         (written (sock_of [] 1 (tape_of [7; 8]))
            (snd (send_encrypted bytes_dumps (WBytes demo_data) demo_pub
                    "rand_len" (sock_of [] 1 (tape_of [7; 8])))) ++ [xff])
         3 (tape_of []))
    = (Ret (WBytes demo_data), r') /\ incoming r' = [xff].
Proof.
  apply (encrypted_roundtrip demo_p demo_q demo_pub demo_priv "rand_len"
           bytes_dumps bytes_loads (WBytes demo_data) demo_data [xff]
           (sock_of [] 1 (tape_of [7; 8]))).
  - exact RsaFacts.demo_pair.
  - simpl. auto.
  - vm_compute. congruence.
  - vm_compute. congruence.
  - reflexivity.
  - reflexivity.
  - vm_compute. reflexivity.
  - reflexivity.
Defined.

(** X20: The same for a binary packet: the header object and the payload that
    [send_encrypted_bin] sends are the pair [recv_encrypted_bin]
    returns. *)
Theorem encrypted_bin_roundtrip (p q : Z) (pub : PublicKey)
    (priv : PrivateKey) (mode : string)
    (pickle_dumps : wire -> bytes + exn)
    (pickle_loads : bytes -> wire + exn) (header_obj : wire)
    (hb bin_data rest : bytes) (s r : sock) :
  rsa_pair p q pub priv ->
  In mode modes ->
  8 <= _mod_bytes (pub_n pub) - 1 ->
  _mod_bytes (pub_n pub) <= 65535 ->
  pickle_dumps header_obj = inl hb ->
  pickle_loads hb = inl header_obj ->
  fst (send_encrypted_bin pickle_dumps header_obj bin_data pub mode s)
  = Ret tt ->
  incoming r
  = written s
      (snd (send_encrypted_bin pickle_dumps header_obj bin_data pub mode s))
    ++ rest ->
  exists r',
    recv_encrypted_bin pickle_loads priv mode r
    = (Ret (header_obj, bin_data), r') /\
    incoming r' = rest.
Proof.
  intros Hpair Hmode Hsmall Hbig Hd Hl.
  unfold send_encrypted_bin.
  destruct (pack_pickle_bin pickle_dumps header_obj bin_data)
    as [packet| |] eqn:Hpack; try (unfold sbind, slift; discriminate).
  change (sbind (slift (Ret packet)) ?f s) with (f packet s).
  cbv beta. intros Hok Hin.
  destruct (frame_sent _ s Hok) as (c & g' & Henc & Hc & Hw).
  rewrite Hw in Hin.
  destruct (RsaFacts.encrypt_decrypt p q pub priv mode Hpair Hmode Hsmall
              Hbig packet (entropy s)) as (c' & g'' & Henc' & Hdec).
  rewrite Henc in Henc'. injection Henc' as <- <-.
  destruct (frame_received c rest r Hc Hin) as (r1 & r2 & H1 & H2 & H3).
  destruct (pack_unpack_bin pickle_dumps pickle_loads header_obj hb bin_data
              packet [] Hd Hl Hpack) as [_ Hun].
  rewrite app_nil_r in Hun.
  exists r2. unfold recv_encrypted_bin, sbind.
  rewrite H1. unfold slift at 1. rewrite unpack_be4
    by (pose proof (len_nonneg c); lia).
  rewrite H2. unfold slift. rewrite Hdec, Hun. auto.
Qed.

Lemma encrypted_bin_roundtrip_witness :
  exists r',
    recv_encrypted_bin pickle_loads_fragment demo_priv "raw_fixed"
      (sock_of
         (written (sock_of [] 1 (tape_of []))
            (snd (send_encrypted_bin
                    (fun _ => inl [x80; x05; x7d; x94; x2e]) (WDict [])
                    demo_data demo_pub "raw_fixed"
                    (sock_of [] 1 (tape_of [])))) ++ [xff])
         2 (tape_of []))
    = (Ret (WDict [], demo_data), r') /\ incoming r' = [xff].
Proof.
  apply (encrypted_bin_roundtrip demo_p demo_q demo_pub demo_priv "raw_fixed"
           (fun _ => inl [x80; x05; x7d; x94; x2e]) pickle_loads_fragment
           (WDict []) [x80; x05; x7d; x94; x2e] demo_data [xff]
           (sock_of [] 1 (tape_of []))).
  - exact RsaFacts.demo_pair.
  - simpl. auto.
  - vm_compute. congruence.
  - vm_compute. congruence.
  - reflexivity.
  - reflexivity.
  - vm_compute. reflexivity.
  - reflexivity.
Defined.

End WireFacts.

(** ** The connection handlers *)

Module SessionFacts.
Import Py PyFacts RsaBlock RsaAux MoreAux Server Session.

Lemma effect_cret {A} (P : event -> Prop) (a : A) : effect P (cret a).
Proof.
  intros s. split; [reflexivity|]. exists []. now rewrite app_nil_r.
Qed.

Lemma effect_clift {A} (P : event -> Prop) (o : outcome A) :
  effect P (clift o).
Proof.
  intros s. split; [reflexivity|]. exists []. now rewrite app_nil_r.
Qed.

Lemma effect_cbind {A B} (P : event -> Prop) (m : Conn A)
    (f : A -> Conn B) :
  effect P m -> (forall a, effect P (f a)) -> effect P (cbind m f).
Proof.
  intros Hm Hf s. unfold cbind.
  destruct (Hm s) as (Hc & evs & Ht & HP).
  destruct (m s) as [[a|e|] s1]; cbn [snd] in *.
  - destruct (Hf a s1) as (Hc2 & evs2 & Ht2 & HP2).
    split; [congruence|]. exists (evs ++ evs2).
    rewrite Ht2, Ht, app_assoc. split; [reflexivity|].
    apply Forall_app. auto.
  - split; [assumption|]. exists evs. auto.
  - split; [assumption|]. exists evs. auto.
Qed.

Lemma effect_try {A} (P : event -> Prop) (m : Conn A)
    (h : exn -> Conn A) :
  effect P m -> (forall e, effect P (h e)) -> effect P (try_except m h).
Proof.
  intros Hm Hh s. unfold try_except.
  destruct (Hm s) as (Hc & evs & Ht & HP).
  destruct (m s) as [[a|e|] s1]; cbn [snd] in *.
  - split; [assumption|]. exists evs. auto.
  - destruct (is_Exception e); cbn [snd].
    + destruct (Hh e s1) as (Hc2 & evs2 & Ht2 & HP2).
      split; [congruence|]. exists (evs ++ evs2).
      rewrite Ht2, Ht, app_assoc. split; [reflexivity|].
      apply Forall_app. auto.
    + split; [assumption|]. exists evs. auto.
  - split; [assumption|]. exists evs. auto.
Qed.

Lemma effect_sendall (P : event -> Prop) (ev : event) :
  P ev -> effect P (sendall ev).
Proof.
  intros HP s. unfold sendall.
  destruct (send_fault s (sends s)); cbn [snd client_pub trace];
    (split; [reflexivity|]); exists [ev]; auto.
Qed.

Lemma effect_log (P : event -> Prop) (ev : event) :
  P ev -> effect P (log ev).
Proof.
  intros HP s. unfold log. cbn [snd client_pub trace].
  split; [reflexivity|]. exists [ev]. auto.
Qed.

Lemma effect_with_tape {A} (P : event -> Prop) (m : Rand A) :
  effect P (with_tape m).
Proof.
  intros s. unfold with_tape.
  destruct (m (tape s)) as [[a g]| |]; cbn [snd client_pub trace];
    (split; [reflexivity|]); exists []; now rewrite app_nil_r.
Qed.

Section Ctx.

Variables (crypto_pub : PublicKey) (crypto_priv : PrivateKey)
          (crypto_mode : string).
Variable pickle_dumps : wire -> bytes + exn.
Variable pickle_loads : bytes -> wire + exn.
Variable int_of_str : string -> Z + exn.
Variable handle : wire -> outcome wire.

Lemma effect_send_frame (plain : bytes) (peer : PublicKey) :
  effect is_secret (send_frame crypto_mode plain peer).
Proof.
  unfold send_frame. apply effect_cbind; [apply effect_with_tape|].
  intros enc. apply effect_cbind; [apply effect_clift|].
  intros _. apply effect_sendall. exact I.
Qed.

Lemma effect_send_encrypted (obj : wire) (peer : PublicKey) :
  effect is_secret (send_encrypted crypto_mode pickle_dumps obj peer).
Proof.
  unfold send_encrypted. apply effect_cbind; [apply effect_clift|].
  intros plain. apply effect_send_frame.
Qed.

Lemma effect_send_encrypted_bin (h b : wire) (peer : PublicKey) :
  effect is_secret (send_encrypted_bin crypto_mode pickle_dumps h b peer).
Proof.
  unfold send_encrypted_bin. destruct b; try apply effect_clift.
  apply effect_cbind; [apply effect_clift|].
  intros packet. apply effect_send_frame.
Qed.

Lemma effect_recv_encrypted :
  effect is_secret (recv_encrypted crypto_priv crypto_mode pickle_loads).
Proof.
  unfold recv_encrypted, recv_frame.
  apply effect_cbind; [|intros plain; apply effect_clift].
  apply effect_cbind.
  - intros s. split; [reflexivity|]. exists []. now rewrite app_nil_r.
  - intros enc. apply effect_cbind; [apply effect_log; exact I|].
    intros _. apply effect_clift.
Qed.

(** What follows the acknowledgement in [serve]. *)
Lemma effect_serve_body (peer : PublicKey) :
  effect is_secret
    (cbind (recv_encrypted crypto_priv crypto_mode pickle_loads)
       (fun req =>
          cbind (clift (handle req))
            (fun resp =>
               match resp with
               | WDict fields =>
                   if truthy (dict_lookup fields "__bin__")
                   then
                     cbind (clift (py_item resp "header"))
                       (fun h =>
                          cbind (clift (py_item resp "bin"))
                            (fun b =>
                               send_encrypted_bin crypto_mode pickle_dumps
                                 h b peer))
                   else send_encrypted crypto_mode pickle_dumps resp peer
               | _ => send_encrypted crypto_mode pickle_dumps resp peer
               end))).
Proof.
  apply effect_cbind; [apply effect_recv_encrypted|].
  intros req. apply effect_cbind; [apply effect_clift|].
  intros resp. destruct resp; try apply effect_send_encrypted.
  destruct (truthy _); [|apply effect_send_encrypted].
  apply effect_cbind; [apply effect_clift|].
  intros h. apply effect_cbind; [apply effect_clift|].
  intros b. apply effect_send_encrypted_bin.
Qed.

Lemma report_error_known (e : exn) (s : conn) (peer : PublicKey) :
  client_pub s = Some peer ->
  client_pub (snd (report_error crypto_mode pickle_dumps e s)) = Some peer /\
  exists evs,
    trace (snd (report_error crypto_mode pickle_dumps e s)) = trace s ++ evs /\
    Forall is_secret evs.
Proof.
  intros Hc.
  assert (Heq : report_error crypto_mode pickle_dumps e s
                = try_except
                    (send_encrypted crypto_mode pickle_dumps (error_reply e)
                       peer)
                    (fun _ => cret tt) s).
  { unfold report_error, try_except, cbind, get_client_pub.
    now rewrite Hc. }
  rewrite Heq.
  destruct (effect_try is_secret _ (fun _ : exn => cret tt)
              (effect_send_encrypted (error_reply e) peer)
              (fun _ => effect_cret _ tt) s) as (H1 & H2).
  split; [congruence|assumption].
Qed.

Lemma report_error_unknown (e : exn) (s : conn) :
  client_pub s = None ->
  client_pub (snd (report_error crypto_mode pickle_dumps e s)) = None /\
  exists evs,
    trace (snd (report_error crypto_mode pickle_dumps e s)) = trace s ++ evs /\
    Forall is_plain evs.
Proof.
  intros Hc.
  assert (Heq : report_error crypto_mode pickle_dumps e s
                = try_except (send_msg (error_reply e)) (fun _ => cret tt) s).
  { unfold report_error, try_except, cbind, get_client_pub.
    now rewrite Hc. }
  rewrite Heq.
  destruct (effect_try is_plain _ (fun _ : exn => cret tt)
              (effect_sendall is_plain (SentPlain (error_reply e)) I)
              (fun _ => effect_cret _ tt) s) as (H1 & H2).
  unfold send_msg. split; [congruence|assumption].
Qed.

(** The two ways a handshake ends: no key was accepted and all that was
    written is plaintext, or the key of the hello frame was accepted, the
    acknowledgement was written, and the rest involves the cipher. *)
Lemma handshake_cases (after : PublicKey -> Conn unit) (s : conn) :
  (forall peer, effect is_secret (after peer)) ->
  client_pub s = None ->
  (client_pub (snd (handshake crypto_pub int_of_str after s)) = None /\
   exists evs,
     trace (snd (handshake crypto_pub int_of_str after s)) = trace s ++ evs /\
     Forall is_plain evs) \/
  (exists peer evs fields pk,
     first_frame s = Ret (WDict fields) /\
     is_str (dict_lookup fields "type") "hello" = true /\
     dict_lookup fields "pub" = Some pk /\
     pub_from_json int_of_str pk = Ret peer /\
     client_pub (snd (handshake crypto_pub int_of_str after s)) = Some peer /\
     trace (snd (handshake crypto_pub int_of_str after s))
     = trace s ++ SentPlain (hello_ack crypto_pub) :: evs /\
     Forall is_secret evs).
Proof.
  intros Hafter Hc.
  assert (Hstay : forall {A} (o : outcome A),
            client_pub (snd (o, s)) = None /\
            exists evs, trace (snd (o, s)) = trace s ++ evs /\
                        Forall is_plain evs).
  { intros A o. split; [assumption|]. exists []. now rewrite app_nil_r. }
  remember (handshake crypto_pub int_of_str after s) as r eqn:Hr.
  unfold handshake in Hr. unfold cbind at 1, recv_msg in Hr.
  destruct (first_frame s) as [hello| |] eqn:Hf;
    try (left; subst r; apply Hstay).
  unfold cbind at 1, clift at 1 in Hr.
  destruct hello as [|b|z|str|bs|l|fields]; cbn [py_get] in Hr;
    try (left; subst r; apply Hstay).
  destruct (is_str (dict_lookup fields "type") "hello") eqn:Ht;
    cbn [negb] in Hr.
  - unfold cbind at 1, clift at 1 in Hr. cbn [py_item] in Hr.
    destruct (dict_lookup fields "pub") as [pk|] eqn:Hpk;
      [|left; subst r; apply Hstay].
    unfold cbind at 1, clift at 1 in Hr.
    destruct (pub_from_json int_of_str pk) as [peer| |] eqn:Hpeer;
      try (left; subst r; apply Hstay).
    right. exists peer.
    unfold cbind at 1, set_client_pub at 1 in Hr.
    unfold cbind at 1, send_msg, sendall in Hr.
    cbn [send_fault sends first_frame enc_frame tape client_pub trace] in Hr.
    destruct (send_fault s (sends s)) as [e|].
    + exists [], fields, pk. subst r. cbn [snd client_pub trace].
      repeat split; auto.
    + match type of Hr with
      | r = after peer ?s1 =>
          destruct (Hafter peer s1) as (H1 & evs & H2 & H3)
      end.
      cbn [client_pub trace] in H1, H2. rewrite <- Hr in H1, H2.
      exists evs, fields, pk. rewrite H1, H2, <- app_assoc.
      repeat split; auto.
  - destruct (effect_sendall is_plain (SentPlain expected_hello) I s)
      as (H1 & H2).
    left. subst r. unfold send_msg. split; [congruence|assumption].
Qed.

Lemma session_cases (after : PublicKey -> Conn unit) (s : conn) :
  (forall peer, effect is_secret (after peer)) ->
  (client_pub
     (snd (cbind (set_client_pub None)
             (fun _ =>
                try_except (handshake crypto_pub int_of_str after)
                  (report_error crypto_mode pickle_dumps)) s)) = None /\
   exists evs,
     trace
       (snd (cbind (set_client_pub None)
               (fun _ =>
                  try_except (handshake crypto_pub int_of_str after)
                    (report_error crypto_mode pickle_dumps)) s))
     = trace s ++ evs /\
     Forall is_plain evs) \/
  (exists peer evs fields pk,
     first_frame s = Ret (WDict fields) /\
     is_str (dict_lookup fields "type") "hello" = true /\
     dict_lookup fields "pub" = Some pk /\
     pub_from_json int_of_str pk = Ret peer /\
     client_pub
       (snd (cbind (set_client_pub None)
               (fun _ =>
                  try_except (handshake crypto_pub int_of_str after)
                    (report_error crypto_mode pickle_dumps)) s))
     = Some peer /\
     trace
       (snd (cbind (set_client_pub None)
               (fun _ =>
                  try_except (handshake crypto_pub int_of_str after)
                    (report_error crypto_mode pickle_dumps)) s))
     = trace s ++ SentPlain (hello_ack crypto_pub) :: evs /\
     Forall is_secret evs).
Proof.
  intros Hafter.
  remember (cbind (set_client_pub None)
              (fun _ =>
                 try_except (handshake crypto_pub int_of_str after)
                   (report_error crypto_mode pickle_dumps)) s) as r eqn:Hr.
  unfold cbind at 1, set_client_pub at 1 in Hr.
  unfold try_except at 1 in Hr.
  match type of Hr with
  | context [handshake _ _ _ ?s0] =>
      destruct (handshake_cases after s0 Hafter eq_refl)
        as [(Hc & evs & Ht & HP)
           |(peer & evs & fields & pk & Hf & Hty & Hpk & Hpeer & Hc & Ht
             & HP)];
      cbn [first_frame trace] in *;
      destruct (handshake crypto_pub int_of_str after s0) as [[u|e|] s1]
  end; cbn [snd] in *.
  - left. subst r. cbn [snd]. eauto.
  - left. subst r. destruct (is_Exception e); [|cbn [snd]; eauto].
    destruct (report_error_unknown e s1 Hc) as (Hc2 & evs2 & Ht2 & HP2).
    split; [assumption|]. exists (evs ++ evs2).
    rewrite Ht2, Ht, app_assoc. split; [reflexivity|].
    apply Forall_app. auto.
  - left. subst r. cbn [snd]. eauto.
  - right. subst r. cbn [snd]. exists peer, evs, fields, pk. auto 10.
  - right. subst r.
    destruct (is_Exception e);
      [|cbn [snd]; exists peer, evs, fields, pk; auto 10].
    destruct (report_error_known e s1 peer Hc) as (Hc2 & evs2 & Ht2 & HP2).
    exists peer, (evs ++ evs2), fields, pk.
    rewrite Ht2, Ht, <- app_assoc.
    repeat split; auto. apply Forall_app. auto.
  - right. subst r. cbn [snd]. exists peer, evs, fields, pk. auto 10.
Qed.




Lemma report_error_escapes (e e' : exn) (s : conn) :
  fst (report_error crypto_mode pickle_dumps e s) = Raise e' ->
  is_Exception e' = false.
Proof.
  unfold report_error. unfold try_except at 1.
  match goal with
  | |- context [match ?m with _ => _ end] => destruct m as [[u|e0|] s1]
  end; cbn [fst]; try discriminate.
  destruct (is_Exception e0) eqn:He0; cbn [fst cret]; [discriminate|].
  intros [= <-]. exact He0.
Qed.

Lemma guarded_escapes (body : Conn unit) (e : exn) (s : conn) :
  fst (cbind (set_client_pub None)
         (fun _ => try_except body (report_error crypto_mode pickle_dumps))
         s) = Raise e ->
  is_Exception e = false.
Proof.
  unfold cbind at 1, set_client_pub at 1. unfold try_except at 1.
  match goal with
  | |- context [body ?s0] => destruct (body s0) as [[u|e0|] s1]
  end; cbn [fst]; try discriminate.
  destruct (is_Exception e0) eqn:He0.
  - apply report_error_escapes.
  - cbn [fst]. intros [= <-]. exact He0.
Qed.

End Ctx.

(** X21: An exception that leaves the handler of a connection, of [serve] or
    of [serve_upload], is not an [Exception]: every [Exception] is caught
    by the [except Exception] clause, and one that the error report itself
    raises is dropped, so only [SystemExit] or [KeyboardInterrupt] can end
    the accept loop. *)
Theorem handlers_never_raise
    (crypto_pub : PublicKey) (crypto_priv : PrivateKey) (crypto_mode : string)
    (pickle_dumps : wire -> bytes + exn) (pickle_loads : bytes -> wire + exn)
    (int_of_str : string -> Z + exn) (handle : wire -> outcome wire)
    (upload_body : wire -> bytes -> PublicKey -> Conn unit)
    (s : conn) (e : exn) :
  fst (serve_conn crypto_pub crypto_priv crypto_mode pickle_dumps
         pickle_loads int_of_str handle s) = Raise e \/
  fst (serve_upload_conn crypto_pub crypto_priv crypto_mode pickle_dumps
         pickle_loads int_of_str upload_body s) = Raise e ->
  is_Exception e = false.
Proof.
  intros [H|H]; eapply guarded_escapes; exact H.
Qed.

Lemma handlers_never_raise_witness : is_Exception SystemExit = false.
Proof.
  apply (handlers_never_raise demo_pub demo_priv "raw_fixed" pong_dumps
           Wire.bytes_loads no_int (fun _ => Raise SystemExit) no_upload
           demo_conn SystemExit).
  left. vm_compute. reflexivity.
Defined.

(** An [Exception] raised by the request handler does not leave: it is
    reported to the client, through the cipher. *)
Example handler_error_is_reported :
  fst (serve_conn demo_pub demo_priv "raw_fixed" pong_dumps
         Wire.bytes_loads no_int (fun _ => Raise (ValueError "boom"))
         demo_conn) = Ret tt /\
  List.length
    (trace (snd (serve_conn demo_pub demo_priv "raw_fixed" pong_dumps
                   Wire.bytes_loads no_int
                   (fun _ => Raise (ValueError "boom")) demo_conn)))
  = 3%nat.
Proof. vm_compute. split; reflexivity. Qed.

(** X22: As long as [serve] has accepted no client key on a connection, all it
    has written there is plaintext and it has decrypted nothing. *)
Theorem no_key_no_cipher
    (crypto_pub : PublicKey) (crypto_priv : PrivateKey) (crypto_mode : string)
    (pickle_dumps : wire -> bytes + exn) (pickle_loads : bytes -> wire + exn)
    (int_of_str : string -> Z + exn) (handle : wire -> outcome wire)
    (s : conn) :
  client_pub (snd (serve_conn crypto_pub crypto_priv crypto_mode pickle_dumps
                     pickle_loads int_of_str handle s)) = None ->
  exists evs,
    trace (snd (serve_conn crypto_pub crypto_priv crypto_mode pickle_dumps
                  pickle_loads int_of_str handle s))
    = trace s ++ evs /\
    Forall is_plain evs.
Proof.
  unfold serve_conn. intros Hnone.
  destruct (session_cases crypto_pub crypto_mode pickle_dumps int_of_str _ s
              (effect_serve_body crypto_priv crypto_mode pickle_dumps
                 pickle_loads handle))
    as [(_ & H)|(peer & evs & fields & pk & _ & _ & _ & _ & Hc & _)].
  - exact H.
  - rewrite Hnone in Hc. discriminate.
Qed.

Lemma no_key_no_cipher_witness :
  exists evs,
    trace (snd (serve_conn pub32 priv32 "rand_len" no_pickle
                  pickle_loads_fragment no_int pong_handle ping_conn))
    = trace ping_conn ++ evs /\
    Forall is_plain evs.
Proof.
  apply (no_key_no_cipher pub32 priv32 "rand_len" no_pickle
           pickle_loads_fragment no_int pong_handle ping_conn).
  reflexivity.
Defined.





End SessionFacts.

(** ** More about the multi-file packet and the published key *)

Module PackFacts.
Import Py PyFacts RsaBlock RsaAux MultiFiles MultiFacts Server Session.

Lemma pack_loop_cases (blobs : list bytes) :
  forall out,
  match pack_loop blobs out with
  | Ret r => Forall small blobs /\ r = out ++ entries blobs
  | Raise e => e = StructError /\ ~ Forall small blobs
  | OutOfFuel => False
  end.
Proof.
  induction blobs as [|b rest IH]; intros out.
  - cbn. split; [constructor|now rewrite app_nil_r].
  - cbn [pack_loop]. unfold struct_pack_I.
    pose proof (len_nonneg b) as H0.
    destruct (Z.leb_spec 0 (len b)); [|lia].
    destruct (Z.ltb_spec (len b) (2 ^ 32)) as [Hlt|Hge]; cbn [andb bind].
    + specialize (IH (out ++ be_digits 4 (len b) ++ b)).
      destruct (pack_loop rest _) as [r|e|]; [| |assumption].
      * destruct IH as [Hall ->]. split; [now constructor|].
        unfold entries. cbn [map List.concat]. now rewrite <- !app_assoc.
      * destruct IH as [-> Hn]. split; [reflexivity|].
        intros Hall. inversion Hall. auto.
    + split; [reflexivity|]. intros Hall. inversion Hall as [|? ? Hb].
      unfold small in Hb. lia.
Qed.

Lemma pack_cases (blobs : list bytes) :
  match _pack_multi_files blobs with
  | Ret packet =>
      len blobs < 2 ^ 32 /\ Forall small blobs /\
      packet = be_digits 4 (len blobs) ++ entries blobs
  | Raise e => e = StructError /\ ~ (len blobs < 2 ^ 32 /\ Forall small blobs)
  | OutOfFuel => False
  end.
Proof.
  unfold _pack_multi_files, struct_pack_I.
  pose proof (len_nonneg blobs) as H0.
  destruct (Z.leb_spec 0 (len blobs)); [|lia].
  destruct (Z.ltb_spec (len blobs) (2 ^ 32)) as [Hlt|Hge]; cbn [andb bind].
  - pose proof (pack_loop_cases blobs ([] ++ be_digits 4 (len blobs))) as H1.
    destruct (pack_loop blobs _) as [r|e|]; [| |assumption].
    + destruct H1 as [Hall ->]. auto.
    + destruct H1 as [-> Hn]. split; [reflexivity|]. tauto.
  - split; [reflexivity|]. lia.
Qed.

(** X25: [_pack_multi_files] returns exactly when there are fewer than 2^32
    buffers, each shorter than 2^32 bytes, and then the packet is the count
    followed by the length-prefixed buffers; otherwise [struct.pack]
    raises. *)
Theorem pack_multi_files_cases (blobs : list bytes) :
  match _pack_multi_files blobs with
  | Ret packet =>
      len blobs < 2 ^ 32 /\ Forall small blobs /\
      packet = be_digits 4 (len blobs) ++ entries blobs
  | Raise e => e = StructError /\ ~ (len blobs < 2 ^ 32 /\ Forall small blobs)
  | OutOfFuel => False
  end.
Proof. apply pack_cases. Qed.

(** X26: Bytes that follow a packet are ignored: [_unpack_multi_files] returns
    the packed buffers from any buffer that starts with their packet. *)
Theorem unpack_ignores_trailing (blobs : list bytes) (packet tail : bytes) :
  _pack_multi_files blobs = Ret packet ->
  _unpack_multi_files (packet ++ tail) = Ret blobs.
Proof.
  intros Hp. pose proof (pack_cases blobs) as H.
  rewrite Hp in H. destruct H as (Hc & Hall & ->).
  rewrite <- app_assoc. now apply unpack_multi_files_packed.
Qed.

Lemma unpack_ignores_trailing_witness :
  _unpack_multi_files
    ([x00; x00; x00; x01; x00; x00; x00; x02; x41; x42] ++ [xff; xff])
  = Ret [[x41; x42]].
Proof.
  apply (unpack_ignores_trailing [[x41; x42]]). reflexivity.
Defined.

(** X27: The key a peer reads out of a hello frame is the key that was
    published in it, given that [int] reads back the decimal string of the
    modulus. *)
Theorem pub_json_roundtrip (int_of_str : string -> Z + exn)
    (pub : PublicKey) :
  int_of_str (NilZero.string_of_int (Z.to_int (pub_n pub))) = inl (pub_n pub) ->
  pub_from_json int_of_str (pub_to_json pub) = Ret pub.
Proof.
  intros H. unfold pub_from_json, pub_to_json. cbn [py_item dict_lookup].
  cbn. rewrite H. cbn. now destruct pub.
Qed.

Lemma pub_json_roundtrip_witness :
  pub_from_json dec_int (pub_to_json demo_pub) = Ret demo_pub.
Proof.
  apply (pub_json_roundtrip dec_int demo_pub). vm_compute. reflexivity.
Defined.

End PackFacts.
